(** * EnigmaForDummies: a substitution-cipher breaker (enigma.py)

    A shallow embedding of [enigma.py] and the properties of its bigram
    model, its scorer and its Metropolis search.

    Conventions of the embedding.
    - A Python [str] is a list of code points ([N]); a one-character
      string is a code point.
    - A Python [dict] is an association list in insertion order with
      distinct keys ([dict_get], [dict_set], [dict_of_pairs]).
    - A Python exception is a value of [exn]; a call that may raise
      returns a [res].
    - numpy's float64 arithmetic is a parameter of training
      ([NumpyFloat]); IEEE binary64 with numpy's pairwise summation is one
      instance ([binary64]), exact rational arithmetic is another
      ([exact_rational]).  The engine that scoring and the search run on holds the
      matrix of the exact instance, rationals ([Q]), and scores are reals
      ([R]) once [np.log] and [np.exp] are applied.
    - The hidden generators of the [random] module and of [numpy.random]
      are two components of the ambient [world], next to the console. *)

From Stdlib Require Import Ascii String QArith Qreals Reals Lra Lia.
From Stdlib Require SpecFloat.
From stdpp Require Import base strings numbers.
From stdpp Require Import list.

Local Open Scope Z_scope.
Local Open Scope nat_scope.

(** ** Python values *)

Abbreviation char := N (only parsing).
Abbreviation str := (list N) (only parsing).

(** A string literal, as the list of its code points. *)
Definition py (s : string) : str :=
  N_of_ascii <$> list_ascii_of_string s.

Inductive exn : Type :=
  | AssertionError (msg : string)
  | AttributeError (attr : string)
  | KeyError
  | IndexError
  | ValueError.

Inductive res (A : Type) : Type :=
  | Ok (a : A)
  | Raise (e : exn).
Arguments Ok {A} a.
Arguments Raise {A} e.

#[global] Instance res_ret : MRet res := λ A a, Ok a.
#[global] Instance res_bind : MBind res := λ A B f m,
  match m with
  | Ok a => f a
  | Raise e => Raise e
  end.
#[global] Instance res_fmap : FMap res := λ A B f m,
  match m with
  | Ok a => Ok (f a)
  | Raise e => Raise e
  end.

(** [o] when it holds a value, the exception [e] when it does not. *)
Definition or_raise {A} (e : exn) (o : option A) : res A :=
  match o with
  | Some a => Ok a
  | None => Raise e
  end.

(** ** Python dictionaries *)

Section pydict.
Context {K V : Type} `{EqDecision K}.

(** [d[k]]; [None] stands for the KeyError. *)
Fixpoint dict_get (d : list (K * V)) (k : K) : option V :=
  match d with
  | [] => None
  | (k', v) :: d' => if decide (k' = k) then Some v else dict_get d' k
  end.

(** [d[k] = v]: an existing key keeps its place, a new one goes last. *)
Fixpoint dict_set (k : K) (v : V) (d : list (K * V)) : list (K * V) :=
  match d with
  | [] => [(k, v)]
  | (k', v') :: d' =>
      if decide (k' = k) then (k', v) :: d' else (k', v') :: dict_set k v d'
  end.

(** [d.setdefault(k, v)]: the value read, and the dictionary after. *)
Definition dict_setdefault (k : K) (v : V) (d : list (K * V))
  : V * list (K * V) :=
  match dict_get d k with
  | Some v' => (v', d)
  | None => (v, dict_set k v d)
  end.

(** [dict(pairs)], and a comprehension [{k: v for ...}]. *)
Definition dict_of_pairs (l : list (K * V)) : list (K * V) :=
  foldl (λ d kv, dict_set kv.1 kv.2 d) [] l.

Definition dict_keys (d : list (K * V)) : list K := d.*1.
Definition dict_values (d : list (K * V)) : list V := d.*2.
Definition dict_copy (d : list (K * V)) : list (K * V) := d.
End pydict.

(** ** The engine: [__init__] *)

(** [string.ascii_lowercase] *)
Definition ascii_lowercase : str := py "abcdefghijklmnopqrstuvwxyz".

(** One character against [re.compile("[^a-z ]")]. *)
Definition regex_pattern (c : char) : bool :=
  negb ((97 <=? c)%N && (c <=? 122)%N || (c =? 32)%N).

(** [self.regex_pattern.sub("", s)] *)
Definition regex_sub (s : str) : str :=
  List.filter (λ c, negb (regex_pattern c)) s.

Record EnigmaForDummies : Type := mkEnigma {
  emp_freq_prepared : bool;
  alphabet : str;
  char_index_mapping : list (char * nat);
  (** [None] until training creates the attribute *)
  empirical_frequences : option (list (list Q))
}.

Definition init : EnigmaForDummies :=
  let alphabet := py " " ++ ascii_lowercase in
  {| emp_freq_prepared := false;
     alphabet := alphabet;
     char_index_mapping := dict_of_pairs (zip alphabet (seq 0 (length alphabet)));
     empirical_frequences := None |}.

(** [encrypt_or_decrypt]: ["".join([mapping[s] for s in text])] *)
Definition encrypt_or_decrypt (text : str) (mapping : list (char * char))
  : res str :=
  mapM (λ s, or_raise KeyError (dict_get mapping s)) text.

(** [{v: k for k, v in cipher.items()}] *)
Definition invert (cipher : list (char * char)) : list (char * char) :=
  dict_of_pairs ((λ kv, (kv.2, kv.1)) <$> cipher).

(** ** Training: [prepare_empirical_freq_normalized] *)

(** [str.lower()] is Python's Unicode lowering, which the source only
    calls: the development is parametric in it. *)
Class StrLower := lower : str → str.

(** [a.repeat(2)] on a one-dimensional array *)
Definition np_repeat2 {A} (a : list A) : list A :=
  a ≫= λ x, [x; x].

(** [a[1:-1]] *)
Definition slice_1_m1 {A} (a : list A) : list A :=
  take (length a - 2) (drop 1 a).

(** [a.reshape(-1, 2)]: numpy refuses an odd number of cells. *)
Fixpoint reshape_m1_2 {A} (a : list A) : res (list (A * A)) :=
  match a with
  | [] => Ok []
  | [_] => Raise ValueError
  | x :: y :: a' => ((x, y) ::.) <$> reshape_m1_2 a'
  end.

(** Lines 47-50: one transition counted. *)
Definition count_transition (char_bigram_counts : list (char * char * Z))
    (ij : char * char) : list (char * char * Z) :=
  let '(v, d) := dict_setdefault ij 0%Z char_bigram_counts in
  dict_set ij (v + 1)%Z d.

(** Lines 39-50: the body of [for line in f]. *)
Definition count_line `{StrLower} (char_bigram_counts : list (char * char * Z))
    (line : str) : res (list (char * char * Z)) :=
  let clean_line := regex_sub (lower line) in
  transitions ← reshape_m1_2 (slice_1_m1 (np_repeat2 clean_line));
  Ok (foldl count_transition char_bigram_counts transitions).

(** [for ... : acc = body acc x], stopping at the first exception. *)
Fixpoint for_res {A S} (body : S → A → res S) (s : S) (l : list A) : res S :=
  match l with
  | [] => Ok s
  | x :: l' => s' ← body s x; for_res body s' l'
  end.

(** [m[a][b] = v] on a two-dimensional array, indices from a [dict] of
    naturals; numpy raises IndexError outside the array. *)
Definition matrix_set (a b : nat) (v : Q) (m : list (list Q))
  : res (list (list Q)) :=
  row ← or_raise IndexError (m !! a);
  if decide (b < length row) then Ok (<[a := <[b := v]> row]> m)
  else Raise IndexError.

(** [sum] of a row *)
Definition row_sum (row : list Q) : Q := foldr Qplus 0%Q row.

(** Lines 53-54: the letters encoder. *)
Definition unigram_to_index : list (char * nat) :=
  let letters := py " " ++ ascii_lowercase in
  dict_of_pairs (zip letters (seq 0 (length letters))).

(** Lines 62-64: the cell of one counted pair overwritten. *)
Definition fill_cell (char_bigram_counts : list (char * char * Z))
    (transition_matrix : list (list Q)) (s_pair : char * char)
  : res (list (list Q)) :=
  v ← or_raise KeyError (dict_get char_bigram_counts s_pair);
  a ← or_raise KeyError (dict_get unigram_to_index s_pair.1);
  b ← or_raise KeyError (dict_get unigram_to_index s_pair.2);
  matrix_set a b (inject_Z v) transition_matrix.

(** Lines 57-64: the matrix of pseudocounts, then the counted cells. *)
Definition transition_matrix_of (char_bigram_counts : list (char * char * Z))
  : res (list (list Q)) :=
  let n := length unigram_to_index in
  let transition_matrix := replicate n (replicate n (1 + 1)%Q) in
  for_res (fill_cell char_bigram_counts) transition_matrix
          (dict_keys char_bigram_counts).

(** Lines 67-68 in exact arithmetic: every row divided by its sum, the
    quotients unrounded.  [float64_normalize_rows] below is the same
    step in numpy's arithmetic. *)
Definition normalize_rows (transition_matrix : list (list Q)) : list (list Q) :=
  let row_sums := row_sum <$> transition_matrix in
  zip_with (λ row s, (λ x, x / s)%Q <$> row) transition_matrix row_sums.

(** The corpus file is the list of its lines. *)
Definition prepare_empirical_freq_normalized `{StrLower}
    (self : EnigmaForDummies) (corpus : list str) : res EnigmaForDummies :=
  char_bigram_counts ← for_res count_line [] corpus;
  transition_matrix ← transition_matrix_of char_bigram_counts;
  Ok {| emp_freq_prepared := true;
        alphabet := alphabet self;
        char_index_mapping := char_index_mapping self;
        empirical_frequences := Some (normalize_rows transition_matrix) |}.

(** ** Training in numpy's arithmetic *)

(** The float64 operations of numpy that lines 57-68 call: a Python
    [int] stored into a float64 array, [+] and [/] on float64, and [sum]
    along a row. *)
Class NumpyFloat := {
  float64 : Type;
  float64_of_int : Z → float64;
  float64_add : float64 → float64 → float64;
  float64_div : float64 → float64 → float64;
  float64_sum : list float64 → float64
}.

Section numpy_training.
Context `{NumpyFloat}.

(** [m[a][b] = v] on a float64 array. *)
Definition float64_matrix_set (a b : nat) (v : float64)
    (m : list (list float64)) : res (list (list float64)) :=
  row ← or_raise IndexError (m !! a);
  if decide (b < length row) then Ok (<[a := <[b := v]> row]> m)
  else Raise IndexError.

(** Lines 62-64: the cell of one counted pair overwritten. *)
Definition float64_fill_cell (char_bigram_counts : list (char * char * Z))
    (transition_matrix : list (list float64)) (s_pair : char * char)
  : res (list (list float64)) :=
  v ← or_raise KeyError (dict_get char_bigram_counts s_pair);
  a ← or_raise KeyError (dict_get unigram_to_index s_pair.1);
  b ← or_raise KeyError (dict_get unigram_to_index s_pair.2);
  float64_matrix_set a b (float64_of_int v) transition_matrix.

(** Lines 57-64: [np.ones((n, n)) + 1], then the counted cells. *)
Definition float64_transition_matrix
    (char_bigram_counts : list (char * char * Z))
  : res (list (list float64)) :=
  let n := length unigram_to_index in
  let transition_matrix :=
    replicate n (replicate n (float64_add (float64_of_int 1) (float64_of_int 1))) in
  for_res (float64_fill_cell char_bigram_counts) transition_matrix
          (dict_keys char_bigram_counts).

(** Lines 67-68: [transition_matrix / row_sums[:, np.newaxis]]. *)
Definition float64_normalize_rows (transition_matrix : list (list float64))
  : list (list float64) :=
  let row_sums := float64_sum <$> transition_matrix in
  zip_with (λ row s, (λ x, float64_div x s) <$> row) transition_matrix row_sums.

(** Lines 36-68: the matrix stored in [self.empirical_frequences]. *)
Definition float64_empirical_frequences `{StrLower} (corpus : list str)
  : res (list (list float64)) :=
  char_bigram_counts ← for_res count_line [] corpus;
  transition_matrix ← float64_transition_matrix char_bigram_counts;
  Ok (float64_normalize_rows transition_matrix).
End numpy_training.

(** ** Scoring: [score_cipher] *)

(** Lines 103-105: one term of the sum. [np.log] raises nothing; on the
    positive cells of a trained matrix it is the logarithm [ln]. *)
Definition score_term (self : EnigmaForDummies) (decrypted : str)
    (score : R) (i : nat) : res R :=
  c1 ← or_raise IndexError (decrypted !! i);
  first_symbol ← or_raise KeyError (dict_get (char_index_mapping self) c1);
  c2 ← or_raise IndexError (decrypted !! (i + 1));
  second_symbol ← or_raise KeyError (dict_get (char_index_mapping self) c2);
  m ← or_raise (AttributeError "empirical_frequences") (empirical_frequences self);
  row ← or_raise IndexError (m !! first_symbol);
  p ← or_raise IndexError (row !! second_symbol);
  Ok (score + ln (Q2R p))%R.

Definition score_cipher (self : EnigmaForDummies)
    (cipher : list (char * char)) (encrypted : str) : res R :=
  decrypted ← encrypt_or_decrypt encrypted (invert cipher);
  for_res (score_term self decrypted) 0%R (seq 0 (length decrypted - 1)).

(** ** The ambient world: generators and console *)

(** The library calls the source makes on the hidden generator of the
    [random] module and on the one of [numpy.random]; each takes the
    generator's state and returns the draw with the next state. *)
Class RandomLib := {
  py_random : Type;
  np_random : Type;
  (** [random.shuffle(x)], returning the list it leaves in [x] *)
  random_shuffle : str → py_random → str * py_random;
  (** [random.uniform(0, 1)] *)
  random_uniform01 : py_random → R * py_random;
  (** [np.random.choice(a, 2, replace=True)] on a non-empty [a] *)
  np_random_choice2 : str → np_random → (char * char) * np_random
}.

(** What the libraries document of these calls. *)
Record RandomLawful `{RandomLib} : Prop := {
  random_shuffle_perm l g : (random_shuffle l g).1 ≡ₚ l;
  random_uniform01_range g :
    (0 <= (random_uniform01 g).1 < 1)%R;
  np_random_choice2_elem l g :
    l ≠ [] →
    (np_random_choice2 l g).1.1 ∈ l ∧ (np_random_choice2 l g).1.2 ∈ l
}.
Arguments RandomLawful _ : clear implicits.

Record world `{RandomLib} : Type := mkWorld {
  py_rng : py_random;
  np_rng : np_random;
  (** what [print] wrote: the iteration and the sample, latest first *)
  console : list (nat * str)
}.

(** A computation in the world that may raise. *)
Definition M `{RandomLib} (A : Type) : Type := world → res A * world.

#[global] Instance M_ret `{RandomLib} : MRet M := λ A a w, (Ok a, w).
#[global] Instance M_bind `{RandomLib} : MBind M := λ A B f m w,
  match m w with
  | (Ok a, w') => f a w'
  | (Raise e, w') => (Raise e, w')
  end.

Section world_ops.
Context `{RandomLib}.

Definition lift {A} (r : res A) : M A := λ w, (r, w).

Definition py_assert (b : bool) (msg : string) : M unit :=
  lift (if b then Ok () else Raise (AssertionError msg)).

Definition shuffle (x : str) : M str := λ w,
  let '(x', g) := random_shuffle x (py_rng w) in
  (Ok x', {| py_rng := g; np_rng := np_rng w; console := console w |}).

Definition uniform01 : M R := λ w,
  let '(u, g) := random_uniform01 (py_rng w) in
  (Ok u, {| py_rng := g; np_rng := np_rng w; console := console w |}).

Definition choice2 (a : str) : M (char * char) := λ w,
  let '(r, g) := np_random_choice2 a (np_rng w) in
  (Ok r, {| py_rng := py_rng w; np_rng := g; console := console w |}).

Definition print (i : nat) (s : str) : M unit := λ w,
  (Ok (), {| py_rng := py_rng w; np_rng := np_rng w;
             console := (i, s) :: console w |}).

(** [for x in l: s = body x s], stopping at the first exception. *)
Fixpoint for_M {A S} (body : A → S → M S) (l : list A) (s : S) : M S :=
  match l with
  | [] => mret s
  | x :: l' => s' ← body x s; for_M body l' s'
  end.
End world_ops.

(** ** Encryption: [encrypt_text] *)

(** Lines 81-83: the cipher [encrypt_text] draws. *)
Definition random_cifer `{RandomLib} (self : EnigmaForDummies)
  : M (list (char * char)) :=
  shuffled_alphabet ← shuffle (alphabet self);
  mret (dict_of_pairs (zip (alphabet self) shuffled_alphabet)).

Definition encrypt_text `{StrLower} `{RandomLib} (self : EnigmaForDummies)
    (text : str) : M str :=
  let text_cleaned := regex_sub (lower text) in
  random_cifer ← random_cifer self;
  lift (encrypt_or_decrypt text_cleaned random_cifer).

(** ** The search: [process_decryption] *)

(** The values a caller may pass for [verbose]. *)
Inductive pyval : Type :=
  | PyNone
  | PyBool (b : bool)
  | PyInt (z : Z)
  | PyFloat (q : Q)
  | PyStr (s : str).

(** [bool(v)] *)
Definition truthy (v : pyval) : bool :=
  match v with
  | PyNone => false
  | PyBool b => b
  | PyInt z => negb (z =? 0)%Z
  | PyFloat q => negb (Qeq_bool q 0)
  | PyStr s => negb (bool_decide (s = []))
  end.

(** [type(v) is int and v > 0] *)
Definition positive_int (v : pyval) : bool :=
  match v with
  | PyInt z => (0 <? z)%Z
  | _ => false
  end.

(** [sorted] on characters *)
Fixpoint insert_sorted (c : char) (l : str) : str :=
  match l with
  | [] => [c]
  | d :: l' => if (c <=? d)%N then c :: l else d :: insert_sorted c l'
  end.

Definition sorted (l : str) : str := foldr insert_sorted [] l.

(** The variables of the loop. *)
Record chain : Type := mkChain {
  current_cifer : list (char * char);
  current_score : R;
  best_cifer : list (char * char);
  best_score : R
}.

Section search.
Context `{RandomLib}.
Variable self : EnigmaForDummies.
Variable encrypted : str.

(** Lines 130-134: the proposal and its score. *)
Definition propose (shuffled_letters : str)
    (current_cifer : list (char * char)) : M (list (char * char) * R) :=
  '(r1, r2) ← choice2 shuffled_letters;
  let new_cifer := dict_copy current_cifer in
  v2 ← lift (or_raise KeyError (dict_get current_cifer r2));
  let new_cifer := dict_set r1 v2 new_cifer in
  v1 ← lift (or_raise KeyError (dict_get current_cifer r1));
  let new_cifer := dict_set r2 v1 new_cifer in
  new_score ← lift (score_cipher self new_cifer encrypted);
  mret (new_cifer, new_score).

(** Lines 137-139: the condition of the [if], [or] evaluated lazily. *)
Definition accepts (new_score current_score : R) : M bool :=
  if Rlt_dec current_score new_score then mret true
  else
    u ← uniform01;
    mret (if Rlt_dec u (exp (new_score - current_score)) then true else false).

(** Lines 130-145. *)
Definition search_step (shuffled_letters : str) (st : chain) : M chain :=
  '(new_cifer, new_score) ← propose shuffled_letters (current_cifer st);
  accepted ← accepts new_score (current_score st);
  let st :=
    if accepted : bool then
      {| current_cifer := dict_copy new_cifer; current_score := new_score;
         best_cifer := best_cifer st; best_score := best_score st |}
    else st in
  let st :=
    if Rlt_dec (best_score st) new_score then
      {| current_cifer := current_cifer st; current_score := current_score st;
         best_cifer := dict_copy new_cifer; best_score := new_score |}
    else st in
  mret st.

(** Lines 148-158. *)
Definition report (verbose : pyval) (i : nat) (st : chain) : M unit :=
  if bool_decide (i mod 500 = 0) && truthy verbose then
    py_assert (positive_int verbose)
      "Select verbose=False or pass positive integer";;
    match verbose with
    | PyInt z =>
        if bool_decide ((Z.of_nat i mod z)%Z = 0%Z) then
          best_attempt ← lift (encrypt_or_decrypt encrypted
                                 (invert (best_cifer st)));
          print i (take 100 best_attempt)
        else mret ()
    | _ => mret ()
    end
  else mret ().

(** Lines 128-158: the body of the loop. *)
Definition loop_body (shuffled_letters : str) (verbose : pyval)
    (i : nat) (st : chain) : M chain :=
  st ← search_step shuffled_letters st;
  report verbose i st;;
  mret st.

(** Lines 161-163: the mapping rebuilt from the sorted keys. *)
Definition final_mapping (best_cifer : list (char * char))
  : res (list (char * char)) :=
  let cipher_alphabet := sorted (dict_keys best_cifer) in
  plaintext_alphabet ←
    mapM (λ k, or_raise KeyError (dict_get best_cifer k)) cipher_alphabet;
  Ok (dict_of_pairs (zip plaintext_alphabet cipher_alphabet)).

(** Lines 122-127: the state the loop starts from. *)
Definition initial_chain : M (str * chain) :=
  shuffled_letters ← shuffle (alphabet self);
  let current_cifer := dict_of_pairs (zip shuffled_letters (alphabet self)) in
  current_score ← lift (score_cipher self current_cifer encrypted);
  mret (shuffled_letters,
        {| current_cifer := current_cifer; current_score := current_score;
           best_cifer := dict_copy current_cifer;
           best_score := current_score |}).

Definition process_decryption (iters : Z) (verbose : pyval) : M str :=
  py_assert (emp_freq_prepared self) "Prepare empirical frequences first.";;
  '(shuffled_letters, st) ← initial_chain;
  st ← for_M (loop_body shuffled_letters verbose)
             (seq 0 (Z.to_nat iters)) st;
  mapping ← lift (final_mapping (best_cifer st));
  lift (encrypt_or_decrypt encrypted mapping).
End search.

(** ** The vocabulary of the specification *)

(** A canonical text holds alphabet symbols only. *)
Definition canonical (t : str) : Prop :=
  Forall (λ c, c ∈ alphabet init) t.

(** [canonicalize]: lowercase, then drop what is not in the alphabet. *)
Definition canonicalize `{StrLower} (text : str) : str :=
  regex_sub (lower text).

(** A cipher is a bijection of the alphabet: its keys and its values
    both enumerate the 27 symbols. *)
Definition is_cipher (c : list (char * char)) : Prop :=
  c.*1 ≡ₚ alphabet init ∧ c.*2 ≡ₚ alphabet init.

(** [index_of]: space is 0, ['a'..'z'] are 1..26. *)
Definition index_of (c : char) : nat :=
  if decide (c = 32%N) then 0 else N.to_nat c - 96.

(** Occurrences of the bigram [(a, b)] at consecutive places of one line. *)
Fixpoint count_adjacent (a b : char) (l : str) : Z :=
  match l with
  | [] => 0
  | x :: l' =>
      match l' with
      | [] => 0
      | y :: _ =>
          ((if bool_decide (x = a ∧ y = b) then 1 else 0)
           + count_adjacent a b l')%Z
      end
  end.

(** Occurrences of a bigram in a list of transitions. *)
Fixpoint occurrences (k : char * char) (ts : list (char * char)) : Z :=
  match ts with
  | [] => 0
  | t :: ts' => ((if bool_decide (t = k) then 1 else 0) + occurrences k ts')%Z
  end.

(** The same over the canonicalized lines of a corpus, line by line. *)
Definition bigram_count `{StrLower} (corpus : list str) (a b : char) : Z :=
  foldr (λ line n, (count_adjacent a b (canonicalize line) + n)%Z) 0%Z corpus.

(** The cell before normalization: the count when the bigram was seen,
    the pseudocount 2 when it was not. *)
Definition smoothed_count `{StrLower} (corpus : list str) (i j : nat) : Q :=
  let n := bigram_count corpus (alphabet init !!! i) (alphabet init !!! j) in
  if decide (1 ≤ n)%Z then inject_Z n else 2%Q.







Definition cell {A} (m : list (list A)) (i j : nat) : option A :=
  m !! i ≫= (.!! j).

(** An [n] by [n] matrix. *)
Definition square (n : nat) (m : list (list Q)) : Prop :=
  length m = n ∧ Forall (λ row, length row = n) m.

(** [m[i][j]], 0 outside the matrix. *)
Definition matrix_at (m : list (list Q)) (i j : nat) : Q :=
  default 0%Q (m !! i ≫= (.!! j)).

(** The matrix of the specification: every row of smoothed counts
    divided by its sum. *)
Definition bigram_model `{StrLower} (corpus : list str) : list (list Q) :=
  (λ i, let cells := smoothed_count corpus i <$> seq 0 27 in
        (λ x, x / row_sum cells)%Q <$> cells) <$> seq 0 27.

(** The engine after training on [corpus]. *)
Definition trained `{StrLower} (self : EnigmaForDummies) (corpus : list str)
  : EnigmaForDummies :=
  {| emp_freq_prepared := true;
     alphabet := alphabet self;
     char_index_mapping := char_index_mapping self;
     empirical_frequences := Some (bigram_model corpus) |}.

(** The sum, over the adjacent pairs of [d], of the logarithm of the
    matrix cell of the pair. *)
Definition log_likelihood (m : list (list Q)) (d : str) : R :=
  foldr (λ ab s, (ln (Q2R (matrix_at m (index_of ab.1) (index_of ab.2))) + s)%R)
        0%R (zip d (tail d)).

(** [apply(cipher, text)], for a text whose symbols are all keys. *)
Definition apply (cipher : list (char * char)) (text : str) : str :=
  (λ s, default s (dict_get cipher s)) <$> text.

(** [swap(cipher, a, b)]: the images of [a] and [b] exchanged. *)
Definition swap (cipher : list (char * char)) (a b : char)
  : list (char * char) :=
  (λ kv, if decide (kv.1 = a) then (kv.1, default kv.2 (dict_get cipher b))
         else if decide (kv.1 = b) then (kv.1, default kv.2 (dict_get cipher a))
         else kv) <$> cipher.

(** What every state of a run satisfies: both ciphers are bijections,
    both scores are the scores of their ciphers, and the best score is
    not below the current one. *)
Definition chain_inv (self : EnigmaForDummies) (encrypted : str)
    (st : chain) : Prop :=
  is_cipher (current_cifer st) ∧ is_cipher (best_cifer st)
  ∧ score_cipher self (current_cifer st) encrypted = Ok (current_score st)
  ∧ score_cipher self (best_cifer st) encrypted = Ok (best_score st)
  ∧ (current_score st <= best_score st)%R.

(** The first [n] iterations of the loop. *)
Definition run_loop `{RandomLib} (self : EnigmaForDummies) (encrypted : str)
    (shuffled_letters : str) (verbose : pyval) (n : nat) : chain → M chain :=
  for_M (loop_body self encrypted shuffled_letters verbose) (seq 0 n).

(** Two worlds whose generators are in the same states. *)
Definition same_generators `{RandomLib} (w1 w2 : world) : Prop :=
  py_rng w1 = py_rng w2 ∧ np_rng w1 = np_rng w2.

(** A computation whose result and whose effect on the generators depend
    on the world through the generators only. *)
Definition generator_determined `{RandomLib} {A} (m : M A) : Prop :=
  ∀ w1 w2, same_generators w1 w2 →
    (m w1).1 = (m w2).1 ∧ same_generators (m w1).2 (m w2).2.

(** An acceptable [verbose]: reporting off, or a positive integer. *)
Definition valid_verbose (verbose : pyval) : Prop :=
  truthy verbose = false ∨ positive_int verbose = true.

(** ** Instances to run the definitions on *)

(** Lowering of the ASCII capitals, every other code point kept. *)
#[local] Instance ascii_lower : StrLower :=
  fmap (λ c : N, if ((65 <=? c) && (c <=? 90))%N then (c + 32)%N else c).

(** Generators whose state is a counter: the shuffle rotates by it, the
    uniform draw is [g / (g + 1)], the choice reads it in base [length a]. *)
Definition counter_random : RandomLib :=
  {| py_random := nat;
     np_random := nat;
     random_shuffle := λ l g, (rotate g l, S g);
     random_uniform01 := λ g, ((INR g / INR (S g))%R, S g);
     np_random_choice2 := λ l g,
       ((l !!! (g mod length l), l !!! ((g / length l) mod length l)), S g) |}.


(** IEEE binary64, round to nearest even. *)
Definition binary64_add := SpecFloat.SFadd 53 1024.

(** numpy's pairwise summation of a contiguous run of float64: fewer than
    8 cells are added from left to right; up to 128 cells go through 8
    running sums that are combined as a tree, the cells past the last
    full block of 8 added at the end; a longer run is halved. *)
Fixpoint pairwise_sum (fuel : nat) (a : list SpecFloat.spec_float)
  : SpecFloat.spec_float :=
  match fuel with
  | 0 => SpecFloat.S754_zero true
  | S fuel =>
      let n := length a in
      if decide (n < 8) then foldl binary64_add (SpecFloat.S754_zero true) a
      else if decide (n ≤ 128) then
        let blocks := n - n mod 8 in
        let r := foldl (λ r i, zip_with binary64_add r (take 8 (drop i a)))
                       (take 8 a) ((λ k, 8 * k) <$> seq 1 (blocks / 8 - 1)) in
        let res :=
          match r with
          | [r0; r1; r2; r3; r4; r5; r6; r7] =>
              binary64_add
                (binary64_add (binary64_add r0 r1) (binary64_add r2 r3))
                (binary64_add (binary64_add r4 r5) (binary64_add r6 r7))
          | _ => SpecFloat.S754_zero true
          end in
        foldl binary64_add res (drop blocks a)
      else
        let n2 := n / 2 in
        let n2 := n2 - n2 mod 8 in
        binary64_add (pairwise_sum fuel (take n2 a))
                     (pairwise_sum fuel (drop n2 a))
  end.

(** A Python [int] becomes the nearest binary64 (past the range of
    float64, which no count of a corpus reaches, Python refuses the
    conversion; here it is an infinity); the sum of a row starts from the
    identity 0 of [np.add]. *)
Definition binary64 : NumpyFloat :=
  {| float64 := SpecFloat.spec_float;
     float64_of_int := λ z, SpecFloat.binary_normalize 53 1024 z 0 false;
     float64_add := binary64_add;
     float64_div := SpecFloat.SFdiv 53 1024;
     float64_sum := λ a,
       binary64_add (SpecFloat.S754_zero false) (pairwise_sum (length a) a) |}.


(** ** The demo: the [__main__] block *)

(** Lines 171-185, for a corpus file given as its lines and a plain text:
    the two texts the block prints, [encrypted[:500]] and
    [decrypted[:500]], returned instead of printed. *)
Definition main `{StrLower} `{RandomLib} (corpus : list str)
    (plain_text : str) : M (str * str) :=
  enigma ← lift (prepare_empirical_freq_normalized init corpus);
  encrypted ← encrypt_text enigma plain_text;
  decrypted ← process_decryption enigma encrypted 5000 (PyInt 500);
  mret (take 500 encrypted, take 500 decrypted).

(** ** More vocabulary *)

(** The iterations at which a run with an acceptable [verbose] prints. *)
Definition reports (verbose : pyval) (i : nat) : bool :=
  bool_decide (i mod 500 = 0)
  && match verbose with
     | PyInt z => (0 <? z)%Z && bool_decide ((Z.of_nat i mod z)%Z = 0%Z)
     | _ => false
     end.

(** The state of the numpy generator after [n] calls of
    [np.random.choice(a, 2, replace=True)]. *)
Definition np_after `{RandomLib} (a : str) (n : nat) (g : np_random)
  : np_random :=
  Nat.iter n (λ g, (np_random_choice2 a g).2) g.

(** * Properties *)

(** ** Dictionaries *)

Section pydict_facts.
Context {K V : Type} `{EqDecision K}.
Implicit Types (d l : list (K * V)) (k : K) (v : V).

Lemma dict_get_set_eq d k v : dict_get (dict_set k v d) k = Some v.
Proof.
  induction d as [|[k' v'] d IH]; simpl.
  - by rewrite decide_True.
  - destruct (decide (k' = k)) as [->|Hne]; simpl.
    + by rewrite decide_True.
    + by rewrite decide_False.
Qed.

Lemma dict_get_set_ne d k k' v :
  k ≠ k' → dict_get (dict_set k v d) k' = dict_get d k'.
Proof.
  intros Hne. induction d as [|[k0 v0] d IH]; simpl.
  - by rewrite decide_False.
  - destruct (decide (k0 = k)) as [->|Hne0]; simpl.
    + by rewrite !decide_False.
    + by rewrite IH.
Qed.

Lemma dict_get_Some_elem d k v : dict_get d k = Some v → (k, v) ∈ d.
Proof.
  induction d as [|[k' v'] d IH]; simpl; [done|].
  destruct (decide (k' = k)) as [->|Hne].
  - intros ?; simplify_eq. left.
  - intros Hd. right. by apply IH.
Qed.

Lemma dict_get_None d k : dict_get d k = None ↔ k ∉ d.*1.
Proof.
  induction d as [|[k' v'] d IH]; simpl.
  - split; [intros _; apply not_elem_of_nil | done].
  - rewrite not_elem_of_cons. destruct (decide (k' = k)) as [->|Hne].
    + split; [done | intros [? _]; done].
    + rewrite IH. intuition congruence.
Qed.

Lemma dict_get_is_Some d k : is_Some (dict_get d k) ↔ k ∈ d.*1.
Proof.
  rewrite <-not_eq_None_Some, dict_get_None.
  split; [apply dec_stable | tauto].
Qed.

Lemma elem_dict_get d k v : NoDup d.*1 → (k, v) ∈ d → dict_get d k = Some v.
Proof.
  induction d as [|[k' v'] d IH]; simpl; [by intros _ ?%elem_of_nil|].
  intros [Hk' Hnd]%NoDup_cons [Heq|Hin]%elem_of_cons.
  - injection Heq as -> ->. by rewrite decide_True.
  - rewrite decide_False; [by apply IH|].
    intros ->. apply Hk'. apply list_elem_of_fmap. by exists (k, v).
Qed.

Lemma dict_set_fresh d k v : k ∉ d.*1 → dict_set k v d = d ++ [(k, v)].
Proof.
  induction d as [|[k' v'] d IH]; simpl; [done|].
  intros [Hne Hnin]%not_elem_of_cons.
  rewrite decide_False by done. by rewrite IH.
Qed.

Lemma dict_set_keys_in d k v : k ∈ d.*1 → (dict_set k v d).*1 = d.*1.
Proof.
  induction d as [|[k' v'] d IH]; simpl; [by intros ?%elem_of_nil|].
  destruct (decide (k' = k)) as [->|Hne]; [done|].
  intros [?|Hin]%elem_of_cons; [done|]. csimpl. by rewrite IH.
Qed.

Lemma dict_set_keys_NoDup d k v : NoDup d.*1 → NoDup (dict_set k v d).*1.
Proof.
  intros Hnd. destruct (decide (k ∈ d.*1)) as [Hin|Hnin].
  - by rewrite dict_set_keys_in.
  - rewrite dict_set_fresh, fmap_app by done. simpl.
    apply NoDup_app. split_and!; [done| |apply NoDup_singleton].
    intros x Hx ->%list_elem_of_singleton. done.
Qed.

Lemma dict_set_same d k v : dict_get d k = Some v → dict_set k v d = d.
Proof.
  induction d as [|[k' v'] d IH]; simpl; [done|].
  destruct (decide (k' = k)) as [->|Hne].
  - by intros [= ->].
  - intros Hd. by rewrite IH.
Qed.

Lemma foldl_dict_set_fresh d l :
  NoDup (d.*1 ++ l.*1) →
  foldl (λ d kv, dict_set kv.1 kv.2 d) d l = d ++ l.
Proof.
  revert d. induction l as [|[k v] l IH]; intros d Hnd; simpl.
  - by rewrite app_nil_r.
  - simpl in Hnd. rewrite dict_set_fresh.
    + rewrite IH; [by rewrite <-app_assoc|].
      rewrite fmap_app. simpl. by rewrite <-app_assoc.
    + apply NoDup_app in Hnd as (_ & Hd & _). intros Hin.
      apply (Hd k Hin). left.
Qed.

Lemma dict_of_pairs_NoDup l : NoDup l.*1 → dict_of_pairs l = l.
Proof. intros Hnd. unfold dict_of_pairs. by rewrite foldl_dict_set_fresh. Qed.
End pydict_facts.

(** ** The error monad *)

Lemma mapM_res_Ok {A B} (f : A → res B) (g : A → B) (l : list A) :
  Forall (λ x, f x = Ok (g x)) l → mapM f l = Ok (g <$> l).
Proof.
  induction 1 as [|x l Hx _ IH]; [done|].
  simpl. rewrite Hx. simpl. by rewrite IH.
Qed.

Lemma Ok_inj {A} (a a' : A) : Ok a = Ok a' → a = a'.
Proof. intros Heq. by injection Heq. Qed.

Lemma Ok_pair_inj {A B} (a a' : A) (w w' : B) :
  (Ok a, w) = (Ok a', w') → a = a' ∧ w = w'.
Proof. intros Heq. by injection Heq. Qed.

(** ** Alphabet and ciphers *)

Lemma alphabet_init_eq :
  alphabet init = 32%N :: (N.of_nat <$> seq 97 26).
Proof. reflexivity. Qed.

Lemma alphabet_NoDup : NoDup (alphabet init).
Proof. apply (bool_decide_unpack _). by vm_compute. Qed.

Lemma alphabet_length : length (alphabet init) = 27.
Proof. reflexivity. Qed.

Lemma is_cipher_keys_NoDup c : is_cipher c → NoDup c.*1.
Proof. intros [-> _]. apply alphabet_NoDup. Qed.

Lemma is_cipher_values_NoDup c : is_cipher c → NoDup c.*2.
Proof. intros [_ ->]. apply alphabet_NoDup. Qed.

Lemma invert_fmap c :
  NoDup c.*2 → invert c = (λ kv, (kv.2, kv.1)) <$> c.
Proof.
  intros Hnd. unfold invert. apply dict_of_pairs_NoDup.
  by rewrite <-list_fmap_compose.
Qed.

Lemma is_cipher_invert c : is_cipher c → is_cipher (invert c).
Proof.
  intros Hc. rewrite invert_fmap by by apply is_cipher_values_NoDup.
  destruct Hc as [Hk Hv]. split; by rewrite <-list_fmap_compose.
Qed.

Lemma invert_get c k v :
  is_cipher c → dict_get c k = Some v → dict_get (invert c) v = Some k.
Proof.
  intros Hc Hget. apply elem_dict_get.
  - by apply is_cipher_keys_NoDup, is_cipher_invert.
  - rewrite invert_fmap by by apply is_cipher_values_NoDup.
    apply list_elem_of_fmap. exists (k, v). split; [done|].
    by apply dict_get_Some_elem.
Qed.

Lemma cipher_get c s :
  is_cipher c → s ∈ alphabet init →
  ∃ v, dict_get c s = Some v ∧ v ∈ alphabet init.
Proof.
  intros [Hk Hv] Hs.
  destruct (proj2 (dict_get_is_Some c s)) as [v Hget]; [by rewrite Hk|].
  exists v. split; [done|]. rewrite <-Hv.
  apply list_elem_of_fmap. exists (s, v). split; [done|].
  by apply dict_get_Some_elem.
Qed.

Lemma apply_canonical c t : is_cipher c → canonical t → canonical (apply c t).
Proof.
  intros Hc Ht. unfold canonical, apply. rewrite Forall_fmap.
  eapply Forall_impl; [exact Ht|]. intros s Hs. simpl.
  destruct (cipher_get c s Hc Hs) as (v & -> & Hv). done.
Qed.

Lemma encrypt_or_decrypt_apply c t :
  is_cipher c → canonical t → encrypt_or_decrypt t c = Ok (apply c t).
Proof.
  intros Hc Ht. apply mapM_res_Ok.
  eapply Forall_impl; [exact Ht|]. intros s Hs. simpl.
  by destruct (cipher_get c s Hc Hs) as (v & -> & _).
Qed.

Lemma apply_invert_apply c t :
  is_cipher c → canonical t → apply (invert c) (apply c t) = t.
Proof.
  intros Hc Ht. unfold apply. rewrite <-list_fmap_compose.
  rewrite <-(list_fmap_id t) at 2. apply Forall_fmap_ext_1.
  eapply Forall_impl; [exact Ht|]. intros s Hs. simpl.
  destruct (cipher_get c s Hc Hs) as (v & Hget & _). rewrite Hget. simpl.
  by rewrite (invert_get c s v).
Qed.

Lemma elem_of_alphabet (c : char) :
  c ∈ alphabet init ↔ (97 ≤ c ≤ 122)%N ∨ c = 32%N.
Proof.
  rewrite alphabet_init_eq, elem_of_cons, list_elem_of_fmap.
  split.
  - intros [->|(n & -> & Hn%elem_of_seq)]; [by right|left; lia].
  - intros [Hc| ->]; [right|by left].
    exists (N.to_nat c). rewrite elem_of_seq. lia.
Qed.

Lemma regex_pattern_alphabet (c : char) :
  regex_pattern c = false ↔ c ∈ alphabet init.
Proof.
  rewrite elem_of_alphabet. unfold regex_pattern.
  rewrite negb_false_iff, orb_true_iff, andb_true_iff.
  by rewrite !N.leb_le, N.eqb_eq.
Qed.

Lemma regex_sub_canonical (s : str) : canonical (regex_sub s).
Proof.
  unfold canonical, regex_sub. apply Forall_forall.
  intros c [_ Hc]%list_elem_of_In%List.filter_In.
  by apply regex_pattern_alphabet, negb_true_iff.
Qed.

Lemma canonicalize_canonical `{StrLower} (text : str) :
  canonical (canonicalize text).
Proof. apply regex_sub_canonical. Qed.

(** ** Training *)

(** The transitions of a line are its consecutive pairs. *)
Lemma slice_repeat2_cons {A} (x y : A) (l : list A) :
  slice_1_m1 (np_repeat2 (x :: y :: l))
  = x :: y :: slice_1_m1 (np_repeat2 (y :: l)).
Proof.
  unfold slice_1_m1, np_repeat2. csimpl.
  generalize (l ≫= λ z : A, [z; z]). intros r.
  replace (S (S (S (S (length r))) - 2)) with (S (S (length r))) by lia.
  simpl. by rewrite Nat.sub_0_r.
Qed.

Lemma transitions_zip {A} (l : list A) :
  reshape_m1_2 (slice_1_m1 (np_repeat2 l)) = Ok (zip l (tail l)).
Proof.
  destruct l as [|x l]; [done|].
  revert x. induction l as [|y l IH]; intros x; [done|].
  rewrite slice_repeat2_cons.
  change (reshape_m1_2 (x :: y :: ?r)) with (((x, y) ::.) <$> reshape_m1_2 r).
  by rewrite IH.
Qed.

Lemma occurrences_nonneg k ts : (0 ≤ occurrences k ts)%Z.
Proof. induction ts; simpl; [done|]. case_bool_decide; lia. Qed.

Lemma count_adjacent_occurrences a b l :
  count_adjacent a b l = occurrences (a, b) (zip l (tail l)).
Proof.
  induction l as [|x [|y l] IH]; [done..|].
  change (count_adjacent a b (x :: y :: l))
    with ((if bool_decide (x = a ∧ y = b) then 1 else 0)
          + count_adjacent a b (y :: l))%Z.
  rewrite IH. simpl. f_equal.
  repeat case_bool_decide; simplify_eq; intuition congruence.
Qed.

Lemma count_adjacent_nonneg a b l : (0 ≤ count_adjacent a b l)%Z.
Proof. rewrite count_adjacent_occurrences. apply occurrences_nonneg. Qed.

Lemma bigram_count_nonneg `{StrLower} corpus a b :
  (0 ≤ bigram_count corpus a b)%Z.
Proof.
  induction corpus as [|line corpus IH]; simpl; [done|].
  pose proof (count_adjacent_nonneg a b (canonicalize line)). lia.
Qed.

Lemma count_transition_get d ij k :
  dict_get (count_transition d ij) k
  = if decide (ij = k) then Some (default 0 (dict_get d k) + 1)%Z
    else dict_get d k.
Proof.
  unfold count_transition, dict_setdefault.
  destruct (dict_get d ij) as [v|] eqn:Hij; destruct (decide (ij = k)) as [->|Hne].
  - by rewrite dict_get_set_eq, Hij.
  - by rewrite dict_get_set_ne.
  - by rewrite dict_get_set_eq, Hij.
  - by rewrite !dict_get_set_ne.
Qed.

Lemma foldl_count_transition_get ts d k :
  dict_get (foldl count_transition d ts) k
  = if decide (occurrences k ts = 0)%Z then dict_get d k
    else Some (default 0 (dict_get d k) + occurrences k ts)%Z.
Proof.
  revert d. induction ts as [|t ts IH]; intros d; simpl; [done|].
  rewrite IH, count_transition_get.
  pose proof (occurrences_nonneg k ts).
  case_bool_decide; repeat case_decide; simplify_eq; try lia; try done.
  all: simpl; f_equal; lia.
Qed.

Lemma count_line_get `{StrLower} d line :
  ∃ d', count_line d line = Ok d' ∧
    ∀ a b, dict_get d' (a, b)
      = if decide (count_adjacent a b (canonicalize line) = 0)%Z
        then dict_get d (a, b)
        else Some (default 0 (dict_get d (a, b))
                   + count_adjacent a b (canonicalize line))%Z.
Proof.
  unfold count_line. rewrite transitions_zip. simpl.
  eexists; split; [done|]. intros a b.
  by rewrite foldl_count_transition_get, count_adjacent_occurrences.
Qed.

Lemma count_corpus_get `{StrLower} corpus d :
  ∃ d', for_res count_line d corpus = Ok d' ∧
    ∀ a b, dict_get d' (a, b)
      = if decide (bigram_count corpus a b = 0)%Z then dict_get d (a, b)
        else Some (default 0 (dict_get d (a, b)) + bigram_count corpus a b)%Z.
Proof.
  revert d. induction corpus as [|line corpus IH]; intros d.
  - exists d. by split.
  - destruct (count_line_get d line) as (d1 & Hd1 & Hget1).
    destruct (IH d1) as (d' & Hd' & Hget').
    exists d'. split; [simpl; by rewrite Hd1|].
    intros a b. rewrite Hget', Hget1. simpl.
    pose proof (count_adjacent_nonneg a b (canonicalize line)).
    pose proof (bigram_count_nonneg corpus a b).
    repeat case_decide; try lia; try done.
    all: simpl; f_equal; lia.
Qed.

Lemma count_adjacent_pos_elem a b l :
  (1 ≤ count_adjacent a b l)%Z → a ∈ l ∧ b ∈ l.
Proof.
  induction l as [|x [|y l] IH]; [simpl; lia..|].
  change (count_adjacent a b (x :: y :: l))
    with ((if bool_decide (x = a ∧ y = b) then 1 else 0)
          + count_adjacent a b (y :: l))%Z.
  case_bool_decide as Hxy.
  - destruct Hxy as [-> ->]. intros _. split; [left|right; left].
  - intros Hc. destruct IH as [Ha Hb]; [lia|]. split; by right.
Qed.

Lemma bigram_count_pos_alphabet `{StrLower} corpus a b :
  (1 ≤ bigram_count corpus a b)%Z → a ∈ alphabet init ∧ b ∈ alphabet init.
Proof.
  induction corpus as [|line corpus IH]; simpl; [lia|].
  intros Hc.
  destruct (decide (1 ≤ count_adjacent a b (canonicalize line))%Z) as [Hl|Hl].
  - apply count_adjacent_pos_elem in Hl as [Ha Hb].
    pose proof (canonicalize_canonical line) as Hcan.
    unfold canonical in Hcan. rewrite Forall_forall in Hcan.
    split; by apply Hcan.
  - apply IH. pose proof (count_adjacent_nonneg a b (canonicalize line)). lia.
Qed.

(** The letters encoder agrees with [index_of] and stays inside the matrix. *)
Lemma unigram_to_index_get c :
  c ∈ alphabet init →
  dict_get unigram_to_index c = Some (index_of c) ∧ index_of c < 27.
Proof.
  revert c. apply Forall_forall, (bool_decide_unpack _). by vm_compute.
Qed.

Lemma char_index_mapping_get c :
  c ∈ alphabet init →
  dict_get (char_index_mapping init) c = Some (index_of c) ∧ index_of c < 27.
Proof. apply unigram_to_index_get. Qed.

Lemma index_of_alphabet i :
  i < 27 → alphabet init !! i = Some (alphabet init !!! i)
           ∧ index_of (alphabet init !!! i) = i.
Proof.
  intros Hi. assert (i ∈ seq 0 27) as Hin by (apply elem_of_seq; lia).
  clear Hi. revert i Hin. apply Forall_forall, (bool_decide_unpack _).
  by vm_compute.
Qed.

Lemma alphabet_index_of c :
  c ∈ alphabet init → alphabet init !!! index_of c = c.
Proof.
  revert c. apply Forall_forall, (bool_decide_unpack _). by vm_compute.
Qed.

Lemma alphabet_lookup_elem i : i < 27 → alphabet init !!! i ∈ alphabet init.
Proof.
  intros Hi. apply list_elem_of_lookup. exists i.
  by apply index_of_alphabet.
Qed.

(** Cells and shape under [matrix_set]. *)
Lemma square_lookup n m i :
  square n m → i < n → ∃ row, m !! i = Some row ∧ length row = n.
Proof.
  intros [Hlen Hrows] Hi.
  destruct (lookup_lt_is_Some_2 m i) as [row Hrow]; [lia|].
  exists row. split; [done|].
  rewrite Forall_forall in Hrows. apply Hrows.
  apply list_elem_of_lookup. by exists i.
Qed.

Lemma matrix_set_square n m a b v :
  square n m → a < n → b < n →
  ∃ m', matrix_set a b v m = Ok m' ∧ square n m' ∧
    ∀ i j, matrix_at m' i j
           = if decide (i = a ∧ j = b) then v else matrix_at m i j.
Proof.
  intros Hsq Ha Hb. destruct (square_lookup n m a Hsq Ha) as (row & Hrow & Hlen).
  unfold matrix_set. rewrite Hrow. simpl. rewrite decide_True by lia.
  eexists. split; [done|]. destruct Hsq as [Hm Hrows]. split.
  - split; [by rewrite length_insert|].
    apply Forall_insert; [done|]. by rewrite length_insert.
  - intros i j. unfold matrix_at.
    destruct (decide (i = a)) as [->|Hia].
    + rewrite list_lookup_insert_eq by lia. rewrite Hrow. simpl.
      destruct (decide (j = b)) as [->|Hjb].
      * rewrite list_lookup_insert_eq by lia. by rewrite decide_True.
      * rewrite list_lookup_insert_ne by done. by rewrite decide_False by tauto.
    + rewrite list_lookup_insert_ne by done. by rewrite decide_False by tauto.
Qed.

Lemma replicate_square n (q : Q) : square n (replicate n (replicate n q)).
Proof.
  split; [by rewrite length_replicate|].
  apply Forall_forall. intros row ->%elem_of_replicate_inv.
  by rewrite length_replicate.
Qed.

Lemma matrix_at_replicate n (q : Q) i j :
  i < n → j < n → matrix_at (replicate n (replicate n q)) i j = q.
Proof.
  intros Hi Hj. unfold matrix_at.
  rewrite lookup_replicate_2 by done. simpl.
  by rewrite lookup_replicate_2.
Qed.

Lemma fill_cell_counted counts m a b v :
  dict_get counts (a, b) = Some v → a ∈ alphabet init → b ∈ alphabet init →
  fill_cell counts m (a, b)
  = matrix_set (index_of a) (index_of b) (inject_Z v) m.
Proof.
  intros Hv Ha Hb. unfold fill_cell. cbn [fst snd].
  rewrite Hv, (proj1 (unigram_to_index_get a Ha)),
    (proj1 (unigram_to_index_get b Hb)).
  done.
Qed.

(** The loop of lines 61-64 over any list of counted alphabet pairs. *)
Lemma fill_cells_spec counts ks m0 :
  square 27 m0 →
  Forall (λ k, k.1 ∈ alphabet init ∧ k.2 ∈ alphabet init
               ∧ is_Some (dict_get counts k)) ks →
  ∃ m, for_res (fill_cell counts) m0 ks = Ok m ∧ square 27 m ∧
    ∀ i j, i < 27 → j < 27 →
      matrix_at m i j
      = if decide ((alphabet init !!! i, alphabet init !!! j) ∈ ks)
        then inject_Z (default 0%Z
               (dict_get counts (alphabet init !!! i, alphabet init !!! j)))
        else matrix_at m0 i j.
Proof.
  intros Hsq Hks. revert m0 Hsq.
  induction Hks as [|[a b] ks (Ha & Hb & [v Hv]) _ IH]; intros m0 Hsq.
  - exists m0. split_and!; [done..|]. intros i j _ _.
    rewrite decide_False; [done|]. apply not_elem_of_nil.
  - cbn [fst snd] in Ha, Hb.
    destruct (unigram_to_index_get a Ha) as [Hia Hla].
    destruct (unigram_to_index_get b Hb) as [Hib Hlb].
    destruct (matrix_set_square 27 m0 (index_of a) (index_of b) (inject_Z v)
                Hsq Hla Hlb) as (m1 & Hm1 & Hsq1 & Hat1).
    destruct (IH m1 Hsq1) as (m & Hm & Hsqm & Hat).
    exists m. split_and!; [|done|].
    + change (for_res ?f m0 ((a, b) :: ks))
        with (f m0 (a, b) ≫= λ s', for_res f s' ks).
      rewrite (fill_cell_counted counts m0 a b v), Hm1 by done. done.
    + intros i j Hi Hj. rewrite Hat, Hat1 by done.
      destruct (index_of_alphabet i Hi) as [_ Hii].
      destruct (index_of_alphabet j Hj) as [_ Hjj].
      set (ai := alphabet init !!! i) in *. set (aj := alphabet init !!! j) in *.
      destruct (decide ((ai, aj) ∈ ks)) as [Hin|Hnin].
      * rewrite decide_True; [done|]. by right.
      * destruct (decide (i = index_of a ∧ j = index_of b)) as [[-> ->]|Hne].
        -- subst ai aj. rewrite !alphabet_index_of by done.
           rewrite decide_True by left. by rewrite Hv.
        -- rewrite decide_False; [done|].
           intros [Heq|?]%elem_of_cons; [|done]. apply Hne.
           injection Heq as <- <-. by rewrite Hii, Hjj.
Qed.

Lemma trained_counts_matrix `{StrLower} corpus :
  ∃ counts m,
    for_res count_line [] corpus = Ok counts ∧
    transition_matrix_of counts = Ok m ∧ square 27 m ∧
    ∀ i j, i < 27 → j < 27 → matrix_at m i j = smoothed_count corpus i j.
Proof.
  destruct (count_corpus_get corpus []) as (counts & Hcounts & Hget).
  assert (∀ a b, is_Some (dict_get counts (a, b))
                 ↔ (1 ≤ bigram_count corpus a b)%Z) as Hsome.
  { intros a b. rewrite Hget. pose proof (bigram_count_nonneg corpus a b).
    case_decide; simpl; [|split; [lia|by eexists]].
    split; [by intros [? ?]|lia]. }
  destruct (fill_cells_spec counts (dict_keys counts)
              (replicate 27 (replicate 27 (1 + 1)%Q))) as (m & Hm & Hsq & Hat).
  { apply replicate_square. }
  { apply Forall_forall. intros [a b] Hk.
    apply dict_get_is_Some in Hk. split_and!; [..|done].
    all: by apply Hsome, bigram_count_pos_alphabet in Hk as [? ?]. }
  exists counts, m. split_and!; [done..|].
  intros i j Hi Hj. rewrite Hat, matrix_at_replicate by done.
  unfold smoothed_count, dict_keys.
  set (a := alphabet init !!! i). set (b := alphabet init !!! j).
  destruct (decide (1 ≤ bigram_count corpus a b)%Z) as [Hc|Hc].
  - rewrite decide_True by by apply dict_get_is_Some, Hsome.
    rewrite Hget, decide_False by lia. done.
  - rewrite decide_False; [done|].
    by rewrite <-dict_get_is_Some, Hsome.
Qed.

Lemma square_rows n m (f : nat → nat → Q) :
  square n m →
  (∀ i j, i < n → j < n → matrix_at m i j = f i j) →
  ∀ i, i < n → m !! i = Some (f i <$> seq 0 n).
Proof.
  intros Hsq Hat i Hi.
  destruct (square_lookup n m i Hsq Hi) as (row & Hrow & Hlen).
  rewrite Hrow. f_equal. apply list_eq. intros j.
  destruct (decide (j < n)) as [Hj|Hj].
  - rewrite list_lookup_fmap, lookup_seq_lt by done. simpl.
    specialize (Hat i j Hi Hj). unfold matrix_at in Hat.
    rewrite Hrow in Hat. simpl in Hat.
    destruct (lookup_lt_is_Some_2 row j) as [x Hx]; [lia|].
    rewrite Hx in Hat |- *. simpl in Hat. by rewrite Hat.
  - rewrite !lookup_ge_None_2; [done|rewrite length_fmap, length_seq; lia|lia].
Qed.

Lemma normalize_rows_lookup m i row :
  m !! i = Some row →
  normalize_rows m !! i = Some ((λ x, x / row_sum row)%Q <$> row).
Proof.
  intros Hrow. unfold normalize_rows.
  rewrite lookup_zip_with, Hrow, list_lookup_fmap, Hrow. done.
Qed.

Lemma normalize_rows_square n m : square n m → square n (normalize_rows m).
Proof.
  intros [Hlen Hrows]. unfold normalize_rows. split.
  - by rewrite length_zip_with, length_fmap, Hlen, Nat.min_id.
  - apply Forall_forall. intros r (i & Hi)%list_elem_of_lookup.
    destruct (lookup_lt_is_Some_2 m i) as [row Hrow].
    { apply lookup_lt_Some in Hi.
      rewrite length_zip_with, length_fmap in Hi. lia. }
    fold (normalize_rows m) in Hi.
    rewrite (normalize_rows_lookup m i row Hrow) in Hi.
    injection Hi as <-. rewrite length_fmap.
    rewrite Forall_forall in Hrows. apply Hrows.
    apply list_elem_of_lookup. by exists i.
Qed.

Lemma row_sum_div row s :
  (row_sum ((λ x, x / s) <$> row) == row_sum row / s)%Q.
Proof.
  induction row as [|x row IH]; csimpl.
  - unfold Qdiv. ring.
  - rewrite IH. unfold Qdiv. ring.
Qed.

Lemma row_sum_ge row :
  Forall (λ x, 1 <= x)%Q row →
  (inject_Z (Z.of_nat (length row)) <= row_sum row)%Q.
Proof.
  induction 1 as [|x row Hx _ IH]; [apply Qle_refl|].
  rewrite length_cons, Nat2Z.inj_succ. unfold Z.succ. rewrite inject_Z_plus.
  change (row_sum (x :: row)) with (x + row_sum row)%Q.
  rewrite Qplus_comm. by apply Qplus_le_compat.
Qed.

Lemma smoothed_count_ge_1 `{StrLower} corpus i j :
  (1 <= smoothed_count corpus i j)%Q.
Proof.
  unfold smoothed_count. case_decide as Hc; [|done].
  change 1%Q with (inject_Z 1). by rewrite <-Zle_Qle.
Qed.

Lemma smoothed_row_sum_pos `{StrLower} corpus i :
  (0 < row_sum (smoothed_count corpus i <$> seq 0 27))%Q.
Proof.
  eapply Qlt_le_trans; [|apply row_sum_ge].
  - by rewrite length_fmap, length_seq.
  - apply Forall_fmap, Forall_forall. intros j _. apply smoothed_count_ge_1.
Qed.

(** Training computes the matrix of the specification. *)
Lemma prepare_trained `{StrLower} self corpus :
  prepare_empirical_freq_normalized self corpus = Ok (trained self corpus).
Proof.
  destruct (trained_counts_matrix corpus) as (counts & m & Hc & Hm & Hsq & Hat).
  unfold prepare_empirical_freq_normalized. rewrite Hc. simpl. rewrite Hm. simpl.
  unfold trained. do 2 f_equal. f_equal.
  pose proof (square_rows 27 m (smoothed_count corpus) Hsq Hat) as Hrows.
  apply list_eq. intros i. destruct (decide (i < 27)) as [Hi|Hi].
  - rewrite (normalize_rows_lookup m i _ (Hrows i Hi)).
    unfold bigram_model. by rewrite list_lookup_fmap, lookup_seq_lt by done.
  - rewrite !lookup_ge_None_2; [done| |].
    + unfold bigram_model. rewrite length_fmap, length_seq. lia.
    + destruct (normalize_rows_square 27 m Hsq) as [-> _]. lia.
Qed.

Lemma bigram_model_square `{StrLower} corpus : square 27 (bigram_model corpus).
Proof.
  unfold bigram_model. split; [by rewrite length_fmap, length_seq|].
  apply Forall_fmap, Forall_forall. intros i _. cbv beta zeta.
  unfold compose. by rewrite !length_fmap, length_seq.
Qed.

Lemma bigram_model_at `{StrLower} corpus i j :
  i < 27 → j < 27 →
  matrix_at (bigram_model corpus) i j
  = (smoothed_count corpus i j
     / row_sum (smoothed_count corpus i <$> seq 0 27))%Q.
Proof.
  intros Hi Hj.
  assert (bigram_model corpus !! i
          = Some ((λ x, x / row_sum (smoothed_count corpus i <$> seq 0 27))%Q
                  <$> (smoothed_count corpus i <$> seq 0 27))) as Hrow.
  { unfold bigram_model. by rewrite list_lookup_fmap, lookup_seq_lt by done. }
  unfold matrix_at. rewrite Hrow. cbn [mbind option_bind].
  by rewrite !list_lookup_fmap, lookup_seq_lt by done.
Qed.

Lemma bigram_model_pos `{StrLower} corpus i j :
  i < 27 → j < 27 → (0 < matrix_at (bigram_model corpus) i j)%Q.
Proof.
  intros Hi Hj. rewrite bigram_model_at by done.
  apply Qlt_shift_div_l; [apply smoothed_row_sum_pos|].
  rewrite Qmult_0_l. eapply Qlt_le_trans; [|apply smoothed_count_ge_1]. done.
Qed.

Lemma bigram_model_row_sum `{StrLower} corpus row :
  row ∈ bigram_model corpus → (row_sum row == 1)%Q.
Proof.
  unfold bigram_model. intros (i & -> & _)%list_elem_of_fmap. cbv zeta.
  rewrite row_sum_div. apply Qmult_inv_r.
  intros Heq. pose proof (smoothed_row_sum_pos corpus i) as Hpos.
  rewrite Heq in Hpos. by apply Qlt_irrefl in Hpos.
Qed.

(** ** Training in numpy's arithmetic *)



Section numpy_training_facts.
Context `{NumpyFloat}.










End numpy_training_facts.












(** The source run on small corpora. *)
Example prepare_counts_within_lines :
  for_res (@count_line ascii_lower) [] [py "Ab ab!"; py "b"; py "ca"; py ""]
  = Ok [(97%N, 98%N, 2%Z); (98%N, 32%N, 1%Z); (32%N, 97%N, 1%Z);
        (99%N, 97%N, 1%Z)].
Proof. by vm_compute. Qed.

Example prepare_cells_overwritten :
  (λ e, let m := default [] (empirical_frequences e) in
        (Qred (matrix_at m 1 2), Qred (matrix_at m 2 0),
         Qred (matrix_at m 2 3)))
  <$> @prepare_empirical_freq_normalized ascii_lower init
        [py "Ab ab!"; py "b"; py "ca"; py ""]
  = Ok (1 # 27, 1 # 53, 2 # 53)%Q.
Proof. by vm_compute. Qed.

Example float64_cells_overwritten :
  (λ m, (cell m 1 2, cell m 2 0, cell m 2 3, @float64_sum binary64 <$> m !! 2))
  <$> @float64_empirical_frequences binary64 ascii_lower
        [py "Ab ab!"; py "b"; py "ca"; py ""]
  = Ok (Some (SpecFloat.S754_finite false 5337599558365032 (-57)),
        Some (SpecFloat.S754_finite false 5438308983994561 (-58)),
        Some (SpecFloat.S754_finite false 5438308983994561 (-57)),
        Some (SpecFloat.S754_finite false 4503599627370496 (-52))).
Proof. by vm_compute. Qed.

(** ** Computations in the world *)

Section world_facts.
Context `{RandomLib}.

Lemma M_bind_Ok {A B} (m : M A) (f : A → M B) w a w' :
  m w = (Ok a, w') → (m ≫= f) w = f a w'.
Proof. intros Hm. unfold mbind, M_bind. by rewrite Hm. Qed.

Lemma M_bind_Raise {A B} (m : M A) (f : A → M B) w e w' :
  m w = (Raise e, w') → (m ≫= f) w = (Raise e, w').
Proof. intros Hm. unfold mbind, M_bind. by rewrite Hm. Qed.

Lemma shuffle_eq x w :
  shuffle x w
  = (Ok (random_shuffle x (py_rng w)).1,
     {| py_rng := (random_shuffle x (py_rng w)).2;
        np_rng := np_rng w; console := console w |}).
Proof. unfold shuffle. by destruct (random_shuffle x (py_rng w)). Qed.

Lemma uniform01_eq w :
  uniform01 w
  = (Ok (random_uniform01 (py_rng w)).1,
     {| py_rng := (random_uniform01 (py_rng w)).2;
        np_rng := np_rng w; console := console w |}).
Proof. unfold uniform01. by destruct (random_uniform01 (py_rng w)). Qed.

Lemma choice2_eq a w :
  choice2 a w
  = (Ok (np_random_choice2 a (np_rng w)).1,
     {| py_rng := py_rng w;
        np_rng := (np_random_choice2 a (np_rng w)).2;
        console := console w |}).
Proof. unfold choice2. by destruct (np_random_choice2 a (np_rng w)). Qed.
End world_facts.

Lemma counter_random_lawful : RandomLawful counter_random.
Proof.
  split; cbn [random_shuffle random_uniform01 np_random_choice2
              counter_random fst snd].
  - intros l g. unfold rotate. rewrite Permutation_app_comm.
    by rewrite take_drop.
  - intros g. pose proof (pos_INR g). rewrite S_INR. split.
    + apply Rle_mult_inv_pos; lra.
    + apply (Rmult_lt_reg_r (INR g + 1)); [lra|].
      unfold Rdiv. rewrite Rmult_assoc, Rinv_l; lra.
  - intros l g Hl.
    assert (0 < length l) by (destruct l; [done|simpl; lia]).
    split; apply list_elem_of_lookup_total_2, Nat.mod_upper_bound; lia.
Qed.

(** ** Ciphers drawn by a shuffle *)

Lemma zip_is_cipher (ks vs : str) :
  ks ≡ₚ alphabet init → vs ≡ₚ alphabet init →
  dict_of_pairs (zip ks vs) = zip ks vs ∧ is_cipher (zip ks vs).
Proof.
  intros Hks Hvs.
  assert (length ks = length vs) as Hlen
    by by rewrite (Permutation_length Hks), (Permutation_length Hvs).
  assert ((zip ks vs).*1 = ks) as Hfst by (apply fst_zip; lia).
  assert ((zip ks vs).*2 = vs) as Hsnd by (apply snd_zip; lia).
  split.
  - apply dict_of_pairs_NoDup. rewrite Hfst, Hks. apply alphabet_NoDup.
  - split; by rewrite ?Hfst, ?Hsnd.
Qed.

Lemma random_cifer_eq `{RandomLib} self w :
  random_cifer self w
  = (Ok (dict_of_pairs
           (zip (alphabet self) (random_shuffle (alphabet self) (py_rng w)).1)),
     {| py_rng := (random_shuffle (alphabet self) (py_rng w)).2;
        np_rng := np_rng w; console := console w |}).
Proof.
  unfold random_cifer. by rewrite (M_bind_Ok _ _ _ _ _ (shuffle_eq _ _)).
Qed.

(** C6. Applying a bijective cipher to a canonical text and then the
    inverse of the cipher returns the text; and the inverse of the cipher
    that [encrypt_text] draws, applied to what [encrypt_text] returns,
    recovers the canonicalized input. *)
Theorem encrypt_then_decrypt_identity `{StrLower} `{RandomLib}
    (c : list (char * char)) (t : str)
    (self : EnigmaForDummies) (text : str) (w : world) :
  is_cipher c → canonical t →
  RandomLawful _ → alphabet self = alphabet init →
  (encrypt_or_decrypt t c ≫= λ e, encrypt_or_decrypt e (invert c)) = Ok t
  ∧ ∃ rc ct w',
      random_cifer self w = (Ok rc, w')
      ∧ encrypt_text self text w = (Ok ct, w')
      ∧ encrypt_or_decrypt ct (invert rc) = Ok (canonicalize text).
Proof.
  intros Hc Ht Hlaw Hself. split.
  - rewrite encrypt_or_decrypt_apply by done. simpl.
    rewrite encrypt_or_decrypt_apply
      by (by apply is_cipher_invert || by apply apply_canonical).
    by rewrite apply_invert_apply.
  - pose proof (random_cifer_eq self w) as Hrc.
    destruct (zip_is_cipher (alphabet self)
                (random_shuffle (alphabet self) (py_rng w)).1) as [Hzip Hcip].
    { by rewrite Hself. }
    { by rewrite random_shuffle_perm, Hself. }
    rewrite Hzip in Hrc.
    pose proof (canonicalize_canonical text) as Hcan.
    eexists _, _, _. split_and!; [exact Hrc| |].
    + unfold encrypt_text. rewrite (M_bind_Ok _ _ _ _ _ Hrc). unfold lift.
      fold (canonicalize text). by rewrite encrypt_or_decrypt_apply.
    + rewrite encrypt_or_decrypt_apply
        by (by apply is_cipher_invert || by apply apply_canonical).
      by rewrite apply_invert_apply.
Qed.

Lemma encrypt_then_decrypt_identity_witness :
  let c := zip (alphabet init) (rotate 3 (alphabet init)) in
  let w := @mkWorld counter_random 5 0 [] in
  (encrypt_or_decrypt (py "attack at dawn") c
     ≫= λ e, encrypt_or_decrypt e (invert c)) = Ok (py "attack at dawn")
  ∧ ∃ rc ct w',
      @random_cifer counter_random init w = (Ok rc, w')
      ∧ @encrypt_text ascii_lower counter_random init (py "Attack at dawn!") w
        = (Ok ct, w')
      ∧ encrypt_or_decrypt ct (invert rc)
        = Ok (@canonicalize ascii_lower (py "Attack at dawn!")).
Proof.
  apply (@encrypt_then_decrypt_identity ascii_lower counter_random).
  - split; apply (bool_decide_unpack _); vm_compute; exact I.
  - apply (bool_decide_unpack _); vm_compute; exact I.
  - exact counter_random_lawful.
  - reflexivity.
Defined.

(** ** Scoring *)

Lemma matrix_at_lookup n m i j :
  square n m → i < n → j < n →
  ∃ row, m !! i = Some row ∧ row !! j = Some (matrix_at m i j).
Proof.
  intros Hsq Hi Hj. destruct (square_lookup n m i Hsq Hi) as (row & Hrow & Hlen).
  exists row. split; [done|]. unfold matrix_at. rewrite Hrow.
  cbn [mbind option_bind].
  destruct (lookup_lt_is_Some_2 row j) as [x ->]; [lia|done].
Qed.

Lemma row_sum_others row j x :
  Forall (λ y, 1 <= y)%Q row → row !! j = Some x →
  (x + inject_Z (Z.of_nat (length row - 1)) <= row_sum row)%Q.
Proof.
  intros Hrow. revert j. induction Hrow as [|y row Hy Hrow IH]; intros j Hj.
  - by rewrite lookup_nil in Hj.
  - change (row_sum (y :: row)) with (y + row_sum row)%Q.
    rewrite length_cons, Nat.sub_succ, Nat.sub_0_r. destruct j as [|j].
    + injection Hj as ->. apply Qplus_le_compat; [apply Qle_refl|].
      by apply row_sum_ge.
    + cbn [lookup list_lookup] in Hj. specialize (IH j Hj).
      apply lookup_lt_Some in Hj.
      replace (Z.of_nat (length row))
        with (1 + Z.of_nat (length row - 1))%Z by lia.
      rewrite inject_Z_plus.
      rewrite Qplus_assoc, (Qplus_comm x), <-Qplus_assoc.
      apply Qplus_le_compat; [done|]. exact IH.
Qed.

Lemma bigram_model_lt_1 `{StrLower} corpus i j :
  i < 27 → j < 27 → (matrix_at (bigram_model corpus) i j < 1)%Q.
Proof.
  intros Hi Hj. rewrite bigram_model_at by done.
  apply Qlt_shift_div_r; [apply smoothed_row_sum_pos|]. rewrite Qmult_1_l.
  eapply Qlt_le_trans; [|apply (row_sum_others _ j)].
  - rewrite length_fmap, length_seq. rewrite <-(Qplus_0_r (smoothed_count _ _ _)) at 1.
    apply Qplus_lt_r. done.
  - apply Forall_fmap, Forall_forall. intros k _. apply smoothed_count_ge_1.
  - by rewrite list_lookup_fmap, lookup_seq_lt.
Qed.

Lemma bigram_model_ln_neg `{StrLower} corpus i j :
  i < 27 → j < 27 → (ln (Q2R (matrix_at (bigram_model corpus) i j)) < 0)%R.
Proof.
  intros Hi Hj. rewrite <-ln_1. apply ln_increasing.
  - rewrite <-RMicromega.Q2R_0. by apply Qlt_Rlt, bigram_model_pos.
  - rewrite <-RMicromega.Q2R_1. by apply Qlt_Rlt, bigram_model_lt_1.
Qed.

Lemma sum_neg_terms {A} (g : A → R) (l : list A) :
  Forall (λ a, g a < 0)%R l →
  (foldr (λ a s, g a + s) 0 l <= 0)%R
  ∧ (foldr (λ a s, g a + s)%R 0%R l = 0%R ↔ l = []).
Proof.
  induction 1 as [|a l Ha _ [IH1 IH2]]; simpl; [split; [lra|done]|].
  split; [lra|]. split; [lra|done].
Qed.

Lemma zip_tail_lookup (d : str) i ab :
  zip d (tail d) !! i = Some ab ↔ d !! i = Some ab.1 ∧ d !! (i + 1) = Some ab.2.
Proof.
  rewrite lookup_zip_with_Some, lookup_tail, Nat.add_1_r.
  destruct ab as [a b]. split.
  - intros (x & y & Heq & ? & ?). by simplify_eq.
  - intros [? ?]. by exists a, b.
Qed.

Lemma zip_tail_canonical (d : str) :
  canonical d →
  Forall (λ ab, ab.1 ∈ alphabet init ∧ ab.2 ∈ alphabet init) (zip d (tail d)).
Proof.
  intros Hd. apply Forall_forall. intros ab (i & Hi)%list_elem_of_lookup.
  apply zip_tail_lookup in Hi as [H1 H2].
  unfold canonical in Hd. rewrite Forall_forall in Hd.
  split; apply Hd; apply list_elem_of_lookup; eauto.
Qed.

Section scoring_facts.
Context `{StrLower}.
Variable corpus : list str.

Lemma score_term_trained d score i ab :
  canonical d → zip d (tail d) !! i = Some ab →
  score_term (trained init corpus) d score i
  = Ok (score + ln (Q2R (matrix_at (bigram_model corpus)
                           (index_of ab.1) (index_of ab.2))))%R.
Proof.
  intros Hd Hi. pose proof (zip_tail_canonical d Hd) as Hall.
  rewrite Forall_forall in Hall.
  destruct (Hall ab) as [Ha Hb]; [apply list_elem_of_lookup; eauto|].
  apply zip_tail_lookup in Hi as [H1 H2].
  destruct (char_index_mapping_get _ Ha) as [Hia Hla].
  destruct (char_index_mapping_get _ Hb) as [Hib Hlb].
  destruct (matrix_at_lookup 27 (bigram_model corpus) _ _
              (bigram_model_square corpus) Hla Hlb) as (row & Hrow & Hp).
  unfold score_term. rewrite H1, H2.
  cbn [or_raise mbind res_bind trained char_index_mapping
       empirical_frequences].
  fold (char_index_mapping init). rewrite Hia, Hib.
  cbn [or_raise mbind res_bind]. rewrite Hrow.
  cbn [or_raise mbind res_bind]. by rewrite Hp.
Qed.

Lemma score_terms_trained d n k (score : R) :
  canonical d → k + n ≤ length (zip d (tail d)) →
  for_res (score_term (trained init corpus) d) score (seq k n)
  = Ok (score + foldr (λ ab s,
                  ln (Q2R (matrix_at (bigram_model corpus)
                             (index_of ab.1) (index_of ab.2))) + s) 0
                (take n (drop k (zip d (tail d)))))%R.
Proof.
  intros Hd. revert k score. induction n as [|n IH]; intros k score Hk.
  - simpl. f_equal. lra.
  - destruct (lookup_lt_is_Some_2 (zip d (tail d)) k) as [ab Hab]; [lia|].
    cbn [seq for_res]. rewrite (score_term_trained d score k ab Hd Hab).
    cbn [mbind res_bind]. rewrite IH by lia.
    rewrite (drop_S _ _ _ Hab). cbn [take foldr]. f_equal. lra.
Qed.

Lemma score_cipher_trained cipher encrypted :
  is_cipher cipher → canonical encrypted →
  score_cipher (trained init corpus) cipher encrypted
  = Ok (log_likelihood (bigram_model corpus)
          (apply (invert cipher) encrypted)).
Proof.
  intros Hc He. unfold score_cipher.
  rewrite encrypt_or_decrypt_apply by by try apply is_cipher_invert.
  cbn [mbind res_bind]. set (d := apply (invert cipher) encrypted).
  assert (canonical d) as Hd
    by (apply apply_canonical; [by apply is_cipher_invert|done]).
  rewrite score_terms_trained; [|done|].
  - rewrite drop_0, take_ge, Rplus_0_l; [done|].
    rewrite length_zip_with, length_tl. lia.
  - rewrite length_zip_with, length_tl. lia.
Qed.

Lemma log_likelihood_sign d :
  canonical d →
  (log_likelihood (bigram_model corpus) d <= 0)%R
  ∧ (log_likelihood (bigram_model corpus) d = 0%R ↔ length d < 2).
Proof.
  intros Hd. unfold log_likelihood.
  destruct (sum_neg_terms
    (λ ab, ln (Q2R (matrix_at (bigram_model corpus)
                      (index_of ab.1) (index_of ab.2))))
    (zip d (tail d))) as [Hle Hzero].
  { eapply Forall_impl; [by apply zip_tail_canonical|].
    intros ab [Ha Hb]. cbv beta.
    apply bigram_model_ln_neg; by apply char_index_mapping_get. }
  split; [done|]. rewrite Hzero.
  destruct d as [|a [|b d]]; simpl; split; (done || lia).
Qed.
End scoring_facts.

(** The inverse of a bijective cipher, read off the cipher alone. *)
Lemma invert_invert c : is_cipher c → invert (invert c) = c.
Proof.
  intros Hc. pose proof (is_cipher_invert c Hc) as Hic.
  rewrite (invert_fmap (invert c)) by by apply is_cipher_values_NoDup.
  rewrite (invert_fmap c) by by apply is_cipher_values_NoDup.
  rewrite <-list_fmap_compose. etrans; [|apply list_fmap_id].
  apply list_fmap_ext. by intros i [k v] _.
Qed.

Lemma invert_get_iff c k v :
  is_cipher c → dict_get (invert c) v = Some k ↔ dict_get c k = Some v.
Proof.
  intros Hc. split; [|by apply invert_get].
  intros Hget. rewrite <-(invert_invert c Hc).
  apply invert_get; [by apply is_cipher_invert|done].
Qed.

Lemma apply_invert_lookup c t i y :
  is_cipher c → canonical t → t !! i = Some y →
  ∃ x, apply (invert c) t !! i = Some x ∧ dict_get c x = Some y.
Proof.
  intros Hc Ht Hy. unfold canonical in Ht. rewrite Forall_forall in Ht.
  destruct (cipher_get (invert c) y) as (x & Hx & _);
    [by apply is_cipher_invert|apply Ht, list_elem_of_lookup; eauto|].
  exists x. unfold apply. rewrite list_lookup_fmap, Hy. simpl. rewrite Hx.
  split; [done|]. by apply invert_get_iff.
Qed.

(** C2. On an engine trained on any corpus, for a bijective cipher and a
    canonical ciphertext, [score_cipher] returns the sum, over the
    adjacent pairs of the decrypted text, of the logarithm of the matrix
    cell of the pair.  The decrypted text is the ciphertext under the
    inverse bijection: the inverted dictionary sends [v] to [k] exactly
    when the cipher sends [k] to [v], so the decrypted text is canonical,
    as long as the ciphertext, holds at every place the symbol that the
    cipher sends to the symbol of the ciphertext at that place, and
    encrypts back to the ciphertext.  The score is at most 0, and it is 0
    exactly when the ciphertext has fewer than two symbols. *)
Theorem score_cipher_log_likelihood `{StrLower}
    (corpus : list str) (self : EnigmaForDummies)
    (cipher : list (char * char)) (encrypted : str) :
  prepare_empirical_freq_normalized init corpus = Ok self →
  is_cipher cipher → canonical encrypted →
  ∃ (m : list (list Q)) (decrypted : str) (score : R),
    empirical_frequences self = Some m
    ∧ (∀ k v, dict_get (invert cipher) v = Some k ↔ dict_get cipher k = Some v)
    ∧ decrypted = apply (invert cipher) encrypted
    ∧ canonical decrypted
    ∧ length decrypted = length encrypted
    ∧ (∀ i y, encrypted !! i = Some y →
         ∃ x, decrypted !! i = Some x ∧ dict_get cipher x = Some y)
    ∧ encrypt_or_decrypt decrypted cipher = Ok encrypted
    ∧ score_cipher self cipher encrypted = Ok score
    ∧ score = log_likelihood m decrypted
    ∧ (score <= 0)%R
    ∧ (score = 0%R ↔ length encrypted < 2).
Proof.
  rewrite prepare_trained. intros Htrain%Ok_inj Hc He. subst self.
  pose proof (is_cipher_invert cipher Hc) as Hic.
  assert (canonical (apply (invert cipher) encrypted)) as Hd
    by by apply apply_canonical.
  exists (bigram_model corpus), (apply (invert cipher) encrypted).
  eexists. split_and!; [done| |done|done| | | | |done|..].
  - intros k v. by apply invert_get_iff.
  - unfold apply. by rewrite length_fmap.
  - intros i y Hy. by apply apply_invert_lookup.
  - rewrite encrypt_or_decrypt_apply by done.
    rewrite <-(invert_invert cipher Hc) at 1.
    by rewrite apply_invert_apply.
  - by apply score_cipher_trained.
  - by apply log_likelihood_sign.
  - rewrite <-(length_fmap (λ s, default s (dict_get (invert cipher) s))).
    by apply log_likelihood_sign.
Qed.

Lemma score_cipher_log_likelihood_witness :
  let corpus := [py "the cat sat on the mat"; py "The Mat."] in
  let cipher := zip (alphabet init) (rotate 1 (alphabet init)) in
  ∃ (m : list (list Q)) (decrypted : str) (score : R),
    empirical_frequences (@trained ascii_lower init corpus) = Some m
    ∧ (∀ k v, dict_get (invert cipher) v = Some k ↔ dict_get cipher k = Some v)
    ∧ decrypted = apply (invert cipher) (py "uifadbu")
    ∧ canonical decrypted
    ∧ length decrypted = length (py "uifadbu")
    ∧ (∀ i y, py "uifadbu" !! i = Some y →
         ∃ x, decrypted !! i = Some x ∧ dict_get cipher x = Some y)
    ∧ encrypt_or_decrypt decrypted cipher = Ok (py "uifadbu")
    ∧ score_cipher (@trained ascii_lower init corpus) cipher (py "uifadbu")
      = Ok score
    ∧ score = log_likelihood m decrypted
    ∧ (score <= 0)%R
    ∧ (score = 0%R ↔ length (py "uifadbu") < 2).
Proof.
  apply (@score_cipher_log_likelihood ascii_lower
           [py "the cat sat on the mat"; py "The Mat."]).
  - apply prepare_trained.
  - split; apply (bool_decide_unpack _); vm_compute; exact I.
  - apply (bool_decide_unpack _); vm_compute; exact I.
Defined.

(** ** Proposals *)

Lemma dict_set_fmap {V} (d : list (char * V)) k v :
  NoDup d.*1 → k ∈ d.*1 →
  dict_set k v d = (λ kv, if decide (kv.1 = k) then (kv.1, v) else kv) <$> d.
Proof.
  induction d as [|[k' v'] d IH]; [by intros _ ?%elem_of_nil|].
  intros [Hk' Hnd]%NoDup_cons Hin. csimpl.
  destruct (decide (k' = k)) as [->|Hne].
  - f_equal. rewrite <-(list_fmap_id d) at 1. apply list_fmap_ext.
    intros i [k1 v1] Hi. simpl. rewrite decide_False; [done|].
    intros ->. apply Hk'. apply list_elem_of_fmap. exists (k, v1).
    split; [done|]. apply list_elem_of_lookup. eauto.
  - f_equal. apply IH; [done|]. by apply elem_of_cons in Hin as [?|?].
Qed.

(** Lines 131-133 compute [swap]. *)
Lemma propose_swap (c : list (char * char)) a b va vb :
  NoDup c.*1 → a ∈ c.*1 → b ∈ c.*1 →
  dict_get c a = Some va → dict_get c b = Some vb →
  dict_set b va (dict_set a vb (dict_copy c)) = swap c a b.
Proof.
  intros Hnd Ha Hb Hva Hvb. unfold dict_copy.
  rewrite (dict_set_fmap c a vb) by done.
  rewrite dict_set_fmap.
  - rewrite <-list_fmap_compose. unfold swap. rewrite Hva, Hvb.
    apply list_fmap_ext. intros i [k v] _. simpl.
    repeat (case_decide; simpl in *; simplify_eq); done.
  - rewrite <-list_fmap_compose.
    erewrite list_fmap_ext; [exact Hnd|]. intros i [k v] _. simpl.
    by case_decide.
  - rewrite <-list_fmap_compose.
    erewrite list_fmap_ext; [exact Hb|]. intros i [k v] _. simpl.
    by case_decide.
Qed.

Lemma swap_keys c a b : (swap c a b).*1 = c.*1.
Proof.
  unfold swap. rewrite <-list_fmap_compose. apply list_fmap_ext.
  intros i [k v] _. simpl. by repeat case_decide.
Qed.

Lemma swap_same c a : NoDup c.*1 → swap c a a = c.
Proof.
  intros Hnd. unfold swap. rewrite <-(list_fmap_id c) at 2.
  apply list_fmap_ext. intros i [k v] Hi. simpl.
  case_decide as Hk; [|done]. simpl in Hk. subst.
  rewrite (elem_dict_get c a v); [done..|].
  apply list_elem_of_lookup. eauto.
Qed.

Lemma transpose_perm (l : str) (a b : char) :
  NoDup l → a ∈ l → b ∈ l →
  (λ k, if decide (k = a) then b else if decide (k = b) then a else k) <$> l
  ≡ₚ l.
Proof.
  intros Hnd Ha Hb.
  set (τ := λ k : N, if decide (k = a) then b else if decide (k = b) then a else k).
  assert (∀ x, τ (τ x) = x) as Hinv.
  { intros x. unfold τ. repeat case_decide; congruence. }
  assert (∀ x, x ∈ l → τ x ∈ l) as Hmem.
  { intros x Hx. unfold τ. by repeat case_decide. }
  apply NoDup_Permutation; [|done|].
  - apply NoDup_fmap_2_strong; [|done].
    intros x y _ _ Hxy. by rewrite <-(Hinv x), Hxy.
  - intros x. rewrite list_elem_of_fmap. split.
    + intros (y & -> & Hy). by apply Hmem.
    + intros Hx. exists (τ x). split; [by rewrite Hinv|by apply Hmem].
Qed.

Lemma swap_is_cipher c a b :
  is_cipher c → a ∈ alphabet init → b ∈ alphabet init → is_cipher (swap c a b).
Proof.
  intros Hc Ha Hb. pose proof Hc as [Hk Hv].
  pose proof (is_cipher_keys_NoDup c Hc) as Hnd.
  split; [by rewrite swap_keys|].
  destruct (cipher_get c a Hc Ha) as (va & Hva & _).
  destruct (cipher_get c b Hc Hb) as (vb & Hvb & _).
  set (τ := λ k : N, if decide (k = a) then b else if decide (k = b) then a else k).
  set (f := λ k : N, default k (dict_get c k)).
  assert ((swap c a b).*2 = f <$> (τ <$> c.*1)) as ->.
  { unfold swap. rewrite Hva, Hvb, <-!list_fmap_compose.
    apply list_fmap_ext. intros i [k v] Hi. unfold f, τ. simpl.
    repeat case_decide; simpl; rewrite ?Hva, ?Hvb; try done.
    rewrite (elem_dict_get c k v); [done..|].
    apply list_elem_of_lookup. eauto. }
  subst τ. cbv beta. rewrite transpose_perm; [|done|by rewrite Hk..].
  etrans; [|exact Hv]. rewrite <-list_fmap_compose.
  erewrite list_fmap_ext; [done|]. intros i [k v] Hi. unfold f. simpl.
  rewrite (elem_dict_get c k v); [done..|].
  apply list_elem_of_lookup. eauto.
Qed.

(** ** One iteration of the search *)

Section search_facts.
Context `{StrLower} `{RandomLib}.
Variable corpus : list str.
Variable encrypted : str.
Variable shuffled_letters : str.
Hypothesis Hlaw : RandomLawful _.
Hypothesis Hencrypted : canonical encrypted.
Hypothesis Hshuffled : shuffled_letters ≡ₚ alphabet init.

Local Abbreviation self := (trained init corpus).

Lemma choice2_alphabet g :
  (np_random_choice2 shuffled_letters g).1.1 ∈ alphabet init
  ∧ (np_random_choice2 shuffled_letters g).1.2 ∈ alphabet init.
Proof.
  rewrite <-Hshuffled. apply np_random_choice2_elem; [done|].
  intros Hnil. apply Permutation_length in Hshuffled.
  by rewrite Hnil in Hshuffled.
Qed.

Lemma propose_spec (c : list (char * char)) w :
  is_cipher c →
  let r := (np_random_choice2 shuffled_letters (np_rng w)).1 in
  is_cipher (swap c r.1 r.2)
  ∧ propose self encrypted shuffled_letters c w
    = (Ok (swap c r.1 r.2,
           log_likelihood (bigram_model corpus)
             (apply (invert (swap c r.1 r.2)) encrypted)),
       {| py_rng := py_rng w;
          np_rng := (np_random_choice2 shuffled_letters (np_rng w)).2;
          console := console w |}).
Proof.
  intros Hc r.
  destruct (choice2_alphabet (np_rng w)) as [Ha Hb]. fold r in Ha, Hb.
  pose proof (swap_is_cipher c r.1 r.2 Hc Ha Hb) as Hswap.
  split; [done|].
  destruct (cipher_get c r.1 Hc Ha) as (v1 & Hv1 & _).
  destruct (cipher_get c r.2 Hc Hb) as (v2 & Hv2 & _).
  unfold propose. rewrite (M_bind_Ok _ _ _ _ _ (choice2_eq _ _)).
  fold r. destruct r as [r1 r2]. cbn [fst snd] in *.
  unfold lift, mbind, M_bind. rewrite Hv1, Hv2. cbn [or_raise].
  destruct Hc as [Hk _].
  rewrite (propose_swap c r1 r2 v1 v2) by
    (rewrite ?Hk; (apply alphabet_NoDup || done)).
  by rewrite score_cipher_trained.
Qed.

Lemma accepts_spec (new_score current_score : R) w :
  let u := (random_uniform01 (py_rng w)).1 in
  ∃ accepted,
    (accepted = true ↔
       (current_score < new_score ∨ u < exp (new_score - current_score))%R)
    ∧ accepts new_score current_score w
      = (Ok accepted,
         {| py_rng := if Rlt_dec current_score new_score then py_rng w
                      else (random_uniform01 (py_rng w)).2;
            np_rng := np_rng w; console := console w |}).
Proof.
  intros u. unfold accepts.
  destruct (Rlt_dec current_score new_score) as [Hlt|Hge].
  - exists true. split; [by split; [left|]|]. by destruct w.
  - rewrite (M_bind_Ok _ _ _ _ _ (uniform01_eq _)). fold u.
    destruct (Rlt_dec u (exp (new_score - current_score))) as [Hu|Hu].
    + exists true. split; [by split; [right|]|done].
    + exists false. split; [|done]. split; [done|]. intros [?|?]; done.
Qed.

Lemma search_step_spec st w :
  is_cipher (current_cifer st) →
  let r := (np_random_choice2 shuffled_letters (np_rng w)).1 in
  let u := (random_uniform01 (py_rng w)).1 in
  let candidate := swap (current_cifer st) r.1 r.2 in
  ∃ (candidate_score : R) (accepted : bool),
    is_cipher candidate
    ∧ score_cipher self candidate encrypted = Ok candidate_score
    ∧ (accepted = true ↔
         (current_score st < candidate_score
          ∨ u < exp (candidate_score - current_score st))%R)
    ∧ (accepts candidate_score (current_score st)
         {| py_rng := py_rng w;
            np_rng := (np_random_choice2 shuffled_letters (np_rng w)).2;
            console := console w |}).1 = Ok accepted
    ∧ search_step self encrypted shuffled_letters st w
      = (Ok {| current_cifer :=
                 if accepted then candidate else current_cifer st;
               current_score :=
                 if accepted then candidate_score else current_score st;
               best_cifer :=
                 if Rlt_dec (best_score st) candidate_score then candidate
                 else best_cifer st;
               best_score :=
                 if Rlt_dec (best_score st) candidate_score
                 then candidate_score else best_score st |},
         {| py_rng := if Rlt_dec (current_score st) candidate_score
                      then py_rng w else (random_uniform01 (py_rng w)).2;
            np_rng := (np_random_choice2 shuffled_letters (np_rng w)).2;
            console := console w |}).
Proof.
  intros Hc r u candidate.
  destruct (propose_spec (current_cifer st) w Hc) as [Hcand Hprop].
  fold r in Hcand, Hprop. fold candidate in Hcand, Hprop.
  set (s := log_likelihood (bigram_model corpus)
              (apply (invert candidate) encrypted)) in *.
  destruct (accepts_spec s (current_score st)
    {| py_rng := py_rng w;
       np_rng := (np_random_choice2 shuffled_letters (np_rng w)).2;
       console := console w |}) as (accepted & Hacc & Haccepts).
  cbn [py_rng np_rng console] in Hacc, Haccepts.
  exists s, accepted. split_and!; [done| |done| |].
  - by rewrite score_cipher_trained.
  - by rewrite Haccepts.
  - unfold search_step. rewrite (M_bind_Ok _ _ _ _ _ Hprop).
    rewrite (M_bind_Ok _ _ _ _ _ Haccepts). unfold dict_copy.
    destruct accepted, st; cbn [best_score best_cifer current_cifer
                                current_score];
      repeat match goal with
             | |- context [Rlt_dec ?a ?b] => destruct (Rlt_dec a b)
             end; done.
Qed.
End search_facts.

(** ** The loop *)

Section loop_facts.
Context `{StrLower} `{RandomLib}.
Variable corpus : list str.
Variable encrypted : str.
Variable shuffled_letters : str.
Hypothesis Hlaw : RandomLawful _.
Hypothesis Hencrypted : canonical encrypted.
Hypothesis Hshuffled : shuffled_letters ≡ₚ alphabet init.

Local Abbreviation self := (trained init corpus).

Lemma search_step_inv st w :
  chain_inv self encrypted st →
  ∃ st' w',
    search_step self encrypted shuffled_letters st w = (Ok st', w')
    ∧ chain_inv self encrypted st'
    ∧ (best_score st <= best_score st')%R
    ∧ console w' = console w.
Proof.
  intros (Hcur & Hbest & Hscur & Hsbest & Hle).
  destruct (search_step_spec corpus encrypted shuffled_letters
              Hlaw Hencrypted Hshuffled st w Hcur)
    as (s & accepted & Hcand & Hs & _ & _ & Hstep).
  eexists _, _. split; [exact Hstep|].
  unfold chain_inv. cbn [current_cifer current_score best_cifer best_score
                         console].
  destruct accepted; destruct (Rlt_dec (best_score st) s);
    split_and!; try done; lra.
Qed.

Lemma report_valid verbose i st w :
  valid_verbose verbose → is_cipher (best_cifer st) →
  ∃ w', report encrypted verbose i st w = (Ok (), w')
        ∧ py_rng w' = py_rng w ∧ np_rng w' = np_rng w.
Proof.
  intros Hv Hbest. unfold report.
  destruct (bool_decide (i mod 500 = 0) && truthy verbose) eqn:Hcond;
    [|by exists w].
  apply andb_true_iff in Hcond as [_ Htruthy].
  destruct Hv as [Hv|Hv]; [congruence|].
  rewrite Hv. destruct verbose as [| |z| |]; try done.
  unfold py_assert, lift, mbind, M_bind.
  case_bool_decide; [|by exists w].
  rewrite encrypt_or_decrypt_apply by by try apply is_cipher_invert.
  eexists. by split_and!.
Qed.

Lemma report_invalid verbose i st w :
  truthy verbose = true → positive_int verbose = false → i mod 500 = 0 →
  report encrypted verbose i st w
  = (Raise (AssertionError "Select verbose=False or pass positive integer"),
     w).
Proof.
  intros Ht Hp Hi. unfold report.
  rewrite bool_decide_eq_true_2, Ht, Hp by done. done.
Qed.

Lemma loop_body_Ok verbose i st w st' w' :
  chain_inv self encrypted st →
  loop_body self encrypted shuffled_letters verbose i st w = (Ok st', w') →
  ∃ w1, search_step self encrypted shuffled_letters st w = (Ok st', w1)
        ∧ chain_inv self encrypted st'
        ∧ (best_score st <= best_score st')%R.
Proof.
  intros Hinv.
  destruct (search_step_inv st w Hinv) as (st1 & w1 & Hstep & Hinv1 & Hle & _).
  unfold loop_body. rewrite (M_bind_Ok _ _ _ _ _ Hstep).
  unfold mbind at 1, M_bind at 1.
  destruct (report encrypted verbose i st1 w1) as [[[]|e] w2]; [|done].
  unfold mret, M_ret. intros Heq. injection Heq as Hst Hw. subst st' w'.
  by exists w1.
Qed.

Lemma loop_body_valid verbose i st w :
  valid_verbose verbose → chain_inv self encrypted st →
  ∃ st' w',
    loop_body self encrypted shuffled_letters verbose i st w = (Ok st', w').
Proof.
  intros Hv Hinv.
  destruct (search_step_inv st w Hinv) as (st1 & w1 & Hstep & Hinv1 & _).
  destruct (report_valid verbose i st1 w1 Hv) as (w2 & Hrep & _);
    [apply Hinv1|].
  exists st1, w2. unfold loop_body. rewrite (M_bind_Ok _ _ _ _ _ Hstep).
  by rewrite (M_bind_Ok _ _ _ _ _ Hrep).
Qed.

Lemma for_loop_Ok verbose n k st w st' w' :
  chain_inv self encrypted st →
  for_M (loop_body self encrypted shuffled_letters verbose) (seq k n) st w
  = (Ok st', w') →
  chain_inv self encrypted st' ∧ (best_score st <= best_score st')%R.
Proof.
  revert k st w. induction n as [|n IH]; intros k st w Hinv.
  - cbn [seq for_M]. unfold mret, M_ret.
    intros Heq. injection Heq as Hst Hw. subst st' w'. split; [done|lra].
  - cbn [seq for_M]. unfold mbind at 1, M_bind at 1.
    destruct (loop_body _ _ _ _ k st w) as [[st1|e] w1] eqn:Hbody; [|done].
    destruct (loop_body_Ok _ _ _ _ _ _ Hinv Hbody) as (? & _ & Hinv1 & Hle1).
    intros Hrest. destruct (IH _ _ _ Hinv1 Hrest) as [Hinv' Hle'].
    split; [done|lra].
Qed.

Lemma for_loop_valid verbose n k st w :
  valid_verbose verbose → chain_inv self encrypted st →
  ∃ st' w',
    for_M (loop_body self encrypted shuffled_letters verbose) (seq k n) st w
    = (Ok st', w').
Proof.
  intros Hv. revert k st w. induction n as [|n IH]; intros k st w Hinv.
  - by exists st, w.
  - destruct (loop_body_valid verbose k st w Hv Hinv) as (st1 & w1 & Hbody).
    destruct (loop_body_Ok _ _ _ _ _ _ Hinv Hbody) as (? & _ & Hinv1 & _).
    destruct (IH (S k) st1 w1 Hinv1) as (st' & w' & Hrest).
    exists st', w'. cbn [seq for_M]. by rewrite (M_bind_Ok _ _ _ _ _ Hbody).
Qed.
End loop_facts.

(** ** The mapping rebuilt at the end *)

Lemma insert_sorted_perm c l : insert_sorted c l ≡ₚ c :: l.
Proof.
  induction l as [|d l IH]; simpl; [done|].
  destruct (c <=? d)%N; [done|]. by rewrite IH, Permutation_swap.
Qed.

Lemma sorted_perm l : sorted l ≡ₚ l.
Proof.
  induction l as [|c l IH]; simpl; [done|].
  by rewrite insert_sorted_perm, IH.
Qed.

Lemma final_mapping_spec best :
  is_cipher best →
  ∃ mapping,
    final_mapping best = Ok mapping
    ∧ is_cipher mapping
    ∧ ∀ s, dict_get mapping s = dict_get (invert best) s.
Proof.
  intros Hbest. pose proof Hbest as [Hk Hv].
  set (f := λ k : N, default k (dict_get best k)).
  set (ks := sorted (dict_keys best)).
  assert (ks ≡ₚ alphabet init) as Hks by (unfold ks; by rewrite sorted_perm).
  assert (∀ k, k ∈ alphabet init → dict_get best k = Some (f k)) as Hf.
  { intros k Hin. unfold f.
    by destruct (cipher_get best k Hbest Hin) as (v & -> & _). }
  assert (f <$> ks ≡ₚ alphabet init) as Hvs.
  { rewrite Hks. etrans; [|exact Hv]. rewrite <-Hk, <-list_fmap_compose.
    erewrite list_fmap_ext; [done|]. intros i [k v] Hi. simpl.
    assert (dict_get best k = Some v) as Hget.
    { apply elem_dict_get; [by apply is_cipher_keys_NoDup|].
      apply list_elem_of_lookup. eauto. }
    unfold f. by rewrite Hget. }
  destruct (zip_is_cipher (f <$> ks) ks Hvs Hks) as [Hzip Hmap].
  exists (zip (f <$> ks) ks). split_and!; [|done|].
  - unfold final_mapping. fold ks. rewrite (mapM_res_Ok _ f).
    + cbn [mbind res_bind]. by rewrite Hzip.
    + apply Forall_forall. intros k Hin. rewrite Hf; [done|]. by rewrite <-Hks.
  - intros s. destruct (dict_get (zip (f <$> ks) ks) s) as [k|] eqn:Hget.
    + apply dict_get_Some_elem, list_elem_of_lookup in Hget as [i Hi].
      apply lookup_zip_with_Some in Hi as (v & k' & Heq & Hvi & Hki).
      injection Heq as -> ->.
      rewrite list_lookup_fmap, Hki in Hvi. injection Hvi as <-.
      symmetry. apply invert_get; [done|]. apply Hf. rewrite <-Hks.
      apply list_elem_of_lookup. eauto.
    + symmetry. apply dict_get_None. apply dict_get_None in Hget.
      destruct Hmap as [Hmk _]. destruct (is_cipher_invert best Hbest) as [Hik _].
      by rewrite Hik, <-Hmk.
Qed.

Lemma apply_ext c1 c2 t :
  (∀ s, dict_get c1 s = dict_get c2 s) → apply c1 t = apply c2 t.
Proof.
  intros Heq. unfold apply. apply list_fmap_ext. intros i s _. by rewrite Heq.
Qed.

(** ** A whole run *)

Section run_facts.
Context `{StrLower} `{RandomLib}.
Variable corpus : list str.
Variable encrypted : str.
Hypothesis Hlaw : RandomLawful _.
Hypothesis Hencrypted : canonical encrypted.

Local Abbreviation self := (trained init corpus).

Lemma initial_chain_spec w :
  let shuffled_letters := (random_shuffle (alphabet init) (py_rng w)).1 in
  let c0 := zip shuffled_letters (alphabet init) in
  ∃ s0,
    shuffled_letters ≡ₚ alphabet init
    ∧ chain_inv self encrypted
        {| current_cifer := c0; current_score := s0;
           best_cifer := c0; best_score := s0 |}
    ∧ initial_chain self encrypted w
      = (Ok (shuffled_letters,
             {| current_cifer := c0; current_score := s0;
                best_cifer := c0; best_score := s0 |}),
         {| py_rng := (random_shuffle (alphabet init) (py_rng w)).2;
            np_rng := np_rng w; console := console w |}).
Proof.
  intros shuffled_letters c0.
  assert (shuffled_letters ≡ₚ alphabet init) as Hsh
    by apply random_shuffle_perm, Hlaw.
  destruct (zip_is_cipher shuffled_letters (alphabet init) Hsh)
    as [Hzip Hc0]; [done|]. fold c0 in Hc0.
  pose proof (score_cipher_trained corpus c0 encrypted Hc0 Hencrypted) as Hs0.
  eexists. split_and!; [done| |].
  - unfold chain_inv. cbn [current_cifer current_score best_cifer best_score].
    split_and!; [done|done|exact Hs0|exact Hs0|lra].
  - unfold initial_chain.
    change (alphabet self) with (alphabet init).
    rewrite (M_bind_Ok _ _ _ _ _ (shuffle_eq _ _)).
    fold shuffled_letters. rewrite Hzip. fold c0.
    unfold lift, mbind, M_bind. by rewrite Hs0.
Qed.

Lemma process_decryption_run iters verbose w :
  ∃ shuffled_letters st0 w0,
    initial_chain self encrypted w = (Ok (shuffled_letters, st0), w0)
    ∧ shuffled_letters ≡ₚ alphabet init
    ∧ chain_inv self encrypted st0
    ∧ process_decryption self encrypted iters verbose w
      = match run_loop self encrypted shuffled_letters verbose
                (Z.to_nat iters) st0 w0 with
        | (Ok st, w') => (Ok (apply (invert (best_cifer st)) encrypted), w')
        | (Raise e, w') => (Raise e, w')
        end.
Proof.
  destruct (initial_chain_spec w) as (s0 & Hsh & Hinv0 & Hinit).
  eexists _, _, _. split_and!; [exact Hinit|done|done|].
  unfold process_decryption.
  change (emp_freq_prepared self) with true.
  unfold py_assert, lift. unfold mbind at 1, M_bind at 1.
  rewrite (M_bind_Ok _ _ _ _ _ Hinit). cbv iota beta.
  unfold run_loop. unfold mbind at 1, M_bind at 1.
  match goal with
  | |- context [for_M ?b ?l ?s ?w0] =>
      destruct (for_M b l s w0) as [[st|e] w'] eqn:Hloop; [|done]
  end.
  destruct (for_loop_Ok corpus encrypted _ Hlaw Hencrypted Hsh _ _ _ _ _ _ _
              Hinv0 Hloop) as [(_ & Hbest & _) _].
  destruct (final_mapping_spec _ Hbest) as (mapping & Hmap & Hcm & Hget).
  unfold lift, mbind, M_bind. rewrite Hmap.
  rewrite encrypt_or_decrypt_apply by done.
  by rewrite (apply_ext _ _ _ Hget).
Qed.
End run_facts.

(** * The claims of the specification about the search *)



Lemma for_M_app `{RandomLib} {A S} (body : A → S → M S) l1 l2 s w :
  for_M body (l1 ++ l2) s w = (for_M body l1 s ≫= for_M body l2) w.
Proof.
  revert s w. induction l1 as [|x l1 IH]; intros s w; [done|].
  cbn [app for_M]. unfold mbind, M_bind.
  destruct (body x s w) as [[s1|e] w1]; [|done]. apply IH.
Qed.

Lemma run_loop_prefix `{RandomLib} self encrypted shuffled_letters verbose
    i j st w stj wj :
  i ≤ j →
  run_loop self encrypted shuffled_letters verbose j st w = (Ok stj, wj) →
  ∃ sti wi,
    run_loop self encrypted shuffled_letters verbose i st w = (Ok sti, wi)
    ∧ for_M (loop_body self encrypted shuffled_letters verbose)
            (seq i (j - i)) sti wi = (Ok stj, wj).
Proof.
  intros Hij. unfold run_loop.
  replace j with (i + (j - i)) at 1 by lia.
  rewrite seq_app, for_M_app. unfold mbind, M_bind.
  destruct (for_M _ (seq 0 i) st w) as [[sti|e] wi]; [|done].
  intros Hrest. by exists sti, wi.
Qed.



(** With no iteration the run returns the ciphertext under the inverse of
    the initial cipher, whatever [verbose] is. *)
Lemma process_decryption_0 `{StrLower} `{RandomLib}
    (corpus : list str) (encrypted : str) (iters : Z) (verbose : pyval)
    (w : world) :
  RandomLawful _ → canonical encrypted → (iters ≤ 0)%Z →
  let shuffled_letters := (random_shuffle (alphabet init) (py_rng w)).1 in
  process_decryption (trained init corpus) encrypted iters verbose w
  = (Ok (apply (invert (zip shuffled_letters (alphabet init))) encrypted),
     {| py_rng := (random_shuffle (alphabet init) (py_rng w)).2;
        np_rng := np_rng w; console := console w |}).
Proof.
  intros Hlaw Henc Hiters shuffled_letters.
  destruct (process_decryption_run corpus encrypted Hlaw Henc iters verbose w)
    as (sh & st0 & w0 & Hinit & _ & _ & Hrun).
  destruct (initial_chain_spec corpus encrypted Hlaw Henc w)
    as (s0 & _ & _ & Hinit').
  rewrite Hinit' in Hinit.
  apply Ok_pair_inj in Hinit as [[<- <-]%pair_equal_spec <-].
  rewrite Hrun. by replace (Z.to_nat iters) with 0 by lia.
Qed.

(** C5. A run with an acceptable [verbose] returns the ciphertext under
    the inverse of the best cipher the loop ends with; the mapping
    rebuilt from the sorted keys of that cipher has the lookups of its
    inverse; with zero iterations the loop ends in its initial state and
    the best cipher is the initial shuffled cipher. *)
Theorem process_decryption_returns_best `{StrLower} `{RandomLib}
    (corpus : list str) (self : EnigmaForDummies)
    (encrypted : str) (iters : Z) (verbose : pyval) (w : world) :
  prepare_empirical_freq_normalized init corpus = Ok self →
  RandomLawful _ → canonical encrypted → valid_verbose verbose →
  ∃ (shuffled_letters : str) (st0 st : chain) (w0 w' : world)
    (mapping : list (char * char)),
    initial_chain self encrypted w = (Ok (shuffled_letters, st0), w0)
    ∧ run_loop self encrypted shuffled_letters verbose (Z.to_nat iters) st0 w0
      = (Ok st, w')
    ∧ final_mapping (best_cifer st) = Ok mapping
    ∧ (∀ s, dict_get mapping s = dict_get (invert (best_cifer st)) s)
    ∧ encrypt_or_decrypt encrypted (invert (best_cifer st))
      = Ok (apply (invert (best_cifer st)) encrypted)
    ∧ process_decryption self encrypted iters verbose w
      = (Ok (apply (invert (best_cifer st)) encrypted), w')
    ∧ (iters = 0%Z →
         st = st0 ∧ w' = w0
         ∧ best_cifer st0 = dict_of_pairs (zip shuffled_letters (alphabet self))
         ∧ shuffled_letters = (random_shuffle (alphabet self) (py_rng w)).1).
Proof.
  intros Htrain. rewrite prepare_trained in Htrain.
  apply Ok_inj in Htrain. subst self.
  intros Hlaw Henc Hv.
  destruct (process_decryption_run corpus encrypted Hlaw Henc iters verbose w)
    as (sh & st0 & w0 & Hinit & Hsh & Hinv0 & Hrun).
  destruct (for_loop_valid corpus encrypted sh Hlaw Henc Hsh verbose
              (Z.to_nat iters) 0 st0 w0 Hv Hinv0) as (st & w' & Hloop).
  destruct (for_loop_Ok corpus encrypted sh Hlaw Henc Hsh verbose
              _ _ _ _ _ _ Hinv0 Hloop) as [(_ & Hbest & _) _].
  destruct (final_mapping_spec _ Hbest) as (mapping & Hmap & _ & Hget).
  fold (run_loop (trained init corpus) encrypted sh verbose (Z.to_nat iters))
    in Hloop.
  exists sh, st0, st, w0, w', mapping.
  split_and!; [done..| | |].
  - by apply encrypt_or_decrypt_apply; [apply is_cipher_invert|].
  - by rewrite Hrun, Hloop.
  - intros ->. unfold run_loop in Hloop. cbn [Z.to_nat seq for_M] in Hloop.
    unfold mret, M_ret in Hloop. injection Hloop as <- <-.
    destruct (initial_chain_spec corpus encrypted Hlaw Henc w)
      as (s0 & Hsh' & _ & Hinit').
    rewrite Hinit' in Hinit.
    apply Ok_pair_inj in Hinit as [[<- <-]%pair_equal_spec <-].
    split_and!; [done..| |done]. cbn [best_cifer].
    change (alphabet (trained init corpus)) with (alphabet init).
    symmetry. by apply zip_is_cipher.
Qed.

Lemma process_decryption_returns_best_witness :
  let corpus := [py "the cat sat on the mat"] in
  let self := @trained ascii_lower init corpus in
  let w := @mkWorld counter_random 3 7 [] in
  ∃ (st : chain) (w' : world),
    @process_decryption counter_random self (py "vjgbecv") 40 (PyInt 500) w
    = (Ok (apply (invert (best_cifer st)) (py "vjgbecv")), w').
Proof.
  intros corpus self w.
  destruct (@process_decryption_returns_best ascii_lower counter_random corpus
              self (py "vjgbecv") 40 (PyInt 500) w)
    as (sh & st0 & st & w0 & w' & mapping & _ & _ & _ & _ & _ & Hrun & _).
  - apply prepare_trained.
  - exact counter_random_lawful.
  - apply (bool_decide_unpack _); vm_compute; exact I.
  - right. reflexivity.
  - exists st, w'. exact Hrun.
Defined.

(** C10. The best score is never below the current score: the initial
    state has the best cipher and score equal to the current ones, every
    iteration that completes preserves the invariant whatever the
    acceptance outcome, so it holds after any number of iterations; and
    the text a run returns is the ciphertext under the inverse of a
    cipher whose score is at least the score of the final current
    cipher. *)
Theorem best_score_ge_current_score `{StrLower} `{RandomLib}
    (corpus : list str) (self : EnigmaForDummies)
    (encrypted : str) (iters : Z) (verbose : pyval) (w : world) :
  prepare_empirical_freq_normalized init corpus = Ok self →
  RandomLawful _ → canonical encrypted →
  ∃ (shuffled_letters : str) (st0 : chain) (w0 : world),
    initial_chain self encrypted w = (Ok (shuffled_letters, st0), w0)
    ∧ best_cifer st0 = current_cifer st0
    ∧ best_score st0 = current_score st0
    ∧ chain_inv self encrypted st0
    ∧ (∀ i st wi st' wi',
         chain_inv self encrypted st →
         loop_body self encrypted shuffled_letters verbose i st wi
         = (Ok st', wi') →
         chain_inv self encrypted st')
    ∧ (∀ n stn wn,
         run_loop self encrypted shuffled_letters verbose n st0 w0
         = (Ok stn, wn) →
         (current_score stn <= best_score stn)%R)
    ∧ (∀ text w',
         process_decryption self encrypted iters verbose w = (Ok text, w') →
         ∃ st best_score current_score,
           run_loop self encrypted shuffled_letters verbose (Z.to_nat iters)
             st0 w0 = (Ok st, w')
           ∧ text = apply (invert (best_cifer st)) encrypted
           ∧ score_cipher self (best_cifer st) encrypted = Ok best_score
           ∧ score_cipher self (current_cifer st) encrypted = Ok current_score
           ∧ (current_score <= best_score)%R)
    ∧ (valid_verbose verbose →
       ∃ text w',
         process_decryption self encrypted iters verbose w = (Ok text, w')).
Proof.
  intros Htrain. rewrite prepare_trained in Htrain.
  apply Ok_inj in Htrain. subst self.
  intros Hlaw Henc.
  destruct (process_decryption_run corpus encrypted Hlaw Henc iters verbose w)
    as (sh & st0 & w0 & Hinit & Hsh & Hinv0 & Hrun).
  destruct (initial_chain_spec corpus encrypted Hlaw Henc w)
    as (s0 & _ & _ & Hinit').
  pose proof Hinit as Hinit0. rewrite Hinit' in Hinit.
  apply Ok_pair_inj in Hinit as [[Hsh0 Hst0]%pair_equal_spec _].
  exists sh, st0, w0. split_and!; [done|by subst st0..|done| | | |].
  - intros i st wi st' wi' Hinv Hbody.
    by destruct (loop_body_Ok corpus encrypted sh Hlaw Henc Hsh verbose
                   i st wi st' wi' Hinv Hbody) as (_ & _ & Hinv' & _).
  - intros n stn wn Hn.
    destruct (for_loop_Ok corpus encrypted sh Hlaw Henc Hsh verbose
                n 0 st0 w0 stn wn Hinv0 Hn) as [Hinvn _].
    apply Hinvn.
  - intros text w' Hret. rewrite Hrun in Hret.
    destruct (run_loop _ _ _ _ _ st0 w0) as [[st|e] w1] eqn:Hloop; [|done].
    apply Ok_pair_inj in Hret as [<- <-].
    destruct (for_loop_Ok corpus encrypted sh Hlaw Henc Hsh verbose
                _ 0 st0 w0 st w1 Hinv0 Hloop)
      as [(_ & _ & Hscur & Hsbest & Hle) _].
    by exists st, (best_score st), (current_score st).
  - intros Hv.
    destruct (for_loop_valid corpus encrypted sh Hlaw Henc Hsh verbose
                (Z.to_nat iters) 0 st0 w0 Hv Hinv0) as (st & w' & Hloop).
    eexists _, w'. rewrite Hrun. unfold run_loop. by rewrite Hloop.
Qed.

Lemma best_score_ge_current_score_witness :
  let corpus := [py "the cat sat on the mat"] in
  let self := @trained ascii_lower init corpus in
  let w := @mkWorld counter_random 3 7 [] in
  ∃ text w',
    @process_decryption counter_random self (py "vjgbecv") 40 PyNone w
    = (Ok text, w').
Proof.
  intros corpus self w.
  destruct (@best_score_ge_current_score ascii_lower counter_random corpus
              self (py "vjgbecv") 40 PyNone w)
    as (sh & st0 & w0 & _ & _ & _ & _ & _ & _ & _ & Hret).
  - apply prepare_trained.
  - exact counter_random_lawful.
  - apply (bool_decide_unpack _); vm_compute; exact I.
  - apply Hret. left. reflexivity.
Defined.

(** C7. On an engine that was never trained, [process_decryption] stops
    at its assertion with the world untouched; [score_cipher] has no such
    check: on a text of fewer than two symbols it returns 0, and on a
    longer one it deciphers the text and only then misses the matrix. *)
Theorem untrained_engine_scoring `{RandomLib}
    (encrypted : str) (iters : Z) (verbose : pyval) (w : world) :
  emp_freq_prepared init = false
  ∧ process_decryption init encrypted iters verbose w
    = (Raise (AssertionError "Prepare empirical frequences first."), w)
  ∧ score_cipher init (zip (alphabet init) (alphabet init)) (py "") = Ok 0%R
  ∧ score_cipher init (zip (alphabet init) (alphabet init)) (py "a") = Ok 0%R
  ∧ encrypt_or_decrypt (py "ab") (invert (zip (alphabet init) (alphabet init)))
    = Ok (py "ab")
  ∧ score_cipher init (zip (alphabet init) (alphabet init)) (py "ab")
    = Raise (AttributeError "empirical_frequences").
Proof.
  set (c := invert (zip (alphabet init) (alphabet init))).
  assert (encrypt_or_decrypt (py "") c = Ok (py "")) as H0 by by vm_compute.
  assert (encrypt_or_decrypt (py "a") c = Ok (py "a")) as H1 by by vm_compute.
  assert (encrypt_or_decrypt (py "ab") c = Ok (py "ab")) as H2 by by vm_compute.
  split_and!; [done|done| | |done|].
  - unfold score_cipher. fold c. by rewrite H0.
  - unfold score_cipher. fold c. by rewrite H1.
  - unfold score_cipher. fold c. rewrite H2.
    cbn [mbind res_bind].
    change (seq 0 (length (py "ab") - 1)) with [0].
    cbn [mbind res_bind for_res]. unfold score_term.
    change (py "ab" !! 0) with (Some 97%N).
    change (py "ab" !! (0 + 1)) with (Some 98%N).
    cbn [or_raise mbind res_bind].
    assert (dict_get (char_index_mapping init) 97%N = Some 1) as ->
      by by vm_compute.
    assert (dict_get (char_index_mapping init) 98%N = Some 2) as ->
      by by vm_compute.
    done.
Qed.

(** ** The generators a run depends on *)

Section generator_facts.
Context `{RandomLib}.

Lemma gd_ret {A} (a : A) : generator_determined (mret a).
Proof. by intros w1 w2 Hw. Qed.

Lemma gd_lift {A} (r : res A) : generator_determined (lift r).
Proof. by intros w1 w2 Hw. Qed.

Lemma gd_bind {A B} (m : M A) (f : A → M B) :
  generator_determined m → (∀ a, generator_determined (f a)) →
  generator_determined (m ≫= f).
Proof.
  intros Hm Hf w1 w2 Hw. unfold mbind, M_bind.
  destruct (Hm w1 w2 Hw) as [Hr Hw'].
  destruct (m w1) as [[a1|e1] w1'], (m w2) as [[a2|e2] w2'];
    simpl in Hr, Hw'; simplify_eq; [|done].
  by apply Hf.
Qed.

Lemma gd_py_assert b msg : generator_determined (py_assert b msg).
Proof. apply gd_lift. Qed.

Lemma gd_shuffle x : generator_determined (shuffle x).
Proof.
  intros w1 w2 [Hpy Hnp]. rewrite !shuffle_eq, Hpy, Hnp. by split.
Qed.

Lemma gd_uniform01 : generator_determined uniform01.
Proof.
  intros w1 w2 [Hpy Hnp]. rewrite !uniform01_eq, Hpy, Hnp. by split.
Qed.

Lemma gd_choice2 a : generator_determined (choice2 a).
Proof.
  intros w1 w2 [Hpy Hnp]. rewrite !choice2_eq, Hpy, Hnp. by split.
Qed.

Lemma gd_print i s : generator_determined (print i s).
Proof. by intros w1 w2 [Hpy Hnp]. Qed.

Lemma gd_for_M {A S} (body : A → S → M S) l s :
  (∀ x s, generator_determined (body x s)) →
  generator_determined (for_M body l s).
Proof.
  intros Hbody. revert s. induction l as [|x l IH]; intros s.
  - apply gd_ret.
  - cbn [for_M]. by apply gd_bind.
Qed.

Lemma gd_propose self encrypted shuffled_letters c :
  generator_determined (propose self encrypted shuffled_letters c).
Proof.
  unfold propose. apply gd_bind; [apply gd_choice2|]. intros [r1 r2].
  repeat (apply gd_bind; [apply gd_lift|]; intros ?). apply gd_ret.
Qed.

Lemma gd_accepts new_score current_score :
  generator_determined (accepts new_score current_score).
Proof.
  unfold accepts. destruct (Rlt_dec current_score new_score);
    [apply gd_ret|]. apply gd_bind; [apply gd_uniform01|].
  intros u. apply gd_ret.
Qed.

Lemma gd_search_step self encrypted shuffled_letters st :
  generator_determined (search_step self encrypted shuffled_letters st).
Proof.
  unfold search_step. apply gd_bind; [apply gd_propose|]. intros [c s].
  apply gd_bind; [apply gd_accepts|]. intros accepted. apply gd_ret.
Qed.

Lemma gd_report encrypted verbose i st :
  generator_determined (report encrypted verbose i st).
Proof.
  unfold report. destruct (_ && _); [|apply gd_ret].
  apply gd_bind; [apply gd_py_assert|]. intros _.
  destruct verbose; try apply gd_ret.
  case_bool_decide; [|apply gd_ret].
  apply gd_bind; [apply gd_lift|]. intros best_attempt. apply gd_print.
Qed.

Lemma gd_loop_body self encrypted shuffled_letters verbose i st :
  generator_determined
    (loop_body self encrypted shuffled_letters verbose i st).
Proof.
  unfold loop_body. apply gd_bind; [apply gd_search_step|]. intros st1.
  apply gd_bind; [apply gd_report|]. intros _. apply gd_ret.
Qed.

Lemma gd_initial_chain self encrypted :
  generator_determined (initial_chain self encrypted).
Proof.
  unfold initial_chain. apply gd_bind; [apply gd_shuffle|]. intros sh.
  apply gd_bind; [apply gd_lift|]. intros s. apply gd_ret.
Qed.

Lemma gd_process_decryption self encrypted iters verbose :
  generator_determined (process_decryption self encrypted iters verbose).
Proof.
  unfold process_decryption. apply gd_bind; [apply gd_py_assert|]. intros _.
  apply gd_bind; [apply gd_initial_chain|]. intros [sh st0].
  apply gd_bind; [apply gd_for_M; intros; apply gd_loop_body|]. intros st.
  apply gd_bind; [apply gd_lift|]. intros mapping. apply gd_lift.
Qed.
End generator_facts.

(** * Further properties of the code *)

(** ** Applying a mapping *)

Lemma encrypt_or_decrypt_cons s text mapping :
  encrypt_or_decrypt (s :: text) mapping
  = (y ← or_raise KeyError (dict_get mapping s);
     k ← encrypt_or_decrypt text mapping; Ok (y :: k)).
Proof. reflexivity. Qed.

Lemma encrypt_or_decrypt_decide text (mapping : list (char * char)) :
  encrypt_or_decrypt text mapping
  = if decide (Forall (λ s, s ∈ dict_keys mapping) text)
    then Ok (apply mapping text) else Raise KeyError.
Proof.
  induction text as [|s text IH]; [done|].
  rewrite encrypt_or_decrypt_cons, IH. unfold dict_keys.
  destruct (dict_get mapping s) as [y|] eqn:Hs.
  - assert (s ∈ mapping.*1) as Hin by (apply dict_get_is_Some; eauto).
    cbn [or_raise mbind res_bind].
    destruct (decide (Forall (λ s, s ∈ mapping.*1) text)) as [Ht|Ht].
    + rewrite decide_True by by constructor.
      cbn [mbind res_bind]. unfold apply. csimpl. by rewrite Hs.
    + rewrite decide_False; [done|]. by intros [_ ?]%Forall_cons.
  - apply dict_get_None in Hs. cbn [or_raise mbind res_bind].
    rewrite decide_False; [done|]. by intros [? _]%Forall_cons.
Qed.

(** X1. [encrypt_or_decrypt] returns the text with every symbol replaced
    by its image, of the same length, when every symbol of the text is a
    key of the mapping, and raises KeyError otherwise; the empty text is
    returned for every mapping. *)
Theorem encrypt_or_decrypt_total_or_KeyError
    (text : str) (mapping : list (char * char)) :
  encrypt_or_decrypt text mapping
  = (if decide (Forall (λ s, s ∈ dict_keys mapping) text)
     then Ok (apply mapping text) else Raise KeyError)
  ∧ length (apply mapping text) = length text
  ∧ (∀ i s, text !! i = Some s →
       apply mapping text !! i = Some (default s (dict_get mapping s)))
  ∧ encrypt_or_decrypt [] mapping = Ok [].
Proof.
  split_and!; [apply encrypt_or_decrypt_decide| | |done].
  - unfold apply. by rewrite length_fmap.
  - intros i s Hi. unfold apply. by rewrite list_lookup_fmap, Hi.
Qed.

(** ** Canonical texts *)

Lemma filter_all {A} (f : A → bool) (l : list A) :
  Forall (λ x, f x = true) l → List.filter f l = l.
Proof.
  induction 1 as [|x l Hx _ IH]; [done|]. simpl. by rewrite Hx, IH.
Qed.

Lemma regex_sub_fixed s : canonical s → regex_sub s = s.
Proof.
  intros Hs. apply filter_all. eapply Forall_impl; [exact Hs|].
  intros c Hc. cbv beta. by apply negb_true_iff, regex_pattern_alphabet.
Qed.

(** X2. Removing the characters the pattern [[^a-z ]] matches leaves
    alphabet symbols only, leaves exactly the texts made of alphabet
    symbols unchanged, and is idempotent. *)
Theorem regex_sub_idempotent (s : str) :
  canonical (regex_sub s)
  ∧ regex_sub (regex_sub s) = regex_sub s
  ∧ (regex_sub s = s ↔ canonical s)
  ∧ length (regex_sub s) ≤ length s.
Proof.
  split_and!.
  - apply regex_sub_canonical.
  - apply regex_sub_fixed, regex_sub_canonical.
  - split; [intros <-; apply regex_sub_canonical|apply regex_sub_fixed].
  - unfold regex_sub. induction s as [|c s IH]; simpl; [done|].
    destruct (negb (regex_pattern c)); simpl; lia.
Qed.

(** ** Encryption *)

Lemma cipher_get_inj c s1 s2 v :
  is_cipher c → dict_get c s1 = Some v → dict_get c s2 = Some v → s1 = s2.
Proof.
  intros Hc H1 H2. apply (invert_get c _ _ Hc) in H1, H2. congruence.
Qed.

(** X3. On every text [encrypt_text] returns a text of alphabet symbols
    as long as the canonicalized input, in which two places hold the same
    symbol exactly when they do in the canonicalized input; it advances
    the generator of [random] by one shuffle and touches neither the
    numpy generator nor the console. *)
Theorem encrypt_text_substitution `{StrLower} `{RandomLib}
    (self : EnigmaForDummies) (text : str) (w : world) :
  RandomLawful _ → alphabet self = alphabet init →
  ∃ (ct : str) (w' : world),
    encrypt_text self text w = (Ok ct, w')
    ∧ canonical ct
    ∧ length ct = length (canonicalize text)
    ∧ (∀ i j x y, canonicalize text !! i = Some x →
         canonicalize text !! j = Some y →
         (ct !! i = ct !! j ↔ x = y))
    ∧ py_rng w' = (random_shuffle (alphabet self) (py_rng w)).2
    ∧ np_rng w' = np_rng w
    ∧ console w' = console w.
Proof.
  intros Hlaw Hself. pose proof (random_cifer_eq self w) as Hrc.
  destruct (zip_is_cipher (alphabet self)
              (random_shuffle (alphabet self) (py_rng w)).1) as [Hzip Hcip].
  { by rewrite Hself. }
  { by rewrite random_shuffle_perm, Hself. }
  rewrite Hzip in Hrc. set (rc := zip _ _) in *.
  pose proof (canonicalize_canonical text) as Hcan.
  exists (apply rc (canonicalize text)),
    {| py_rng := (random_shuffle (alphabet self) (py_rng w)).2;
       np_rng := np_rng w; console := console w |}.
  split_and!; [| | | |done..].
  - unfold encrypt_text. rewrite (M_bind_Ok _ _ _ _ _ Hrc). unfold lift.
    fold (canonicalize text). by rewrite encrypt_or_decrypt_apply.
  - by apply apply_canonical.
  - unfold apply. by rewrite length_fmap.
  - intros i j x y Hi Hj. unfold apply. rewrite !list_lookup_fmap, Hi, Hj.
    unfold canonical in Hcan. rewrite Forall_forall in Hcan.
    destruct (cipher_get rc x Hcip) as (vx & Hvx & _);
      [apply Hcan, list_elem_of_lookup; eauto|].
    destruct (cipher_get rc y Hcip) as (vy & Hvy & _);
      [apply Hcan, list_elem_of_lookup; eauto|].
    simpl. rewrite Hvx, Hvy. simpl. split.
    + intros Heq. injection Heq as ->. by eapply cipher_get_inj.
    + intros ->. congruence.
Qed.

Lemma encrypt_text_substitution_witness :
  ∃ (ct : str) (w' : world),
    @encrypt_text ascii_lower counter_random init (py "Attack at dawn!")
      (@mkWorld counter_random 5 0 []) = (Ok ct, w')
    ∧ length ct = 14.
Proof.
  destruct (@encrypt_text_substitution ascii_lower counter_random init
              (py "Attack at dawn!") (@mkWorld counter_random 5 0 []))
    as (ct & w' & Henc & _ & Hlen & _).
  - exact counter_random_lawful.
  - reflexivity.
  - exists ct, w'. split; [exact Henc|exact Hlen].
Defined.

(** ** Inverting a dictionary *)

Lemma dict_get_app {K V} `{EqDecision K} (d1 d2 : list (K * V)) k :
  dict_get (d1 ++ d2) k
  = match dict_get d1 k with Some v => Some v | None => dict_get d2 k end.
Proof.
  induction d1 as [|[k' v'] d1 IH]; [done|]. simpl. by case_decide.
Qed.

Lemma foldl_dict_set_get {K V} `{EqDecision K} (l d : list (K * V)) k :
  dict_get (foldl (λ d kv, dict_set kv.1 kv.2 d) d l) k
  = match dict_get (reverse l) k with
    | Some v => Some v
    | None => dict_get d k
    end.
Proof.
  revert d. induction l as [|[k' v'] l IH]; intros d; [done|].
  cbn [foldl fst snd]. rewrite IH, reverse_cons, dict_get_app.
  destruct (dict_get (reverse l) k); [done|]. simpl.
  destruct (decide (k' = k)) as [->|Hne].
  - by rewrite dict_get_set_eq.
  - by rewrite dict_get_set_ne.
Qed.

Lemma dict_of_pairs_get {K V} `{EqDecision K} (l : list (K * V)) k :
  dict_get (dict_of_pairs l) k = dict_get (reverse l) k.
Proof.
  unfold dict_of_pairs. rewrite foldl_dict_set_get.
  by destruct (dict_get (reverse l) k).
Qed.

Lemma dict_of_pairs_keys_NoDup {K V} `{EqDecision K} (l : list (K * V)) :
  NoDup (dict_of_pairs l).*1.
Proof.
  unfold dict_of_pairs.
  assert (NoDup ([] : list (K * V)).*1) as Hnil by constructor.
  revert Hnil. generalize ([] : list (K * V)).
  induction l as [|[k v] l IH]; intros d Hd; [done|].
  cbn [foldl]. by apply IH, dict_set_keys_NoDup.
Qed.

(** X4. For every dictionary, the comprehension [{v: k for k, v in
    cipher.items()}] has distinct keys, maps a value to the key of its last
    entry in [cipher] and holds exactly the values of [cipher] as keys; so
    looking a value up in the inverse and the result up in a [cipher] of
    distinct keys gives the value back. *)
Theorem invert_last_key_wins (cipher : list (char * char)) (v : char) :
  NoDup (dict_keys (invert cipher))
  ∧ dict_get (invert cipher) v
    = dict_get (reverse ((λ kv, (kv.2, kv.1)) <$> cipher)) v
  ∧ (is_Some (dict_get (invert cipher) v) ↔ v ∈ dict_values cipher)
  ∧ (∀ k, dict_get (invert cipher) v = Some k → (k, v) ∈ cipher)
  ∧ (∀ k, NoDup (dict_keys cipher) → dict_get (invert cipher) v = Some k →
       dict_get cipher k = Some v).
Proof.
  assert (∀ k, dict_get (invert cipher) v = Some k → (k, v) ∈ cipher) as Hin.
  { intros k. unfold invert. rewrite dict_of_pairs_get.
    intros Hget%dict_get_Some_elem. rewrite elem_of_reverse in Hget.
    apply list_elem_of_fmap in Hget as ([k' v'] & Heq & Hkv).
    by simplify_eq. }
  split_and!; [apply dict_of_pairs_keys_NoDup|apply dict_of_pairs_get| |done|].
  - unfold invert, dict_values. rewrite dict_of_pairs_get, dict_get_is_Some.
    rewrite <-fmap_reverse, <-list_fmap_compose, !list_elem_of_fmap.
    split.
    + intros ([k' v'] & -> & Hkv). rewrite elem_of_reverse in Hkv.
      by exists (k', v').
    + intros ([k' v'] & -> & Hkv). exists (k', v').
      split; [done|]. by rewrite elem_of_reverse.
  - intros k Hnd Hget. by apply elem_dict_get, Hin.
Qed.

(** X5. Inverting a bijective cipher twice gives the cipher back, entry
    for entry; the inverse is again a bijective cipher, and looking a
    symbol up in the cipher and the result in the inverse (or the other
    way round) gives the symbol back. *)
Theorem invert_involutive (c : list (char * char)) (s : char) :
  is_cipher c → s ∈ alphabet init →
  invert (invert c) = c
  ∧ is_cipher (invert c)
  ∧ dict_get c s ≫= dict_get (invert c) = Some s
  ∧ dict_get (invert c) s ≫= dict_get c = Some s.
Proof.
  intros Hc Hs. pose proof (is_cipher_invert c Hc) as Hic.
  assert (invert (invert c) = c) as Hinv.
  { rewrite (invert_fmap (invert c)) by by apply is_cipher_values_NoDup.
    rewrite (invert_fmap c) by by apply is_cipher_values_NoDup.
    rewrite <-list_fmap_compose. etrans; [|apply list_fmap_id].
    apply list_fmap_ext. by intros i [k v] _. }
  split_and!; [done..| |].
  - destruct (cipher_get c s Hc Hs) as (v & Hv & _). rewrite Hv. simpl.
    by apply invert_get.
  - destruct (cipher_get (invert c) s Hic Hs) as (k & Hk & _). rewrite Hk.
    simpl. rewrite <-Hinv at 1. by apply invert_get.
Qed.

Lemma invert_involutive_witness :
  let c := zip (alphabet init) (rotate 3 (alphabet init)) in
  invert (invert c) = c
  ∧ is_cipher (invert c)
  ∧ dict_get c 104%N ≫= dict_get (invert c) = Some 104%N
  ∧ dict_get (invert c) 104%N ≫= dict_get c = Some 104%N.
Proof.
  apply invert_involutive.
  - split; apply (bool_decide_unpack _); vm_compute; exact I.
  - apply (bool_decide_unpack _); vm_compute; exact I.
Defined.

(** ** Proposals, again *)

Lemma swap_get c a b k :
  is_cipher c → a ∈ alphabet init → b ∈ alphabet init →
  dict_get (swap c a b) k
  = if decide (k = a) then dict_get c b
    else if decide (k = b) then dict_get c a else dict_get c k.
Proof.
  intros Hc Ha Hb. pose proof (swap_is_cipher c a b Hc Ha Hb) as Hsw.
  destruct (cipher_get c a Hc Ha) as (va & Hva & _).
  destruct (cipher_get c b Hc Hb) as (vb & Hvb & _).
  destruct (dict_get c k) as [v|] eqn:Hk.
  - assert ((k, v) ∈ c) as Hin by by apply dict_get_Some_elem.
    rewrite (elem_dict_get (swap c a b) k
               (if decide (k = a) then vb else if decide (k = b) then va
                else v)).
    + repeat case_decide; by subst.
    + by apply is_cipher_keys_NoDup.
    + unfold swap. rewrite Hva, Hvb. apply list_elem_of_fmap.
      exists (k, v). split; [|done]. simpl. by repeat case_decide.
  - assert (k ∉ alphabet init) as Hnk.
    { destruct Hc as [<- _]. by apply dict_get_None. }
    rewrite !decide_False by (intros ->; done).
    apply dict_get_None. by rewrite swap_keys, <-dict_get_None.
Qed.

Lemma swap_comm c a b : swap c a b = swap c b a.
Proof.
  unfold swap. apply list_fmap_ext. intros i [k v] _. simpl.
  repeat case_decide; by subst.
Qed.

Lemma swap_swap c a b :
  is_cipher c → a ∈ alphabet init → b ∈ alphabet init →
  swap (swap c a b) a b = c.
Proof.
  intros Hc Ha Hb. pose proof (is_cipher_keys_NoDup c Hc) as Hnd.
  destruct (decide (b = a)) as [->|Hne];
    [by rewrite (swap_same c a Hnd), (swap_same c a Hnd)|].
  destruct (cipher_get c a Hc Ha) as (va & Hva & _).
  destruct (cipher_get c b Hc Hb) as (vb & Hvb & _).
  unfold swap at 1.
  rewrite (swap_get c a b a), (swap_get c a b b) by done.
  rewrite (decide_True (P := a = a)), (decide_False (P := b = a)),
    (decide_True (P := b = b)) by done.
  unfold swap. rewrite Hva, Hvb, <-list_fmap_compose.
  etrans; [|apply list_fmap_id]. apply list_fmap_ext.
  intros i [k v] Hi. simpl.
  assert (dict_get c k = Some v) as Hk.
  { apply elem_dict_get; [done|]. apply list_elem_of_lookup. eauto. }
  repeat (case_decide; simpl in *; subst); congruence.
Qed.

(** X6. A proposal keeps the cipher a bijection and changes it at the two
    drawn symbols only, whose images it exchanges; proposing again from
    the proposal with the same two symbols, in either order, gives the
    cipher one started from, with its score. *)
Theorem propose_reversible `{StrLower} `{RandomLib}
    (corpus : list str) (self : EnigmaForDummies)
    (encrypted shuffled_letters : str) (c : list (char * char))
    (w w' : world) :
  prepare_empirical_freq_normalized init corpus = Ok self →
  RandomLawful _ → canonical encrypted →
  shuffled_letters ≡ₚ alphabet init → is_cipher c →
  let r := (np_random_choice2 shuffled_letters (np_rng w)).1 in
  let r' := (np_random_choice2 shuffled_letters (np_rng w')).1 in
  r' = r ∨ r' = (r.2, r.1) →
  ∃ (c1 c2 : list (char * char)) (s1 s2 : R) (w1 w2 : world),
    propose self encrypted shuffled_letters c w = (Ok (c1, s1), w1)
    ∧ is_cipher c1
    ∧ (∀ k, dict_get c1 k
            = if decide (k = r.1) then dict_get c r.2
              else if decide (k = r.2) then dict_get c r.1
              else dict_get c k)
    ∧ propose self encrypted shuffled_letters c1 w' = (Ok (c2, s2), w2)
    ∧ c2 = c
    ∧ score_cipher self c encrypted = Ok s2.
Proof.
  intros Htrain. rewrite prepare_trained in Htrain.
  apply Ok_inj in Htrain. subst self.
  intros Hlaw Henc Hsh Hc r r' Hr.
  destruct (propose_spec corpus encrypted shuffled_letters Hlaw Henc Hsh c w Hc)
    as [Hc1 Hp1]. fold r in Hc1, Hp1.
  destruct (propose_spec corpus encrypted shuffled_letters Hlaw Henc Hsh
              _ w' Hc1) as [Hc2 Hp2]. fold r' in Hc2, Hp2.
  destruct (choice2_alphabet shuffled_letters Hlaw Hsh (np_rng w)) as [Ha Hb].
  fold r in Ha, Hb.
  assert (swap (swap c r.1 r.2) r'.1 r'.2 = c) as Hback.
  { destruct Hr as [->| ->]; [by apply swap_swap|].
    cbn [fst snd]. rewrite (swap_comm _ r.2 r.1). by apply swap_swap. }
  rewrite Hback in Hp2.
  eexists _, _, _, _, _, _. split_and!; [exact Hp1|done| |exact Hp2|done|].
  - intros k. by apply swap_get.
  - by apply score_cipher_trained.
Qed.

Lemma propose_reversible_witness :
  let corpus := [py "the cat sat on the mat"] in
  let self := @trained ascii_lower init corpus in
  let c := zip (alphabet init) (rotate 2 (alphabet init)) in
  ∃ (c1 : list (char * char)) (s1 s2 : R) (w1 w2 : world),
    @propose counter_random self (py "vjgbecv") (alphabet init) c
      (@mkWorld counter_random 0 31 []) = (Ok (c1, s1), w1)
    ∧ @propose counter_random self (py "vjgbecv") (alphabet init) c1
        (@mkWorld counter_random 9 31 []) = (Ok (c, s2), w2).
Proof.
  intros corpus self c.
  destruct (@propose_reversible ascii_lower counter_random corpus self
              (py "vjgbecv") (alphabet init) c
              (@mkWorld counter_random 0 31 [])
              (@mkWorld counter_random 9 31 []))
    as (c1 & c2 & s1 & s2 & w1 & w2 & H1 & _ & _ & H2 & -> & _).
  - apply prepare_trained.
  - exact counter_random_lawful.
  - apply (bool_decide_unpack _); vm_compute; exact I.
  - reflexivity.
  - split; apply (bool_decide_unpack _); vm_compute; exact I.
  - left. reflexivity.
  - exists c1, s1, s2, w1, w2. split; [exact H1|exact H2].
Defined.

(** ** Symbols outside the alphabet *)

Lemma encrypt_or_decrypt_noncanonical c t :
  is_cipher c → ¬ canonical t → encrypt_or_decrypt t c = Raise KeyError.
Proof.
  intros [Hk _] Ht. rewrite encrypt_or_decrypt_decide.
  rewrite decide_False; [done|]. intros Hall. apply Ht.
  eapply Forall_impl; [exact Hall|]. intros s Hs. cbv beta.
  unfold dict_keys in Hs. by rewrite Hk in Hs.
Qed.

(** X7. A ciphertext that holds a symbol outside the alphabet makes
    [score_cipher] raise KeyError for every bijective cipher, and makes
    [process_decryption] on a trained engine raise KeyError at the initial
    score, after the shuffle and before any iteration, whatever the
    iteration count and [verbose]. *)
Theorem noncanonical_ciphertext_KeyError `{StrLower} `{RandomLib}
    (corpus : list str) (self : EnigmaForDummies)
    (cipher : list (char * char)) (encrypted : str)
    (iters : Z) (verbose : pyval) (w : world) :
  prepare_empirical_freq_normalized init corpus = Ok self →
  RandomLawful _ → is_cipher cipher → ¬ canonical encrypted →
  score_cipher self cipher encrypted = Raise KeyError
  ∧ process_decryption self encrypted iters verbose w
    = (Raise KeyError,
       {| py_rng := (random_shuffle (alphabet init) (py_rng w)).2;
          np_rng := np_rng w; console := console w |}).
Proof.
  intros Htrain. rewrite prepare_trained in Htrain.
  apply Ok_inj in Htrain. subst self.
  intros Hlaw Hc Henc.
  assert (∀ c, is_cipher c →
            score_cipher (trained init corpus) c encrypted = Raise KeyError)
    as Hscore.
  { intros c Hcc. unfold score_cipher.
    rewrite encrypt_or_decrypt_noncanonical;
      [done|by apply is_cipher_invert|done]. }
  split; [by apply Hscore|].
  unfold process_decryption.
  change (emp_freq_prepared (trained init corpus)) with true.
  unfold py_assert, lift. unfold mbind at 1, M_bind at 1.
  unfold initial_chain. change (alphabet (trained init corpus)) with (alphabet init).
  unfold mbind at 1, M_bind at 1.
  rewrite (M_bind_Ok _ _ _ _ _ (shuffle_eq _ _)).
  destruct (zip_is_cipher (random_shuffle (alphabet init) (py_rng w)).1
              (alphabet init)) as [Hzip Hc0];
    [apply random_shuffle_perm, Hlaw|done|].
  rewrite Hzip. unfold lift, mbind, M_bind. by rewrite Hscore.
Qed.

Lemma noncanonical_ciphertext_KeyError_witness :
  let self := @trained ascii_lower init [py "the cat sat on the mat"] in
  score_cipher self (zip (alphabet init) (rotate 2 (alphabet init)))
    (py "Hello, world") = Raise KeyError
  ∧ @process_decryption counter_random self (py "Hello, world") 5000
      (PyInt 500) (@mkWorld counter_random 3 7 [])
    = (Raise KeyError, @mkWorld counter_random 4 7 []).
Proof.
  apply (@noncanonical_ciphertext_KeyError ascii_lower counter_random
           [py "the cat sat on the mat"]).
  - apply prepare_trained.
  - exact counter_random_lawful.
  - split; apply (bool_decide_unpack _); vm_compute; exact I.
  - apply (bool_decide_unpack _); vm_compute; exact I.
Defined.

(** ** Training, again *)

Lemma count_adjacent_short a b l : length l < 2 → count_adjacent a b l = 0%Z.
Proof. destruct l as [|x [|y l]]; simpl; (done || lia). Qed.

Lemma bigram_count_short `{StrLower} corpus a b :
  Forall (λ line, length (canonicalize line) < 2) corpus →
  bigram_count corpus a b = 0%Z.
Proof.
  induction 1 as [|line corpus Hline _ IH]; [done|].
  simpl. by rewrite IH, count_adjacent_short.
Qed.

Lemma bigram_count_Permutation `{StrLower} corpus1 corpus2 a b :
  corpus1 ≡ₚ corpus2 → bigram_count corpus1 a b = bigram_count corpus2 a b.
Proof. induction 1; simpl; lia. Qed.

Lemma bigram_model_ext `{StrLower} corpus1 corpus2 :
  (∀ a b, bigram_count corpus1 a b = bigram_count corpus2 a b) →
  bigram_model corpus1 = bigram_model corpus2.
Proof.
  intros Heq.
  assert (∀ i j, smoothed_count corpus1 i j = smoothed_count corpus2 i j)
    as Hsm by (intros i j; unfold smoothed_count; by rewrite Heq).
  unfold bigram_model. apply list_fmap_ext. intros _ i _. cbv zeta.
  rewrite (list_fmap_ext (smoothed_count corpus1 i) (smoothed_count corpus2 i))
    by (intros; apply Hsm).
  done.
Qed.

(** X8. When no line of the corpus canonicalizes to two symbols or more,
    as for the empty corpus, training succeeds and every cell of the
    matrix is 1/27. *)
Theorem prepare_without_bigrams_uniform `{StrLower}
    (self : EnigmaForDummies) (corpus : list str) :
  Forall (λ line, length (canonicalize line) < 2) corpus →
  ∃ m : list (list Q),
    prepare_empirical_freq_normalized self corpus
    = Ok {| emp_freq_prepared := true;
            alphabet := alphabet self;
            char_index_mapping := char_index_mapping self;
            empirical_frequences := Some m |}
    ∧ ∀ i j, i < 27 → j < 27 → (matrix_at m i j == 1 # 27)%Q.
Proof.
  intros Hshort. exists (bigram_model corpus).
  split; [apply prepare_trained|]. intros i j Hi Hj.
  rewrite bigram_model_at by done.
  assert (∀ i j, smoothed_count corpus i j = 2%Q) as Hsm.
  { intros i' j'. unfold smoothed_count. by rewrite bigram_count_short. }
  rewrite Hsm, (list_fmap_ext (smoothed_count corpus i) (λ _, 2%Q))
    by (intros; apply Hsm).
  by vm_compute.
Qed.

Lemma prepare_without_bigrams_uniform_witness :
  ∃ m : list (list Q),
    @prepare_empirical_freq_normalized ascii_lower init
      [py "A"; py "!?"; py ""; py "1 2"]
    = Ok {| emp_freq_prepared := true;
            alphabet := alphabet init;
            char_index_mapping := char_index_mapping init;
            empirical_frequences := Some m |}
    ∧ ∀ i j, i < 27 → j < 27 → (matrix_at m i j == 1 # 27)%Q.
Proof.
  apply (@prepare_without_bigrams_uniform ascii_lower).
  apply (bool_decide_unpack _); vm_compute; exact I.
Defined.

(** X9. The matrix training produces does not depend on the order of the
    lines of the corpus. *)
Theorem prepare_line_order_irrelevant `{StrLower}
    (self : EnigmaForDummies) (corpus1 corpus2 : list str) :
  corpus1 ≡ₚ corpus2 →
  prepare_empirical_freq_normalized self corpus1
  = prepare_empirical_freq_normalized self corpus2.
Proof.
  intros Hperm. rewrite !prepare_trained. unfold trained.
  rewrite (bigram_model_ext corpus1 corpus2); [done|].
  intros a b. by apply bigram_count_Permutation.
Qed.

Lemma prepare_line_order_irrelevant_witness :
  @prepare_empirical_freq_normalized ascii_lower init
    [py "the cat"; py "sat on"; py "the mat"]
  = @prepare_empirical_freq_normalized ascii_lower init
      [py "the mat"; py "the cat"; py "sat on"].
Proof.
  apply (@prepare_line_order_irrelevant ascii_lower).
  apply (bool_decide_unpack _); vm_compute; exact I.
Defined.

(** X10. The count of a seen bigram replaces the pseudocount 2, so in a
    row of the trained matrix a bigram seen once has half the cell of a
    bigram never seen, a bigram seen twice has the same cell, and only a
    bigram seen three times or more has a larger one. *)
Theorem observed_cell_against_unseen `{StrLower}
    (self : EnigmaForDummies) (corpus : list str) (i j k : nat) (n : Z) :
  i < 27 → j < 27 → k < 27 → (1 ≤ n)%Z →
  bigram_count corpus (alphabet init !!! i) (alphabet init !!! j) = n →
  bigram_count corpus (alphabet init !!! i) (alphabet init !!! k) = 0%Z →
  ∃ m : list (list Q),
    prepare_empirical_freq_normalized self corpus
    = Ok {| emp_freq_prepared := true;
            alphabet := alphabet self;
            char_index_mapping := char_index_mapping self;
            empirical_frequences := Some m |}
    ∧ (n = 1%Z → (matrix_at m i j * 2 == matrix_at m i k)%Q)
    ∧ (n = 2%Z → (matrix_at m i j == matrix_at m i k)%Q)
    ∧ ((3 ≤ n)%Z → (matrix_at m i k < matrix_at m i j)%Q).
Proof.
  intros Hi Hj Hk Hn Hij Hik. exists (bigram_model corpus).
  split; [apply prepare_trained|]. rewrite !bigram_model_at by done.
  unfold smoothed_count at 1 3 5 7 9 11. rewrite Hij, Hik.
  rewrite decide_True, decide_False by lia.
  pose proof (smoothed_row_sum_pos corpus i) as Hpos.
  set (s := row_sum (smoothed_count corpus i <$> seq 0 27)) in *.
  split_and!.
  - intros ->. unfold Qdiv. ring.
  - by intros ->.
  - intros H3. unfold Qdiv. apply Qmult_lt_compat_r; [by apply Qinv_lt_0_compat|].
    change 2%Q with (inject_Z 2). rewrite <-Zlt_Qlt. lia.
Qed.

Lemma observed_cell_against_unseen_witness :
  ∃ m : list (list Q),
    @prepare_empirical_freq_normalized ascii_lower init
      [py "the cat sat on the mat"]
    = Ok {| emp_freq_prepared := true;
            alphabet := alphabet init;
            char_index_mapping := char_index_mapping init;
            empirical_frequences := Some m |}
    ∧ (matrix_at m 3 1 * 2 == matrix_at m 3 26)%Q.
Proof.
  destruct (@observed_cell_against_unseen ascii_lower init
              [py "the cat sat on the mat"] 3 1 26 1)
    as (m & Hm & Honce & _); try lia; try reflexivity.
  exists m. split; [exact Hm|]. apply Honce. reflexivity.
Defined.

(** ** Runs, again *)

Section trace_facts.
Context `{StrLower} `{RandomLib}.
Variable corpus : list str.
Variable encrypted : str.
Variable shuffled_letters : str.
Hypothesis Hlaw : RandomLawful _.
Hypothesis Hencrypted : canonical encrypted.
Hypothesis Hshuffled : shuffled_letters ≡ₚ alphabet init.

Local Abbreviation self := (trained init corpus).

Lemma report_generators verbose i st w :
  py_rng (report encrypted verbose i st w).2 = py_rng w
  ∧ np_rng (report encrypted verbose i st w).2 = np_rng w.
Proof.
  unfold report. destruct (_ && _); [|done].
  unfold py_assert, lift, mbind, M_bind.
  destruct (positive_int verbose); [|done].
  destruct verbose; try done. case_bool_decide; [|done].
  by destruct (encrypt_or_decrypt _ _).
Qed.

Lemma report_console verbose i st w :
  valid_verbose verbose → is_cipher (best_cifer st) →
  report encrypted verbose i st w
  = (Ok (),
     {| py_rng := py_rng w; np_rng := np_rng w;
        console :=
          if reports verbose i
          then (i, take 100 (apply (invert (best_cifer st)) encrypted))
               :: console w
          else console w |}).
Proof.
  intros Hv Hbest. unfold report, reports.
  destruct (bool_decide (i mod 500 = 0)); cbn [andb]; [|by destruct w].
  destruct (truthy verbose) eqn:Ht.
  - destruct Hv as [Hv|Hv]; [congruence|]. rewrite Hv.
    destruct verbose as [| |z| |]; try done. cbn [positive_int] in Hv.
    rewrite Hv. cbn [andb]. unfold py_assert, lift, mbind, M_bind.
    case_bool_decide; [|by destruct w].
    by rewrite encrypt_or_decrypt_apply by by try apply is_cipher_invert.
  - destruct verbose as [| |z| |]; try by destruct w.
    cbn [truthy] in Ht. apply negb_false_iff, Z.eqb_eq in Ht. subst z.
    by destruct w.
Qed.

Lemma loop_body_trace verbose i st w :
  valid_verbose verbose → chain_inv self encrypted st →
  ∃ st',
    chain_inv self encrypted st'
    ∧ (search_step self encrypted shuffled_letters st w).1 = Ok st'
    ∧ loop_body self encrypted shuffled_letters verbose i st w
      = (Ok st',
         {| py_rng := py_rng (search_step self encrypted shuffled_letters st w).2;
            np_rng := (np_random_choice2 shuffled_letters (np_rng w)).2;
            console :=
              if reports verbose i
              then (i, take 100 (apply (invert (best_cifer st')) encrypted))
                   :: console w
              else console w |}).
Proof.
  intros Hv Hinv.
  destruct (search_step_inv corpus encrypted shuffled_letters
              Hlaw Hencrypted Hshuffled st w Hinv)
    as (st' & w1 & Hstep & Hinv' & _ & Hcons).
  destruct (search_step_spec corpus encrypted shuffled_letters
              Hlaw Hencrypted Hshuffled st w (proj1 Hinv))
    as (s & acc & _ & _ & _ & _ & Hstep').
  assert (np_rng w1 = (np_random_choice2 shuffled_letters (np_rng w)).2) as Hnp.
  { rewrite Hstep in Hstep'. by apply Ok_pair_inj in Hstep' as [_ ->]. }
  exists st'. split_and!; [done|by rewrite Hstep|].
  unfold loop_body. rewrite (M_bind_Ok _ _ _ _ _ Hstep).
  unfold mbind, M_bind.
  rewrite (report_console verbose i st' w1 Hv) by apply Hinv'.
  unfold mret, M_ret. rewrite Hstep. cbn [snd]. by rewrite Hnp, Hcons.
Qed.

Lemma for_loop_trace verbose n k st w :
  valid_verbose verbose → chain_inv self encrypted st →
  ∃ st' w' new,
    for_M (loop_body self encrypted shuffled_letters verbose) (seq k n) st w
    = (Ok st', w')
    ∧ chain_inv self encrypted st'
    ∧ np_rng w' = np_after shuffled_letters n (np_rng w)
    ∧ console w' = new ++ console w
    ∧ new.*1 = reverse (List.filter (reports verbose) (seq k n))
    ∧ Forall (λ e, length e.2 ≤ 100 ∧ canonical e.2) new.
Proof.
  intros Hv. revert k st w. induction n as [|n IH]; intros k st w Hinv.
  - exists st, w, []. by split_and!.
  - destruct (loop_body_trace verbose k st w Hv Hinv)
      as (st1 & Hinv1 & _ & Hbody).
    match type of Hbody with _ = (_, ?w1) =>
      destruct (IH (S k) st1 w1 Hinv1)
        as (st' & w' & new & Hrest & Hinv' & Hnp & Hcons & Hnew & Hall)
    end.
    cbn [np_rng console] in Hnp, Hcons.
    exists st', w'.
    exists (new ++ if reports verbose k
                   then [(k, take 100 (apply (invert (best_cifer st1))
                                         encrypted))]
                   else []).
    split_and!; [|done| | | |].
    + cbn [seq for_M]. by rewrite (M_bind_Ok _ _ _ _ _ Hbody).
    + rewrite Hnp. unfold np_after. by rewrite Nat.iter_succ_r.
    + rewrite Hcons, <-app_assoc. by destruct (reports verbose k).
    + cbn [seq List.filter]. rewrite fmap_app, Hnew.
      destruct (reports verbose k); [|by rewrite app_nil_r].
      by rewrite reverse_cons.
    + apply Forall_app. split; [done|].
      destruct (reports verbose k); [|done]. apply Forall_singleton.
      cbn [snd]. split; [rewrite length_take; lia|].
      apply Forall_take, apply_canonical; [apply is_cipher_invert|done].
      apply Hinv1.
Qed.
End trace_facts.

Lemma process_decryption_trace `{StrLower} `{RandomLib}
    (corpus : list str) (encrypted : str) (iters : Z) (verbose : pyval)
    (w : world) :
  RandomLawful _ → canonical encrypted → valid_verbose verbose →
  let shuffled_letters := (random_shuffle (alphabet init) (py_rng w)).1 in
  ∃ (st : chain) (w' : world) (new : list (nat * str)),
    chain_inv (trained init corpus) encrypted st
    ∧ process_decryption (trained init corpus) encrypted iters verbose w
      = (Ok (apply (invert (best_cifer st)) encrypted), w')
    ∧ np_rng w' = np_after shuffled_letters (Z.to_nat iters) (np_rng w)
    ∧ console w' = new ++ console w
    ∧ new.*1 = reverse (List.filter (reports verbose) (seq 0 (Z.to_nat iters)))
    ∧ Forall (λ e, length e.2 ≤ 100 ∧ canonical e.2) new.
Proof.
  intros Hlaw Henc Hv shuffled_letters.
  destruct (process_decryption_run corpus encrypted Hlaw Henc iters verbose w)
    as (sh & st0 & w0 & Hinit & Hsh & Hinv0 & Hrun).
  destruct (initial_chain_spec corpus encrypted Hlaw Henc w)
    as (s0 & _ & _ & Hinit').
  rewrite Hinit' in Hinit.
  apply Ok_pair_inj in Hinit as [[Hsh0 Hst0]%pair_equal_spec Hw0].
  fold shuffled_letters in Hsh0. subst sh.
  destruct (for_loop_trace corpus encrypted shuffled_letters Hlaw Henc Hsh
              verbose (Z.to_nat iters) 0 st0 w0 Hv Hinv0)
    as (st & w' & new & Hloop & Hinv & Hnp & Hcons & Hnew & Hall).
  exists st, w', new. unfold run_loop in Hrun. rewrite Hloop in Hrun.
  rewrite <-Hw0 in Hnp, Hcons. by split_and!.
Qed.

(** X11. With an acceptable [verbose], on a trained engine and a
    canonical ciphertext, [process_decryption] returns a text of alphabet
    symbols as long as the ciphertext, in which two places hold the same
    symbol exactly when they do in the ciphertext. *)
Theorem process_decryption_substitution `{StrLower} `{RandomLib}
    (corpus : list str) (self : EnigmaForDummies)
    (encrypted : str) (iters : Z) (verbose : pyval) (w : world) :
  prepare_empirical_freq_normalized init corpus = Ok self →
  RandomLawful _ → canonical encrypted → valid_verbose verbose →
  ∃ (text : str) (w' : world),
    process_decryption self encrypted iters verbose w = (Ok text, w')
    ∧ canonical text
    ∧ length text = length encrypted
    ∧ (∀ i j x y, encrypted !! i = Some x → encrypted !! j = Some y →
         (text !! i = text !! j ↔ x = y)).
Proof.
  intros Htrain. rewrite prepare_trained in Htrain.
  apply Ok_inj in Htrain. subst self.
  intros Hlaw Henc Hv.
  destruct (process_decryption_trace corpus encrypted iters verbose w
              Hlaw Henc Hv) as (st & w' & new & Hinv & Hrun & _).
  assert (is_cipher (invert (best_cifer st))) as Hib
    by apply is_cipher_invert, Hinv.
  eexists _, w'. split_and!; [exact Hrun| | |].
  - by apply apply_canonical.
  - unfold apply. by rewrite length_fmap.
  - intros i j x y Hi Hj. unfold apply. rewrite !list_lookup_fmap, Hi, Hj.
    unfold canonical in Henc. rewrite Forall_forall in Henc.
    destruct (cipher_get _ x Hib) as (vx & Hvx & _);
      [apply Henc, list_elem_of_lookup; eauto|].
    destruct (cipher_get _ y Hib) as (vy & Hvy & _);
      [apply Henc, list_elem_of_lookup; eauto|].
    simpl. rewrite Hvx, Hvy. simpl. split.
    + intros Heq. injection Heq as ->. by eapply cipher_get_inj.
    + intros ->. congruence.
Qed.

Lemma process_decryption_substitution_witness :
  let self := @trained ascii_lower init [py "the cat sat on the mat"] in
  ∃ (text : str) (w' : world),
    @process_decryption counter_random self (py "vjgbecv") 40 (PyInt 500)
      (@mkWorld counter_random 3 7 []) = (Ok text, w')
    ∧ length text = 7.
Proof.
  intros self.
  destruct (@process_decryption_substitution ascii_lower counter_random
              [py "the cat sat on the mat"] self (py "vjgbecv") 40 (PyInt 500)
              (@mkWorld counter_random 3 7 []))
    as (text & w' & Hrun & _ & Hlen & _).
  - apply prepare_trained.
  - exact counter_random_lawful.
  - apply (bool_decide_unpack _); vm_compute; exact I.
  - right. reflexivity.
  - exists text, w'. split; [exact Hrun|exact Hlen].
Defined.

(** X13. A run with an acceptable [verbose] prints once for every
    iteration number below the iteration count that is a multiple of 500
    and of a positive integer [verbose], in the order of the iterations
    (the console holds them latest first), and nothing else; every printed
    sample has at most 100 symbols, all of the alphabet; with a falsy
    [verbose] the console is left as it was. *)
Theorem process_decryption_prints `{StrLower} `{RandomLib}
    (corpus : list str) (self : EnigmaForDummies)
    (encrypted : str) (iters : Z) (verbose : pyval) (w : world) :
  prepare_empirical_freq_normalized init corpus = Ok self →
  RandomLawful _ → canonical encrypted → valid_verbose verbose →
  ∃ (text : str) (w' : world) (new : list (nat * str)),
    process_decryption self encrypted iters verbose w = (Ok text, w')
    ∧ console w' = new ++ console w
    ∧ new.*1 = reverse (List.filter (reports verbose) (seq 0 (Z.to_nat iters)))
    ∧ Forall (λ e, length e.2 ≤ 100 ∧ canonical e.2) new
    ∧ (truthy verbose = false → console w' = console w).
Proof.
  intros Htrain. rewrite prepare_trained in Htrain.
  apply Ok_inj in Htrain. subst self.
  intros Hlaw Henc Hv.
  destruct (process_decryption_trace corpus encrypted iters verbose w
              Hlaw Henc Hv)
    as (st & w' & new & _ & Hrun & _ & Hcons & Hnew & Hall).
  eexists _, w', new. split_and!; [exact Hrun|done..|].
  intros Hfalsy. rewrite Hcons.
  assert (List.filter (reports verbose) (seq 0 (Z.to_nat iters)) = []) as Hnone.
  { generalize (seq 0 (Z.to_nat iters)). intros l.
    induction l as [|i l IH]; [done|]. cbn [List.filter].
    assert (reports verbose i = false) as ->; [|done].
    unfold reports. destruct verbose as [| |z| |]; try by rewrite andb_false_r.
    cbn [truthy] in Hfalsy. apply negb_false_iff, Z.eqb_eq in Hfalsy.
    subst z. by rewrite andb_false_r. }
  rewrite Hnone in Hnew. by destruct new.
Qed.

Lemma process_decryption_prints_witness :
  let self := @trained ascii_lower init [py "the cat sat on the mat"] in
  ∃ (text : str) (w' : world) (new : list (nat * str)),
    @process_decryption counter_random self (py "vjgbecv") 1200 (PyInt 250)
      (@mkWorld counter_random 3 7 []) = (Ok text, w')
    ∧ console w' = new
    ∧ new.*1 = [1000; 500; 0].
Proof.
  intros self.
  destruct (@process_decryption_prints ascii_lower counter_random
              [py "the cat sat on the mat"] self (py "vjgbecv") 1200
              (PyInt 250) (@mkWorld counter_random 3 7 []))
    as (text & w' & new & Hrun & Hcons & Hnew & _).
  - apply prepare_trained.
  - exact counter_random_lawful.
  - apply (bool_decide_unpack _); vm_compute; exact I.
  - right. reflexivity.
  - exists text, w', new. split_and!; [exact Hrun| |].
    + rewrite Hcons. apply app_nil_r.
    + rewrite Hnew. vm_compute. reflexivity.
Defined.

Lemma for_loop_verbose `{StrLower} `{RandomLib}
    (corpus : list str) (encrypted shuffled_letters : str)
    (verbose1 verbose2 : pyval) n k st w1 w2 :
  RandomLawful _ → canonical encrypted →
  shuffled_letters ≡ₚ alphabet init →
  valid_verbose verbose1 → valid_verbose verbose2 →
  chain_inv (trained init corpus) encrypted st → same_generators w1 w2 →
  ∃ st' w1' w2',
    for_M (loop_body (trained init corpus) encrypted shuffled_letters verbose1)
      (seq k n) st w1 = (Ok st', w1')
    ∧ for_M (loop_body (trained init corpus) encrypted shuffled_letters
               verbose2) (seq k n) st w2 = (Ok st', w2')
    ∧ same_generators w1' w2'.
Proof.
  intros Hlaw Henc Hsh Hv1 Hv2. revert k st w1 w2.
  induction n as [|n IH]; intros k st w1 w2 Hinv Hw.
  - by exists st, w1, w2.
  - destruct (loop_body_trace corpus encrypted shuffled_letters Hlaw Henc Hsh
                verbose1 k st w1 Hv1 Hinv) as (st1 & Hinv1 & Hs1 & Hb1).
    destruct (loop_body_trace corpus encrypted shuffled_letters Hlaw Henc Hsh
                verbose2 k st w2 Hv2 Hinv) as (st2 & _ & Hs2 & Hb2).
    destruct (gd_search_step (trained init corpus) encrypted shuffled_letters
                st w1 w2 Hw) as [Hres [Hpy _]].
    rewrite Hs1, Hs2 in Hres. apply Ok_inj in Hres. subst st2.
    match type of Hb1 with _ = (_, ?a) =>
      match type of Hb2 with _ = (_, ?b) =>
        destruct (IH (S k) st1 a b Hinv1) as (st' & w1' & w2' & H1 & H2 & Hw')
      end
    end.
    { split; cbn [py_rng np_rng]; [done|]. by destruct Hw as [_ ->]. }
    exists st', w1', w2'. cbn [seq for_M].
    by rewrite (M_bind_Ok _ _ _ _ _ Hb1), (M_bind_Ok _ _ _ _ _ Hb2).
Qed.

(** X12. The reporting interval is a side channel: two runs from the same
    world with two acceptable values of [verbose] return the same text and
    leave both generators in the same states. *)
Theorem process_decryption_verbose_irrelevant `{StrLower} `{RandomLib}
    (corpus : list str) (self : EnigmaForDummies)
    (encrypted : str) (iters : Z) (verbose1 verbose2 : pyval) (w : world) :
  prepare_empirical_freq_normalized init corpus = Ok self →
  RandomLawful _ → canonical encrypted →
  valid_verbose verbose1 → valid_verbose verbose2 →
  ∃ (text : str) (w1 w2 : world),
    process_decryption self encrypted iters verbose1 w = (Ok text, w1)
    ∧ process_decryption self encrypted iters verbose2 w = (Ok text, w2)
    ∧ py_rng w1 = py_rng w2
    ∧ np_rng w1 = np_rng w2.
Proof.
  intros Htrain. rewrite prepare_trained in Htrain.
  apply Ok_inj in Htrain. subst self.
  intros Hlaw Henc Hv1 Hv2.
  destruct (process_decryption_run corpus encrypted Hlaw Henc iters verbose1 w)
    as (sh & st0 & w0 & Hinit & Hsh & Hinv0 & Hrun1).
  destruct (process_decryption_run corpus encrypted Hlaw Henc iters verbose2 w)
    as (sh' & st0' & w0' & Hinit' & _ & _ & Hrun2).
  rewrite Hinit in Hinit'.
  apply Ok_pair_inj in Hinit' as [[<- <-]%pair_equal_spec <-].
  destruct (for_loop_verbose corpus encrypted sh verbose1 verbose2
              (Z.to_nat iters) 0 st0 w0 w0 Hlaw Henc Hsh Hv1 Hv2 Hinv0)
    as (st & w1 & w2 & H1 & H2 & Hpy & Hnp); [done|].
  unfold run_loop in Hrun1, Hrun2. rewrite H1 in Hrun1. rewrite H2 in Hrun2.
  by eexists _, w1, w2.
Qed.

Lemma process_decryption_verbose_irrelevant_witness :
  let self := @trained ascii_lower init [py "the cat sat on the mat"] in
  ∃ (text : str) (w1 w2 : world),
    @process_decryption counter_random self (py "vjgbecv") 600 (PyInt 100)
      (@mkWorld counter_random 3 7 []) = (Ok text, w1)
    ∧ @process_decryption counter_random self (py "vjgbecv") 600
        (PyBool false) (@mkWorld counter_random 3 7 []) = (Ok text, w2).
Proof.
  intros self.
  destruct (@process_decryption_verbose_irrelevant ascii_lower counter_random
              [py "the cat sat on the mat"] self (py "vjgbecv") 600
              (PyInt 100) (PyBool false) (@mkWorld counter_random 3 7 []))
    as (text & w1 & w2 & H1 & H2 & _).
  - apply prepare_trained.
  - exact counter_random_lawful.
  - apply (bool_decide_unpack _); vm_compute; exact I.
  - right. reflexivity.
  - left. reflexivity.
  - exists text, w1, w2. split; [exact H1|exact H2].
Defined.

(** X14. A run of [n] iterations calls [np.random.choice] exactly [n]
    times, always on the shuffled letters: the numpy generator ends in the
    state [n] such calls lead to, whatever was accepted, and a negative
    iteration count is a run of no iteration. *)
Theorem process_decryption_numpy_draws `{StrLower} `{RandomLib}
    (corpus : list str) (self : EnigmaForDummies)
    (encrypted : str) (iters : Z) (verbose : pyval) (w : world) :
  prepare_empirical_freq_normalized init corpus = Ok self →
  RandomLawful _ → canonical encrypted → valid_verbose verbose →
  let shuffled_letters := (random_shuffle (alphabet init) (py_rng w)).1 in
  ∃ (text : str) (w' : world),
    process_decryption self encrypted iters verbose w = (Ok text, w')
    ∧ np_rng w' = np_after shuffled_letters (Z.to_nat iters) (np_rng w)
    ∧ ((iters ≤ 0)%Z → np_rng w' = np_rng w).
Proof.
  intros Htrain. rewrite prepare_trained in Htrain.
  apply Ok_inj in Htrain. subst self.
  intros Hlaw Henc Hv shuffled_letters.
  destruct (process_decryption_trace corpus encrypted iters verbose w
              Hlaw Henc Hv) as (st & w' & new & _ & Hrun & Hnp & _).
  eexists _, w'. split_and!; [exact Hrun|exact Hnp|].
  intros Hle. rewrite Hnp. by replace (Z.to_nat iters) with 0 by lia.
Qed.

Lemma process_decryption_numpy_draws_witness :
  let self := @trained ascii_lower init [py "the cat sat on the mat"] in
  ∃ (text : str) (w' : world),
    @process_decryption counter_random self (py "vjgbecv") 40 PyNone
      (@mkWorld counter_random 3 7 []) = (Ok text, w')
    ∧ np_rng w' = 47.
Proof.
  intros self.
  destruct (@process_decryption_numpy_draws ascii_lower counter_random
              [py "the cat sat on the mat"] self (py "vjgbecv") 40 PyNone
              (@mkWorld counter_random 3 7 []))
    as (text & w' & Hrun & Hnp & _).
  - apply prepare_trained.
  - exact counter_random_lawful.
  - apply (bool_decide_unpack _); vm_compute; exact I.
  - left. reflexivity.
  - exists text, w'. split; [exact Hrun|]. rewrite Hnp. reflexivity.
Defined.

(** X15. The cipher a text was encrypted with scores, on the encrypted
    text, the log-likelihood of the text itself. *)
Theorem score_cipher_of_true_cipher `{StrLower}
    (corpus : list str) (self : EnigmaForDummies)
    (cipher : list (char * char)) (text : str) :
  prepare_empirical_freq_normalized init corpus = Ok self →
  is_cipher cipher → canonical text →
  ∃ (encrypted : str) (m : list (list Q)),
    encrypt_or_decrypt text cipher = Ok encrypted
    ∧ empirical_frequences self = Some m
    ∧ score_cipher self cipher encrypted = Ok (log_likelihood m text).
Proof.
  rewrite prepare_trained. intros Htrain%Ok_inj Hc Ht. subst self.
  exists (apply cipher text), (bigram_model corpus).
  split_and!; [by apply encrypt_or_decrypt_apply|done|].
  rewrite score_cipher_trained by by try apply apply_canonical.
  by rewrite apply_invert_apply.
Qed.

Lemma score_cipher_of_true_cipher_witness :
  let self := @trained ascii_lower init [py "the cat sat on the mat"] in
  let cipher := zip (alphabet init) (rotate 2 (alphabet init)) in
  ∃ (encrypted : str) (m : list (list Q)),
    encrypt_or_decrypt (py "the cat") cipher = Ok encrypted
    ∧ empirical_frequences self = Some m
    ∧ score_cipher self cipher encrypted = Ok (log_likelihood m (py "the cat")).
Proof.
  apply (@score_cipher_of_true_cipher ascii_lower
           [py "the cat sat on the mat"]).
  - apply prepare_trained.
  - split; apply (bool_decide_unpack _); vm_compute; exact I.
  - apply (bool_decide_unpack _); vm_compute; exact I.
Defined.

(** ** The demo *)

Lemma encrypt_text_apply `{StrLower} `{RandomLib} self text w :
  RandomLawful _ → alphabet self = alphabet init →
  ∃ rc, is_cipher rc
    ∧ encrypt_text self text w
      = (Ok (apply rc (canonicalize text)),
         {| py_rng := (random_shuffle (alphabet self) (py_rng w)).2;
            np_rng := np_rng w; console := console w |}).
Proof.
  intros Hlaw Hself. pose proof (random_cifer_eq self w) as Hrc.
  destruct (zip_is_cipher (alphabet self)
              (random_shuffle (alphabet self) (py_rng w)).1) as [Hzip Hcip].
  { by rewrite Hself. }
  { by rewrite random_shuffle_perm, Hself. }
  rewrite Hzip in Hrc. eexists. split; [exact Hcip|].
  unfold encrypt_text. rewrite (M_bind_Ok _ _ _ _ _ Hrc). unfold lift.
  fold (canonicalize text).
  by rewrite encrypt_or_decrypt_apply by by try apply canonicalize_canonical.
Qed.

(** X16. The demo never fails, whatever the corpus and the plain text: the
    text [encrypt_text] returns is always accepted by [process_decryption]
    on the freshly trained engine; the two texts it shows are the first
    500 symbols of the encrypted and of the decrypted text, both of
    alphabet symbols and equally long, and the search prints ten samples,
    at the iterations 0, 500, ..., 4500. *)
Theorem main_runs `{StrLower} `{RandomLib}
    (corpus : list str) (plain_text : str) (w : world) :
  RandomLawful _ →
  ∃ (encrypted decrypted : str) (w' : world) (new : list (nat * str)),
    main corpus plain_text w = (Ok (encrypted, decrypted), w')
    ∧ length encrypted = length (canonicalize plain_text) `min` 500
    ∧ length decrypted = length encrypted
    ∧ canonical encrypted
    ∧ canonical decrypted
    ∧ console w' = new ++ console w
    ∧ new.*1 = [4500; 4000; 3500; 3000; 2500; 2000; 1500; 1000; 500; 0].
Proof.
  intros Hlaw.
  destruct (encrypt_text_apply (trained init corpus) plain_text w Hlaw)
    as (rc & Hrc & Henc); [done|].
  assert (canonical (apply rc (canonicalize plain_text))) as Hct
    by by apply apply_canonical, canonicalize_canonical.
  match type of Henc with _ = (_, ?w1) =>
    destruct (process_decryption_trace corpus
                (apply rc (canonicalize plain_text)) 5000 (PyInt 500) w1
                Hlaw Hct)
      as (st & w' & new & Hinv & Hrun & _ & Hcons & Hnew & _)
  end; [by right|].
  cbn [console] in Hcons.
  assert (canonical (apply (invert (best_cifer st))
                       (apply rc (canonicalize plain_text)))) as Hpt.
  { apply apply_canonical; [apply is_cipher_invert, Hinv|done]. }
  eexists _, _, w', new. split_and!.
  - unfold main. rewrite prepare_trained. unfold lift at 1.
    unfold mbind at 1, M_bind at 1.
    rewrite (M_bind_Ok _ _ _ _ _ Henc), (M_bind_Ok _ _ _ _ _ Hrun). done.
  - rewrite length_take. unfold apply. rewrite length_fmap. lia.
  - rewrite !length_take. unfold apply. by rewrite !length_fmap.
  - by apply Forall_take.
  - by apply Forall_take.
  - done.
  - rewrite Hnew. by vm_compute.
Qed.

Lemma main_runs_witness :
  ∃ (encrypted decrypted : str) (w' : world),
    @main ascii_lower counter_random [py "the cat sat on the mat"]
      (py "Alice was beginning to get very tired")
      (@mkWorld counter_random 3 7 []) = (Ok (encrypted, decrypted), w')
    ∧ length encrypted = 37
    ∧ length decrypted = 37.
Proof.
  destruct (@main_runs ascii_lower counter_random
              [py "the cat sat on the mat"]
              (py "Alice was beginning to get very tired")
              (@mkWorld counter_random 3 7 []))
    as (e & d & w' & new & Hmain & He & Hd & _).
  - exact counter_random_lawful.
  - exists e, d, w'. split_and!; [exact Hmain|exact He|].
    rewrite Hd. exact He.
Defined.

(** ** Iterations, again *)

(** X17. An iteration calls [np.random.choice] once, and calls
    [random.uniform] once exactly when the proposal does not score
    strictly above the current cipher; it prints nothing. *)
Theorem search_step_draws `{StrLower} `{RandomLib}
    (corpus : list str) (self : EnigmaForDummies)
    (encrypted shuffled_letters : str) (st : chain) (w : world) :
  prepare_empirical_freq_normalized init corpus = Ok self →
  RandomLawful _ → canonical encrypted →
  shuffled_letters ≡ₚ alphabet init →
  chain_inv self encrypted st →
  let r := (np_random_choice2 shuffled_letters (np_rng w)).1 in
  ∃ (candidate_score : R) (st' : chain) (w' : world),
    score_cipher self (swap (current_cifer st) r.1 r.2) encrypted
    = Ok candidate_score
    ∧ search_step self encrypted shuffled_letters st w = (Ok st', w')
    ∧ np_rng w' = (np_random_choice2 shuffled_letters (np_rng w)).2
    ∧ ((current_score st < candidate_score)%R → py_rng w' = py_rng w)
    ∧ (¬ (current_score st < candidate_score)%R →
       py_rng w' = (random_uniform01 (py_rng w)).2)
    ∧ console w' = console w.
Proof.
  intros Htrain. rewrite prepare_trained in Htrain.
  apply Ok_inj in Htrain. subst self.
  intros Hlaw Henc Hsh Hinv r.
  destruct (search_step_spec corpus encrypted shuffled_letters
              Hlaw Henc Hsh st w (proj1 Hinv))
    as (s & accepted & _ & Hs & _ & _ & Hstep).
  eexists s, _, _. split_and!; [exact Hs|exact Hstep|done| | |done];
    cbn [py_rng]; intros Hlt; by destruct (Rlt_dec (current_score st) s).
Qed.

Lemma search_step_draws_witness :
  let corpus := [py "the cat sat on the mat"] in
  let self := @trained ascii_lower init corpus in
  let c := zip (alphabet init) (rotate 2 (alphabet init)) in
  let s := log_likelihood (@bigram_model ascii_lower corpus)
             (apply (invert c) (py "vjgbecv")) in
  let st := {| current_cifer := c; current_score := s;
               best_cifer := c; best_score := s |} in
  ∃ (st' : chain) (w' : world),
    @search_step counter_random self (py "vjgbecv") (alphabet init) st
      (@mkWorld counter_random 4 31 []) = (Ok st', w')
    ∧ np_rng w' = 32
    ∧ console w' = [].
Proof.
  intros corpus self c s st.
  assert (is_cipher c) as Hc
    by (split; apply (bool_decide_unpack _); vm_compute; exact I).
  assert (canonical (py "vjgbecv")) as Henc
    by (apply (bool_decide_unpack _); vm_compute; exact I).
  destruct (@search_step_draws ascii_lower counter_random corpus self
              (py "vjgbecv") (alphabet init) st
              (@mkWorld counter_random 4 31 []))
    as (s' & st' & w' & _ & Hstep & Hnp & _ & _ & Hcons).
  - apply prepare_trained.
  - exact counter_random_lawful.
  - exact Henc.
  - reflexivity.
  - unfold chain_inv, st, self.
    cbn [current_cifer current_score best_cifer best_score].
    rewrite (@score_cipher_trained ascii_lower corpus c _ Hc Henc).
    split_and!; [exact Hc|exact Hc|reflexivity|reflexivity|apply Rle_refl].
  - exists st', w'. split_and!; [exact Hstep|exact Hnp|exact Hcons].
Defined.

(** X18. In an iteration a proposal that scores strictly above the best
    score is always accepted, so that afterwards the current and the best
    cipher are both the proposal: the best cipher only ever changes to the
    cipher the chain moves to. *)
Theorem best_update_is_accepted `{StrLower} `{RandomLib}
    (corpus : list str) (self : EnigmaForDummies)
    (encrypted shuffled_letters : str) (st : chain) (w : world) :
  prepare_empirical_freq_normalized init corpus = Ok self →
  RandomLawful _ → canonical encrypted →
  shuffled_letters ≡ₚ alphabet init →
  chain_inv self encrypted st →
  let r := (np_random_choice2 shuffled_letters (np_rng w)).1 in
  let candidate := swap (current_cifer st) r.1 r.2 in
  ∃ (candidate_score : R) (st' : chain) (w' : world),
    score_cipher self candidate encrypted = Ok candidate_score
    ∧ search_step self encrypted shuffled_letters st w = (Ok st', w')
    ∧ ((best_score st < candidate_score)%R →
       st' = {| current_cifer := candidate; current_score := candidate_score;
                best_cifer := candidate; best_score := candidate_score |})
    ∧ (best_cifer st' ≠ best_cifer st →
       best_cifer st' = current_cifer st'
       ∧ best_score st' = current_score st').
Proof.
  intros Htrain. rewrite prepare_trained in Htrain.
  apply Ok_inj in Htrain. subst self.
  intros Hlaw Henc Hsh Hinv r candidate.
  destruct (search_step_spec corpus encrypted shuffled_letters
              Hlaw Henc Hsh st w (proj1 Hinv))
    as (s & accepted & _ & Hs & Hacc & _ & Hstep).
  destruct Hinv as (_ & _ & _ & _ & Hle).
  fold r candidate in Hs, Hstep.
  assert ((best_score st < s)%R → accepted = true) as Hbetter.
  { intros Hlt. apply Hacc. left. lra. }
  eexists s, _, _. split_and!; [exact Hs|exact Hstep|..].
  - intros Hlt. rewrite (Hbetter Hlt).
    by destruct (Rlt_dec (best_score st) s).
  - cbn [best_cifer best_score current_cifer current_score].
    destruct (Rlt_dec (best_score st) s) as [Hlt|Hnlt]; [|done].
    intros _. by rewrite (Hbetter Hlt).
Qed.

Lemma best_update_is_accepted_witness :
  let corpus := [py "the cat sat on the mat"] in
  let self := @trained ascii_lower init corpus in
  let c := zip (alphabet init) (rotate 2 (alphabet init)) in
  let s := log_likelihood (@bigram_model ascii_lower corpus)
             (apply (invert c) (py "vjgbecv")) in
  let st := {| current_cifer := c; current_score := s;
               best_cifer := c; best_score := s |} in
  ∃ (st' : chain) (w' : world),
    @search_step counter_random self (py "vjgbecv") (alphabet init) st
      (@mkWorld counter_random 4 31 []) = (Ok st', w')
    ∧ (best_cifer st' ≠ best_cifer st → best_cifer st' = current_cifer st').
Proof.
  intros corpus self c s st.
  assert (is_cipher c) as Hc
    by (split; apply (bool_decide_unpack _); vm_compute; exact I).
  assert (canonical (py "vjgbecv")) as Henc
    by (apply (bool_decide_unpack _); vm_compute; exact I).
  destruct (@best_update_is_accepted ascii_lower counter_random corpus self
              (py "vjgbecv") (alphabet init) st
              (@mkWorld counter_random 4 31 []))
    as (s' & st' & w' & _ & Hstep & _ & Hbest).
  - apply prepare_trained.
  - exact counter_random_lawful.
  - exact Henc.
  - reflexivity.
  - unfold chain_inv, st, self.
    cbn [current_cifer current_score best_cifer best_score].
    rewrite (@score_cipher_trained ascii_lower corpus c _ Hc Henc).
    split_and!; [exact Hc|exact Hc|reflexivity|reflexivity|apply Rle_refl].
  - exists st', w'. split; [exact Hstep|].
    intros Hne. exact (proj1 (Hbest Hne)).
Defined.

(** X19. The best score a run ends with is at least the current score of
    every state the chain went through, the initial one included. *)
Theorem best_score_bounds_visited `{StrLower} `{RandomLib}
    (corpus : list str) (self : EnigmaForDummies)
    (encrypted : str) (iters : Z) (verbose : pyval) (w : world) :
  prepare_empirical_freq_normalized init corpus = Ok self →
  RandomLawful _ → canonical encrypted → valid_verbose verbose →
  ∃ (shuffled_letters : str) (st0 st : chain) (w0 w' : world) (score : R),
    initial_chain self encrypted w = (Ok (shuffled_letters, st0), w0)
    ∧ run_loop self encrypted shuffled_letters verbose (Z.to_nat iters) st0 w0
      = (Ok st, w')
    ∧ process_decryption self encrypted iters verbose w
      = (Ok (apply (invert (best_cifer st)) encrypted), w')
    ∧ score_cipher self (best_cifer st) encrypted = Ok score
    ∧ ∀ i sti wi, i ≤ Z.to_nat iters →
        run_loop self encrypted shuffled_letters verbose i st0 w0
        = (Ok sti, wi) →
        score_cipher self (current_cifer sti) encrypted
        = Ok (current_score sti)
        ∧ (current_score sti <= score)%R.
Proof.
  intros Htrain. rewrite prepare_trained in Htrain.
  apply Ok_inj in Htrain. subst self.
  intros Hlaw Henc Hv.
  destruct (process_decryption_run corpus encrypted Hlaw Henc iters verbose w)
    as (sh & st0 & w0 & Hinit & Hsh & Hinv0 & Hrun).
  destruct (for_loop_valid corpus encrypted sh Hlaw Henc Hsh verbose
              (Z.to_nat iters) 0 st0 w0 Hv Hinv0) as (st & w' & Hloop).
  pose proof Hloop as Hloop'.
  fold (run_loop (trained init corpus) encrypted sh verbose (Z.to_nat iters))
    in Hloop'.
  destruct (for_loop_Ok corpus encrypted sh Hlaw Henc Hsh verbose
              _ _ _ _ _ _ Hinv0 Hloop) as [(_ & _ & _ & Hsbest & _) _].
  exists sh, st0, st, w0, w', (best_score st).
  split_and!; [done|done|by rewrite Hrun, Hloop'|done|].
  intros i sti wi Hi Hsti.
  destruct (run_loop_prefix _ _ _ _ i _ _ _ _ _ Hi Hloop')
    as (sti' & wi' & Hi' & Hrest).
  rewrite Hsti in Hi'. apply Ok_pair_inj in Hi' as [<- <-].
  destruct (for_loop_Ok corpus encrypted sh Hlaw Henc Hsh verbose
              i 0 st0 w0 sti wi Hinv0 Hsti) as [Hinvi _].
  destruct (for_loop_Ok corpus encrypted sh Hlaw Henc Hsh verbose
              _ _ _ _ _ _ Hinvi Hrest) as [_ Hle].
  destruct Hinvi as (_ & _ & Hscur & _ & Hcb). split; [done|lra].
Qed.

Lemma best_score_bounds_visited_witness :
  let self := @trained ascii_lower init [py "the cat sat on the mat"] in
  ∃ (st : chain) (w' : world) (score : R),
    @process_decryption counter_random self (py "vjgbecv") 40 PyNone
      (@mkWorld counter_random 3 7 [])
    = (Ok (apply (invert (best_cifer st)) (py "vjgbecv")), w')
    ∧ score_cipher self (best_cifer st) (py "vjgbecv") = Ok score.
Proof.
  intros self.
  destruct (@best_score_bounds_visited ascii_lower counter_random
              [py "the cat sat on the mat"] self (py "vjgbecv") 40 PyNone
              (@mkWorld counter_random 3 7 []))
    as (sh & st0 & st & w0 & w' & score & _ & _ & Hrun & Hscore & _).
  - apply prepare_trained.
  - exact counter_random_lawful.
  - apply (bool_decide_unpack _); vm_compute; exact I.
  - left. reflexivity.
  - exists st, w', score. split; [exact Hrun|exact Hscore].
Defined.

(** ** The dictionary of counts *)

Lemma sum_values_dict_set (d : list (char * char * Z)) k v v' :
  dict_get d k = Some v →
  foldr (λ kv n, kv.2 + n)%Z 0%Z (dict_set k v' d)
  = (foldr (λ kv n, kv.2 + n)%Z 0%Z d - v + v')%Z.
Proof.
  induction d as [|[k0 v0] d IH]; [done|]. simpl.
  destruct (decide (k0 = k)) as [->|Hne].
  - intros ?; simplify_eq. simpl. lia.
  - intros Hd. simpl. rewrite IH by done. lia.
Qed.

Lemma sum_values_app (d1 d2 : list (char * char * Z)) :
  foldr (λ kv n, kv.2 + n)%Z 0%Z (d1 ++ d2)
  = (foldr (λ kv n, kv.2 + n)%Z 0%Z d1
     + foldr (λ kv n, kv.2 + n)%Z 0%Z d2)%Z.
Proof. induction d1 as [|kv d1 IH]; simpl; lia. Qed.

Lemma count_transition_sum d ij :
  foldr (λ kv n, kv.2 + n)%Z 0%Z (count_transition d ij)
  = (foldr (λ kv n, kv.2 + n)%Z 0%Z d + 1)%Z.
Proof.
  unfold count_transition, dict_setdefault.
  destruct (dict_get d ij) as [v|] eqn:Hij.
  - rewrite (sum_values_dict_set d ij v) by done. lia.
  - rewrite (sum_values_dict_set _ ij 0%Z) by apply dict_get_set_eq.
    apply dict_get_None in Hij.
    rewrite dict_set_fresh, sum_values_app by done. simpl. lia.
Qed.

Lemma count_transition_NoDup d ij :
  NoDup d.*1 → NoDup (count_transition d ij).*1.
Proof.
  intros Hnd. unfold count_transition, dict_setdefault.
  destruct (dict_get d ij); by repeat apply dict_set_keys_NoDup.
Qed.

Lemma count_line_eq `{StrLower} d line :
  count_line d line
  = Ok (foldl count_transition d
          (zip (canonicalize line) (tail (canonicalize line)))).
Proof. unfold count_line. by rewrite transitions_zip. Qed.

Lemma count_corpus_sum `{StrLower} corpus d d' :
  for_res count_line d corpus = Ok d' → NoDup d.*1 →
  NoDup d'.*1
  ∧ foldr (λ kv n, kv.2 + n)%Z 0%Z d'
    = (foldr (λ kv n, kv.2 + n)%Z 0%Z d
       + foldr (λ line n, Z.of_nat (length (canonicalize line) - 1) + n)%Z
           0%Z corpus)%Z.
Proof.
  revert d. induction corpus as [|line corpus IH]; intros d.
  - cbn [for_res]. intros Heq%Ok_inj Hnd. subst d'. split; [done|].
    simpl. lia.
  - cbn [for_res]. rewrite count_line_eq. cbn [mbind res_bind].
    intros Hrest Hnd.
    assert (∀ ts d0, NoDup d0.*1 →
              NoDup (foldl count_transition d0 ts).*1
              ∧ foldr (λ kv n, kv.2 + n)%Z 0%Z (foldl count_transition d0 ts)
                = (foldr (λ kv n, kv.2 + n)%Z 0%Z d0
                   + Z.of_nat (length ts))%Z) as Hline.
    { induction ts as [|t ts IHts]; intros d0 Hd0.
      - split; [done|]. simpl. lia.
      - cbn [foldl]. destruct (IHts (count_transition d0 t)) as [H1 H2];
          [by apply count_transition_NoDup|].
        split; [done|]. rewrite H2, count_transition_sum.
        rewrite length_cons. lia. }
    destruct (Hline (zip (canonicalize line) (tail (canonicalize line))) d Hnd)
      as [Hnd1 Hsum1].
    destruct (IH _ Hrest Hnd1) as [Hnd' Hsum']. split; [done|].
    rewrite Hsum', Hsum1, length_zip_with, length_tl. simpl. lia.
Qed.

(** X20. The dictionary the counting loop builds has distinct keys, all
    of them pairs of alphabet symbols; it holds exactly the bigrams that
    occur, each with its number of occurrences, at least 1; and its values
    add up to the number of consecutive pairs of the canonicalized
    lines. *)
Theorem char_bigram_counts_total `{StrLower} (corpus : list str) :
  ∃ counts : list (char * char * Z),
    for_res count_line [] corpus = Ok counts
    ∧ NoDup (dict_keys counts)
    ∧ (∀ a b, dict_get counts (a, b)
              = if decide (bigram_count corpus a b = 0)%Z then None
                else Some (bigram_count corpus a b))
    ∧ Forall (λ kv, kv.1.1 ∈ alphabet init ∧ kv.1.2 ∈ alphabet init
                    ∧ (1 ≤ kv.2)%Z) counts
    ∧ foldr (λ kv n, kv.2 + n)%Z 0%Z counts
      = foldr (λ line n, Z.of_nat (length (canonicalize line) - 1) + n)%Z
          0%Z corpus.
Proof.
  destruct (count_corpus_get corpus []) as (counts & Hcounts & Hget).
  destruct (count_corpus_sum corpus [] counts Hcounts) as [Hnd Hsum];
    [constructor|].
  assert (∀ a b, dict_get counts (a, b)
                 = if decide (bigram_count corpus a b = 0)%Z then None
                   else Some (bigram_count corpus a b)) as Hget'.
  { intros a b. rewrite Hget. by case_decide. }
  exists counts. split_and!; [done..| |by rewrite Hsum].
  apply Forall_forall. intros [[a b] v] Hin.
  apply (elem_dict_get counts (a, b) v Hnd) in Hin.
  rewrite Hget' in Hin. case_decide as Hz; [done|].
  injection Hin as <-. pose proof (bigram_count_nonneg corpus a b).
  cbn [fst snd].
  destruct (bigram_count_pos_alphabet corpus a b) as [Ha Hb]; [lia|].
  split_and!; [done..|lia].
Qed.

(** ** Ciphertexts of fewer than two symbols *)

Lemma score_cipher_short `{StrLower} corpus c encrypted :
  is_cipher c → canonical encrypted → length encrypted < 2 →
  score_cipher (trained init corpus) c encrypted = Ok 0%R.
Proof.
  intros Hc Henc Hlen. rewrite score_cipher_trained by done. f_equal.
  apply log_likelihood_sign.
  - apply apply_canonical; [by apply is_cipher_invert|done].
  - unfold apply. by rewrite length_fmap.
Qed.

Lemma for_loop_short `{StrLower} `{RandomLib}
    (corpus : list str) (encrypted shuffled_letters : str) verbose
    n k st w st' w' :
  RandomLawful _ → canonical encrypted →
  shuffled_letters ≡ₚ alphabet init → length encrypted < 2 →
  chain_inv (trained init corpus) encrypted st →
  for_M (loop_body (trained init corpus) encrypted shuffled_letters verbose)
    (seq k n) st w = (Ok st', w') →
  best_cifer st' = best_cifer st.
Proof.
  intros Hlaw Henc Hsh Hlen. revert k st w.
  induction n as [|n IH]; intros k st w Hinv.
  - cbn [seq for_M]. unfold mret, M_ret. by intros [<- _]%Ok_pair_inj.
  - cbn [seq for_M]. unfold mbind at 1, M_bind at 1.
    destruct (loop_body _ _ _ _ k st w) as [[st1|e] w1] eqn:Hbody; [|done].
    destruct (loop_body_Ok corpus encrypted shuffled_letters Hlaw Henc Hsh
                _ _ _ _ _ _ Hinv Hbody) as (w2 & Hstep & Hinv1 & _).
    intros Hrest. rewrite (IH _ _ _ Hinv1 Hrest).
    destruct (search_step_spec corpus encrypted shuffled_letters
                Hlaw Henc Hsh st w (proj1 Hinv))
      as (s & accepted & Hcand & Hs & _ & _ & Hstep').
    rewrite Hstep in Hstep'. apply Ok_pair_inj in Hstep' as [-> _].
    cbn [best_cifer].
    rewrite score_cipher_short in Hs by done. apply Ok_inj in Hs. subst s.
    destruct Hinv as (_ & Hbest & _ & Hsbest & _).
    rewrite score_cipher_short in Hsbest by done. apply Ok_inj in Hsbest.
    rewrite <-Hsbest. destruct (Rlt_dec 0 0); [lra|done].
Qed.

(** X21. On a ciphertext of fewer than two symbols every cipher scores 0,
    so the search never replaces the best cipher: whatever the iteration
    count, the run returns what a run of no iteration returns, the
    ciphertext under the inverse of the initial shuffled cipher. *)
Theorem short_ciphertext_search_inert `{StrLower} `{RandomLib}
    (corpus : list str) (self : EnigmaForDummies)
    (encrypted : str) (iters : Z) (verbose : pyval) (w : world) :
  prepare_empirical_freq_normalized init corpus = Ok self →
  RandomLawful _ → canonical encrypted → length encrypted < 2 →
  valid_verbose verbose →
  let shuffled_letters := (random_shuffle (alphabet init) (py_rng w)).1 in
  (∀ c, is_cipher c → score_cipher self c encrypted = Ok 0%R)
  ∧ ∃ w' w0,
      process_decryption self encrypted iters verbose w
      = (Ok (apply (invert (zip shuffled_letters (alphabet init))) encrypted),
         w')
      ∧ process_decryption self encrypted 0 verbose w
        = (Ok (apply (invert (zip shuffled_letters (alphabet init))) encrypted),
           w0).
Proof.
  intros Htrain. rewrite prepare_trained in Htrain.
  apply Ok_inj in Htrain. subst self.
  intros Hlaw Henc Hlen Hv shuffled_letters.
  split; [intros c Hc; by apply score_cipher_short|].
  destruct (process_decryption_run corpus encrypted Hlaw Henc iters verbose w)
    as (sh & st0 & w0 & Hinit & Hsh & Hinv0 & Hrun).
  destruct (initial_chain_spec corpus encrypted Hlaw Henc w)
    as (s0 & _ & _ & Hinit').
  rewrite Hinit' in Hinit.
  apply Ok_pair_inj in Hinit as [[Hsh0 Hst0]%pair_equal_spec Hw0].
  fold shuffled_letters in Hsh0, Hst0. subst sh.
  destruct (for_loop_valid corpus encrypted shuffled_letters Hlaw Henc Hsh
              verbose (Z.to_nat iters) 0 st0 w0 Hv Hinv0) as (st & w' & Hloop).
  pose proof (for_loop_short corpus encrypted shuffled_letters verbose
                _ _ _ _ _ _ Hlaw Henc Hsh Hlen Hinv0 Hloop) as Hbest.
  unfold run_loop in Hrun. rewrite Hloop, Hbest, <-Hst0 in Hrun.
  cbn [best_cifer] in Hrun.
  eexists w', _. split; [exact Hrun|].
  by apply process_decryption_0.
Qed.

Lemma short_ciphertext_search_inert_witness :
  let self := @trained ascii_lower init [py "the cat sat on the mat"] in
  ∃ w',
    @process_decryption counter_random self (py "q") 5000 (PyInt 500)
      (@mkWorld counter_random 3 7 [])
    = (Ok (apply (invert (zip (rotate 3 (alphabet init)) (alphabet init)))
             (py "q")), w').
Proof.
  intros self.
  destruct (@short_ciphertext_search_inert ascii_lower counter_random
              [py "the cat sat on the mat"] self (py "q") 5000 (PyInt 500)
              (@mkWorld counter_random 3 7 []))
    as (_ & w' & w0 & Hrun & _).
  - apply prepare_trained.
  - exact counter_random_lawful.
  - apply (bool_decide_unpack _); vm_compute; exact I.
  - vm_compute. lia.
  - right. reflexivity.
  - exists w'. exact Hrun.
Defined.

(** * Reporting and randomness, as the code has them *)

Lemma reports_falsy verbose i : truthy verbose = false → reports verbose i = false.
Proof.
  intros Hfalsy. unfold reports.
  destruct verbose as [| |z| |]; try by rewrite andb_false_r.
  cbn [truthy] in Hfalsy. apply negb_false_iff, Z.eqb_eq in Hfalsy.
  subst z. by rewrite andb_false_r.
Qed.

Lemma process_decryption_noncanonical `{StrLower} `{RandomLib}
    (corpus : list str) (encrypted : str) (iters : Z) (verbose : pyval)
    (w : world) :
  RandomLawful _ → ¬ canonical encrypted →
  process_decryption (trained init corpus) encrypted iters verbose w
  = (Raise KeyError,
     {| py_rng := (random_shuffle (alphabet init) (py_rng w)).2;
        np_rng := np_rng w; console := console w |}).
Proof.
  intros Hlaw Henc. unfold process_decryption.
  change (emp_freq_prepared (trained init corpus)) with true.
  unfold py_assert, lift. unfold mbind at 1, M_bind at 1.
  unfold initial_chain. change (alphabet (trained init corpus)) with (alphabet init).
  unfold mbind at 1, M_bind at 1.
  rewrite (M_bind_Ok _ _ _ _ _ (shuffle_eq _ _)).
  destruct (zip_is_cipher (random_shuffle (alphabet init) (py_rng w)).1
              (alphabet init)) as [Hzip Hc0];
    [apply random_shuffle_perm, Hlaw|done|].
  rewrite Hzip. unfold lift, mbind, M_bind. unfold score_cipher.
  rewrite encrypt_or_decrypt_noncanonical;
    [done|by apply is_cipher_invert|done].
Qed.

(** A run of zero iterations with the reporting interval -1 returns. *)
Lemma invalid_verbose_zero_iterations_returns :
  let self := @trained ascii_lower init [] in
  @prepare_empirical_freq_normalized ascii_lower init [] = Ok self
  ∧ truthy (PyInt (-1)) = true
  ∧ positive_int (PyInt (-1)) = false
  ∧ @process_decryption counter_random self
      (py "ab") 0 (PyInt (-1)) (@mkWorld counter_random 1 0 [])
    = (Ok (py "bc"), @mkWorld counter_random 2 0 []).
Proof.
  intros self. unfold self. split_and!; [apply prepare_trained|done..|].
  rewrite (@process_decryption_0 ascii_lower counter_random);
    [|exact counter_random_lawful
     |apply (bool_decide_unpack _); vm_compute; exact I|done].
  cbn [py_rng np_rng console random_shuffle counter_random fst snd].
  by vm_compute.
Qed.

(** C8, as the code has it. On a trained engine, a ciphertext that holds
    a symbol outside the alphabet makes the call fail with KeyError at the
    initial score, whatever [verbose] is.  On a canonical ciphertext, when
    [verbose] is truthy and not a positive integer, a run of at least one
    iteration performs the search step of iteration 0 and then fails at
    the assertion of the reporting block, before anything is printed; a
    run of no iteration never reaches the assertion and returns the
    ciphertext under the inverse of the initial cipher.  A falsy [verbose]
    is never rejected: the run returns a text for every iteration count
    and prints nothing. *)
Theorem invalid_verbose_rejected_in_first_report `{StrLower} `{RandomLib}
    (corpus : list str) (self : EnigmaForDummies)
    (encrypted : str) (iters : Z) (verbose : pyval) (w : world) :
  prepare_empirical_freq_normalized init corpus = Ok self →
  RandomLawful _ →
  (¬ canonical encrypted →
     process_decryption self encrypted iters verbose w
     = (Raise KeyError,
        {| py_rng := (random_shuffle (alphabet init) (py_rng w)).2;
           np_rng := np_rng w; console := console w |}))
  ∧ (canonical encrypted →
     ∃ (shuffled_letters : str) (st0 : chain) (w0 : world),
       initial_chain self encrypted w = (Ok (shuffled_letters, st0), w0)
       ∧ (truthy verbose = true → positive_int verbose = false →
          (0 < iters)%Z →
          ∃ (st1 : chain) (w1 : world),
            search_step self encrypted shuffled_letters st0 w0 = (Ok st1, w1)
            ∧ np_rng w1 = (np_random_choice2 shuffled_letters (np_rng w0)).2
            ∧ console w1 = console w
            ∧ process_decryption self encrypted iters verbose w
              = (Raise (AssertionError
                          "Select verbose=False or pass positive integer"),
                 w1))
       ∧ (truthy verbose = true → positive_int verbose = false →
          (iters ≤ 0)%Z →
          process_decryption self encrypted iters verbose w
          = (Ok (apply (invert (best_cifer st0)) encrypted), w0))
       ∧ (truthy verbose = false →
          ∃ (st : chain) (w' : world),
            is_cipher (best_cifer st)
            ∧ process_decryption self encrypted iters verbose w
              = (Ok (apply (invert (best_cifer st)) encrypted), w')
            ∧ console w' = console w)).
Proof.
  intros Htrain. rewrite prepare_trained in Htrain.
  apply Ok_inj in Htrain. subst self.
  intros Hlaw. split; [by apply process_decryption_noncanonical|].
  intros Henc.
  destruct (process_decryption_run corpus encrypted Hlaw Henc iters verbose w)
    as (sh & st0 & w0 & Hinit & Hsh & Hinv0 & Hrun).
  exists sh, st0, w0. split_and!; [done| | |].
  - intros Ht Hp Hiters.
    destruct (search_step_spec corpus encrypted sh Hlaw Henc Hsh st0 w0
                (proj1 Hinv0)) as (s & accepted & _ & _ & _ & _ & Hstep).
    eexists _, _. split_and!; [exact Hstep|done| |].
    + cbn [console].
      destruct (initial_chain_spec corpus encrypted Hlaw Henc w)
        as (s0 & _ & _ & Hinit').
      rewrite Hinit' in Hinit. by apply Ok_pair_inj in Hinit as [_ <-].
    + rewrite Hrun. unfold run_loop.
      destruct (Z.to_nat iters) as [|n] eqn:Hn; [lia|].
      cbn [seq for_M]. unfold mbind at 1, M_bind at 1.
      unfold loop_body at 1. rewrite (M_bind_Ok _ _ _ _ _ Hstep).
      unfold mbind at 1, M_bind at 1.
      by rewrite report_invalid.
  - intros _ _ Hiters. rewrite Hrun. by replace (Z.to_nat iters) with 0 by lia.
  - intros Hfalsy.
    destruct (process_decryption_trace corpus encrypted iters verbose w
                Hlaw Henc (or_introl Hfalsy))
      as (st & w' & new & Hinv & Hrun' & _ & Hcons & Hnew & _).
    exists st, w'. split_and!; [apply Hinv|exact Hrun'|].
    rewrite Hcons.
    assert (List.filter (reports verbose) (seq 0 (Z.to_nat iters)) = [])
      as Hnone.
    { generalize (seq 0 (Z.to_nat iters)). intros l.
      induction l as [|i l IH]; [done|]. cbn [List.filter].
      by rewrite reports_falsy. }
    rewrite Hnone in Hnew. by destruct new.
Qed.

Lemma invalid_verbose_rejected_in_first_report_witness :
  let self := @trained ascii_lower init [py "the cat sat on the mat"] in
  (∃ w1,
     @process_decryption counter_random self (py "vjgbecv") 5000 (PyFloat 2.5)
       (@mkWorld counter_random 3 7 [])
     = (Raise (AssertionError "Select verbose=False or pass positive integer"),
        w1))
  ∧ (∃ text w',
       @process_decryption counter_random self (py "vjgbecv") 5000 (PyInt 0)
         (@mkWorld counter_random 3 7 []) = (Ok text, w')
       ∧ console w' = [])
  ∧ @process_decryption counter_random self (py "Vjgbecv") 5000 (PyFloat 2.5)
      (@mkWorld counter_random 3 7 [])
    = (Raise KeyError, @mkWorld counter_random 4 7 []).
Proof.
  intros self.
  assert (canonical (py "vjgbecv")) as Henc
    by (apply (bool_decide_unpack _); vm_compute; exact I).
  assert (¬ canonical (py "Vjgbecv")) as Hnot
    by (apply (bool_decide_unpack _); vm_compute; exact I).
  split_and!.
  - destruct (@invalid_verbose_rejected_in_first_report ascii_lower
                counter_random [py "the cat sat on the mat"] self
                (py "vjgbecv") 5000 (PyFloat 2.5)
                (@mkWorld counter_random 3 7 []))
      as (_ & Hcan).
    + apply prepare_trained.
    + exact counter_random_lawful.
    + destruct (Hcan Henc) as (sh & st0 & w0 & _ & Hfail & _).
      destruct Hfail as (st1 & w1 & _ & _ & _ & Hfail); [reflexivity..|].
      exists w1. exact Hfail.
  - destruct (@invalid_verbose_rejected_in_first_report ascii_lower
                counter_random [py "the cat sat on the mat"] self
                (py "vjgbecv") 5000 (PyInt 0)
                (@mkWorld counter_random 3 7 []))
      as (_ & Hcan).
    + apply prepare_trained.
    + exact counter_random_lawful.
    + destruct (Hcan Henc) as (sh & st0 & w0 & _ & _ & _ & Hfalsy).
      destruct Hfalsy as (st & w' & _ & Hrun & Hcons); [reflexivity|].
      eexists _, w'. split; [exact Hrun|exact Hcons].
  - destruct (@invalid_verbose_rejected_in_first_report ascii_lower
                counter_random [py "the cat sat on the mat"] self
                (py "Vjgbecv") 5000 (PyFloat 2.5)
                (@mkWorld counter_random 3 7 []))
      as (Hkey & _).
    + apply prepare_trained.
    + exact counter_random_lawful.
    + exact (Hkey Hnot).
Defined.

(** Two runs on one engine, one ciphertext and one iteration count, from
    two states of the generator of the [random] module, differ. *)
Lemma process_decryption_depends_on_ambient_generator :
  let self := @trained ascii_lower init [py "the cat sat on the mat"] in
  @prepare_empirical_freq_normalized ascii_lower init
    [py "the cat sat on the mat"] = Ok self
  ∧ (@process_decryption counter_random self (py "ab") 0 PyNone
     (@mkWorld counter_random 0 0 [])).1 = Ok (py "ab")
  ∧ (@process_decryption counter_random self (py "ab") 0 PyNone
       (@mkWorld counter_random 1 0 [])).1 = Ok (py "bc")
  ∧ (@process_decryption counter_random self (py "ab") 0 PyNone
       (@mkWorld counter_random 0 0 [])).1
    ≠ (@process_decryption counter_random self (py "ab") 0 PyNone
         (@mkWorld counter_random 1 0 [])).1.
Proof.
  intros self.
  assert (canonical (py "ab")) as Henc
    by (apply (bool_decide_unpack _); vm_compute; exact I).
  unfold self.
  rewrite !(@process_decryption_0 ascii_lower counter_random)
    by (exact counter_random_lawful || exact Henc || done).
  cbn [py_rng np_rng console random_shuffle counter_random fst snd].
  split_and!; [apply prepare_trained|by vm_compute..|]. by vm_compute.
Qed.

(** C9, as the code has it. The search draws from the generator of the
    [random] module and from the one of [numpy.random], which belong to
    the process and not to the engine: a trained engine is its flag, its
    alphabet, its index mapping and its matrix.  The initial cipher pairs the
    alphabet, as shuffled by [random.shuffle] from the state of the first
    generator at the call, with the alphabet; every iteration draws its
    two symbols by [np.random.choice] from the shuffled letters, which
    advances the second generator, and draws [random.uniform(0, 1)], which
    advances the first, exactly when the candidate does not score above
    the current cipher; a run of [n] iterations leaves the second
    generator where [n] such calls lead, and a run of no iteration returns
    the ciphertext under the inverse of the shuffled cipher.  Two runs on
    one engine, ciphertext, iteration count and [verbose] that start with
    both generators in the same states return the same result and leave
    both generators in the same states. *)
Theorem process_decryption_determined_by_generators `{StrLower} `{RandomLib}
    (corpus : list str) (encrypted : str) (iters : Z) (verbose : pyval)
    (w1 : world) :
  let shuffled_letters := (random_shuffle (alphabet init) (py_rng w1)).1 in
  (∀ (self : EnigmaForDummies) (w2 : world),
     py_rng w1 = py_rng w2 → np_rng w1 = np_rng w2 →
     (process_decryption self encrypted iters verbose w1).1
     = (process_decryption self encrypted iters verbose w2).1
     ∧ py_rng (process_decryption self encrypted iters verbose w1).2
       = py_rng (process_decryption self encrypted iters verbose w2).2
     ∧ np_rng (process_decryption self encrypted iters verbose w1).2
       = np_rng (process_decryption self encrypted iters verbose w2).2)
  ∧ (∀ self : EnigmaForDummies,
       prepare_empirical_freq_normalized init corpus = Ok self →
       RandomLawful _ → canonical encrypted → valid_verbose verbose →
       (∃ m : list (list Q),
          self = {| emp_freq_prepared := true;
                    alphabet := alphabet init;
                    char_index_mapping := char_index_mapping init;
                    empirical_frequences := Some m |})
       ∧ (∃ st0 : chain,
          initial_chain self encrypted w1
          = (Ok (shuffled_letters, st0),
             {| py_rng := (random_shuffle (alphabet init) (py_rng w1)).2;
                np_rng := np_rng w1; console := console w1 |})
          ∧ current_cifer st0 = zip shuffled_letters (alphabet init)
          ∧ best_cifer st0 = zip shuffled_letters (alphabet init))
       ∧ (∀ (st : chain) (w : world),
            chain_inv self encrypted st →
            let r := (np_random_choice2 shuffled_letters (np_rng w)).1 in
            let u := (random_uniform01 (py_rng w)).1 in
            let candidate := swap (current_cifer st) r.1 r.2 in
            ∃ (candidate_score : R) (st' : chain) (w' : world),
              score_cipher self candidate encrypted = Ok candidate_score
              ∧ search_step self encrypted shuffled_letters st w = (Ok st', w')
              ∧ np_rng w' = (np_random_choice2 shuffled_letters (np_rng w)).2
              ∧ py_rng w'
                = (if Rlt_dec (current_score st) candidate_score
                   then py_rng w else (random_uniform01 (py_rng w)).2)
              ∧ (current_cifer st' = candidate
                 ∨ current_cifer st' = current_cifer st)
              ∧ ((current_score st < candidate_score
                  ∨ u < exp (candidate_score - current_score st))%R →
                 current_cifer st' = candidate))
       ∧ (∃ (st : chain) (w' : world),
            process_decryption self encrypted iters verbose w1
            = (Ok (apply (invert (best_cifer st)) encrypted), w')
            ∧ np_rng w'
              = np_after shuffled_letters (Z.to_nat iters) (np_rng w1)
            ∧ ((iters ≤ 0)%Z →
               best_cifer st = zip shuffled_letters (alphabet init)
               ∧ py_rng w' = (random_shuffle (alphabet init) (py_rng w1)).2))).
Proof.
  intros shuffled_letters. split.
  { intros self w2 Hpy Hnp.
    destruct (gd_process_decryption self encrypted iters verbose w1 w2)
      as (Hr & Hpy' & Hnp'); by try split. }
  intros self Htrain. rewrite prepare_trained in Htrain.
  apply Ok_inj in Htrain. subst self.
  intros Hlaw Henc Hv.
  destruct (initial_chain_spec corpus encrypted Hlaw Henc w1)
    as (s0 & Hsh & Hinv0 & Hinit).
  fold shuffled_letters in Hsh, Hinv0, Hinit.
  split_and!.
  - by exists (bigram_model corpus).
  - eexists. split_and!; [exact Hinit|done..].
  - intros st w Hinv r u candidate.
    destruct (search_step_spec corpus encrypted shuffled_letters Hlaw Henc Hsh
                st w (proj1 Hinv))
      as (s & accepted & _ & Hs & Hacc & _ & Hstep).
    fold r u candidate in Hs, Hacc, Hstep.
    eexists s, _, _. split_and!; [exact Hs|exact Hstep|done|done| |].
    + cbn [current_cifer]. destruct accepted; [by left|by right].
    + intros Hcond. cbn [current_cifer]. apply Hacc in Hcond.
      by rewrite Hcond.
  - destruct (process_decryption_trace corpus encrypted iters verbose w1
                Hlaw Henc Hv) as (st & w' & new & _ & Hrun & Hnp & _).
    destruct (decide (iters ≤ 0)%Z) as [Hle|Hgt].
    + pose proof (process_decryption_0 corpus encrypted iters verbose w1
                    Hlaw Henc Hle) as Hzero.
      cbv zeta in Hzero. fold shuffled_letters in Hzero.
      eexists {| current_cifer := zip shuffled_letters (alphabet init);
                 current_score := 0;
                 best_cifer := zip shuffled_letters (alphabet init);
                 best_score := 0 |}, _.
      cbn [best_cifer]. split_and!; [exact Hzero| |done].
      cbn [np_rng]. by replace (Z.to_nat iters) with 0 by lia.
    + exists st, w'. split_and!; [exact Hrun|exact Hnp|]. intros; lia.
Qed.

Lemma process_decryption_determined_by_generators_witness :
  let self := @trained ascii_lower init [py "the cat sat on the mat"] in
  (@process_decryption counter_random self (py "vjgbecv") 40 (PyInt 10)
     (@mkWorld counter_random 3 7 [])).1
  = (@process_decryption counter_random self (py "vjgbecv") 40 (PyInt 10)
       (@mkWorld counter_random 3 7 [(0, py "the cat")])).1
  ∧ ∃ (st : chain) (w' : world),
      @process_decryption counter_random self (py "vjgbecv") 40 (PyInt 10)
        (@mkWorld counter_random 3 7 [])
      = (Ok (apply (invert (best_cifer st)) (py "vjgbecv")), w')
      ∧ np_rng w' = 47.
Proof.
  intros self.
  destruct (@process_decryption_determined_by_generators ascii_lower
              counter_random [py "the cat sat on the mat"] (py "vjgbecv") 40
              (PyInt 10) (@mkWorld counter_random 3 7 []))
    as (Hdet & Hdraws).
  split.
  - apply (Hdet self (@mkWorld counter_random 3 7 [(0, py "the cat")]));
      reflexivity.
  - destruct (Hdraws self) as (_ & _ & _ & st & w' & Hrun & Hnp & _).
    + apply prepare_trained.
    + exact counter_random_lawful.
    + apply (bool_decide_unpack _); vm_compute; exact I.
    + right. reflexivity.
    + exists st, w'. split; [exact Hrun|]. rewrite Hnp. reflexivity.
Defined.
